(** * K-Means clustering (src/types/index.ts, src/utils/euclidianDistance.ts,
      src/algorithms/kmeans.ts)

    A shallow embedding of the clustering engine: Euclidean distance,
    centroid mean, K-Means++ seeding, assignment, the convergence loop and
    the best-of-N wrapper, followed by the properties of the specification.

    Conventions of the embedding.
    - A JavaScript [number] is an IEEE-754 binary64 value.  The program is
      written once over the interface [Number] (the arithmetic the source
      uses and nothing else) and instantiated twice: [Binary64] is the
      arithmetic the program really runs on (Rocq's primitive floats), and
      [Exact] is the same special-value algebra (infinities, NaN) over the
      real numbers, without rounding and without overflow.
    - [x ** 2] is [x * x] (the squaring case of the exponentiation).
    - A thrown [Error] is an [error] value; each throw site has its own
      constructor, the message is quoted next to it.
    - [Math.random()] is the next value of a stream [rnd : nat -> num]; the
      state threaded through the random functions is the number of values
      consumed so far.
    - The only loop without a bound in the source is the [while] of the
      seeding; it takes fuel, and [Diverge] is the outcome of a run that
      needs more passes than the fuel allows.
    - [k], [maxIterations] and [numRuns] are integers; the optional
      parameters are passed explicitly.
    - src/algorithms/kmeans.ts repeats [assignPointsToCentroidClusters],
      [calculateCentroidPosition] and the validation and loop of [kMeans]
      word for word; the embedding follows src/types/index.ts, whose
      [kMeans] seeds with K-Means++.  The seeding by shuffling of kmeans.ts
      and the [kMeans] built on it are the module [Legacy]. *)

From Stdlib Require Import List ZArith Lia Bool Arith Permutation.
From Stdlib Require Import Floats.
From Stdlib Require Import Reals Lra.
Import ListNotations.

Set Implicit Arguments.

(** ** Numbers *)

Class Number (num : Type) : Type := {
  nzero : num;
  ninfinity : num;                 (* Infinity *)
  nnan : num;                      (* NaN, also [undefined + x] *)
  nadd : num -> num -> num;
  nsub : num -> num -> num;
  nmul : num -> num -> num;
  ndiv : num -> num -> num;
  nsqrt : num -> num;              (* Math.sqrt *)
  nltb : num -> num -> bool;       (* x < y *)
  ngeb : num -> num -> bool;       (* x >= y *)
  nisNaN : num -> bool;            (* isNaN(x) *)
  nof_nat : nat -> num;            (* an array length as a number *)
  nfloor_index : num -> option nat (* Math.floor(x) as an array index:
                                      [None] when it is not a natural number *)
}.

(** ** Outcomes: a value, a thrown error, or a run that does not end *)

Inductive error : Type :=
| InvalidClustersOrEmptyDataset  (* "Invalid number of clusters or empty dataset." *)
| DataDimensions                 (* "All data points must have the same dimensions." *)
| EmptyCluster                   (* "Cannot calculate the mean of an empty cluster." *)
| NoDimension                    (* "Points must have at least one dimension." *)
| PointDimension (expected got : nat)
                                 (* "Point has incorrect dimensions: expected .., but got .." *)
| InvalidCoordinate (dimension : nat)
                                 (* "Invalid coordinate value at dimension ..: .." *)
| DistanceDimensions             (* "Points must have the same number of dimensions." *)
| TypeError.                     (* a property read on [undefined] *)

Inductive outcome (A : Type) : Type :=
| Ret (a : A)
| Throw (e : error)
| Diverge.

Arguments Ret {A} a.
Arguments Throw {A} e.
Arguments Diverge {A}.

Definition bind {A B : Type} (m : outcome A) (k : A -> outcome B) : outcome B :=
  match m with
  | Ret a => k a
  | Throw e => Throw e
  | Diverge => Diverge
  end.

Notation "x <- m ;; k" := (bind m (fun x => k))
  (at level 61, m at next level, right associativity).

(** A computation that may call [Math.random()]: the state is the number of
    random values consumed. *)
Definition rand (A : Type) : Type := nat -> outcome (A * nat).

Definition ret {A : Type} (a : A) : rand A := fun s => Ret (a, s).

Definition bindR {A B : Type} (m : rand A) (k : A -> rand B) : rand B :=
  fun s => match m s with
           | Ret (a, s') => k a s'
           | Throw e => Throw e
           | Diverge => Diverge
           end.

Definition lift {A : Type} (m : outcome A) : rand A :=
  fun s => match m with
           | Ret a => Ret (a, s)
           | Throw e => Throw e
           | Diverge => Diverge
           end.

Notation "x <~ m ;; k" := (bindR m (fun x => k))
  (at level 61, m at next level, right associativity).

(** [reduce] and [forEach] with a callback that may throw. *)
Fixpoint foldM {A B : Type} (f : B -> A -> outcome B) (l : list A) (b : B)
  : outcome B :=
  match l with
  | [] => Ret b
  | a :: l' => b' <- f b a ;; foldM f l' b'
  end.

(** [map] with a callback that may throw. *)
Fixpoint mapM {A B : Type} (f : A -> outcome B) (l : list A) : outcome (list B) :=
  match l with
  | [] => Ret []
  | a :: l' => b <- f a ;; bs <- mapM f l' ;; Ret (b :: bs)
  end.

(** [map] with a callback that may throw or call [Math.random()]. *)
Fixpoint mapR {A B : Type} (f : A -> rand B) (l : list A) : rand (list B) :=
  match l with
  | [] => ret []
  | a :: l' => b <~ f a ;; bs <~ mapR f l' ;; ret (b :: bs)
  end.

(** [forEach((x, i) => ..)]: the elements with their indices. *)
Definition indexed {A : Type} (l : list A) : list (nat * A) :=
  combine (seq 0 (length l)) l.

(** ** The program *)

Section KMeans.

Context {num : Type} {NUM : Number num}.

(** A point is the array of its coordinates. *)
Local Abbreviation point := (list num).

Record Cluster : Type := { centroid : point; points : list point }.

(** The random source. *)
Variable rnd : nat -> num.

Definition random : rand num := fun s => Ret (rnd s, S s).

(** *** euclidianDistance.ts *)

Definition sqDiffSum (point1 point2 : point) : num :=
  fold_left (fun sum vw => nadd sum (nmul (nsub (fst vw) (snd vw))
                                          (nsub (fst vw) (snd vw))))
            (combine point1 point2) nzero.

Definition euclideanDistance (point1 point2 : point) : outcome num :=
  if negb (length point1 =? length point2) then Throw DistanceDimensions
  else Ret (nsqrt (sqDiffSum point1 point2)).

(** *** calculateInertia *)

Definition clusterInertia (cluster : Cluster) : outcome num :=
  foldM (fun sum p =>
           d <- euclideanDistance p (centroid cluster) ;;
           Ret (nadd sum (nmul d d)))
        (points cluster) nzero.

Definition calculateInertia (clusters : list Cluster) : outcome num :=
  foldM (fun inertia cluster =>
           s <- clusterInertia cluster ;;
           Ret (nadd inertia s))
        clusters nzero.

(** *** initializeCentroidsWithKMeansPlusPlus *)

(** [data[i]]; an index out of range reads [undefined].  The source stores
    it and goes on: a distance computed with it later is a TypeError, and
    when none is computed ([k <= 1], or an empty dataset) it stays in the
    centroids.  The embedding stops at the read.  After the validation of
    [kMeans] the dataset is not empty and the indices read are indices of
    it, for random values from 0 (included) to 1 (excluded); the properties
    of the seeding called on its own are stated for such a dataset and such
    random values. *)
Definition dataAt (data : list point) (i : option nat) : outcome point :=
  match i with
  | Some i => match nth_error data i with
              | Some p => Ret p
              | None => Throw TypeError
              end
  | None => Throw TypeError
  end.

(** The distance of [p] to the closest of [centroids]. *)
Definition minDistance (p : point) (centroids : list point) : outcome num :=
  foldM (fun minD c =>
           distance <- euclideanDistance p c ;;
           Ret (if nltb distance minD then distance else minD))
        centroids ninfinity.

(** The array [distances] of one pass. *)
Definition sqMinDistances (data centroids : list point) : outcome (list num) :=
  mapM (fun p => m <- minDistance p centroids ;; Ret (nmul m m)) data.

Definition totalDistance (distances : list num) : num :=
  fold_left nadd distances nzero.

(** The [for] loop of one pass: the first index whose cumulative sum reaches
    [randomValue], if there is one. *)
Fixpoint pickIndex (distances : list num) (i : nat) (cumulativeSum randomValue : num)
  : option nat :=
  match distances with
  | [] => None
  | d :: rest =>
      let cumulativeSum := nadd cumulativeSum d in
      if ngeb cumulativeSum randomValue then Some i
      else pickIndex rest (S i) cumulativeSum randomValue
  end.

(** [while (centroids.length < k)]. *)
Fixpoint seedLoop (fuel : nat) (data : list point) (k : Z) (centroids : list point)
  : rand (list point) :=
  if (Z.of_nat (length centroids) <? k)%Z then
    match fuel with
    | O => fun _ => Diverge
    | S fuel' =>
        distances <~ lift (sqMinDistances data centroids) ;;
        r <~ random ;;
        let randomValue := nmul r (totalDistance distances) in
        match pickIndex distances 0 nzero randomValue with
        | Some i =>
            p <~ lift (dataAt data (Some i)) ;;
            seedLoop fuel' data k (centroids ++ [p])
        | None => seedLoop fuel' data k centroids
        end
    end
  else ret centroids.

Definition initializeCentroidsWithKMeansPlusPlus
  (fuel : nat) (data : list point) (k : Z) : rand (list point) :=
  r <~ random ;;
  let randomIndex := nfloor_index (nmul r (nof_nat (length data))) in
  p <~ lift (dataAt data randomIndex) ;;
  seedLoop fuel data k [p].

(** *** assignPointsToCentroidClusters *)

(** The inner [forEach]: the index of the centroid kept for [p]. *)
Definition scanStep (p : point) (st : nat * num) (ic : nat * point)
  : outcome (nat * num) :=
  distance <- euclideanDistance p (snd ic) ;;
  Ret (if nltb distance (snd st) then (fst ic, distance) else st).

Definition nearestIndex (p : point) (centroids : list point) : outcome nat :=
  match centroids with
  | [] => Throw TypeError                  (* centroids[0] is undefined *)
  | c0 :: _ =>
      shortestDistance <- euclideanDistance p c0 ;;
      st <- foldM (scanStep p) (indexed centroids) (0, shortestDistance) ;;
      Ret (fst st)
  end.

(** [clusters[j].points.push(p)]. *)
Fixpoint pushPoint (clusters : list Cluster) (j : nat) (p : point) : list Cluster :=
  match clusters, j with
  | [], _ => []
  | c :: cs, O => {| centroid := centroid c; points := points c ++ [p] |} :: cs
  | c :: cs, S j' => c :: pushPoint cs j' p
  end.

Definition emptyClusters (centroids : list point) : list Cluster :=
  map (fun c => {| centroid := c; points := [] |}) centroids.

Definition assignPointsToCentroidClusters (data centroids : list point)
  : outcome (list Cluster) :=
  foldM (fun clusters p =>
           j <- nearestIndex p centroids ;;
           Ret (pushPoint clusters j p))
        data (emptyClusters centroids).

(** *** calculateCentroidPosition *)

(** [point.forEach((value, i) => { .. mean[i] += value })], from index [i]
    on.  Past the end of [mean] the source adds to [undefined]: NaN. *)
Fixpoint addCoordinates (mean p : list num) (i : nat) : outcome (list num) :=
  match p with
  | [] => Ret mean
  | value :: rest =>
      if nisNaN value then Throw (InvalidCoordinate i)
      else
        let m := match mean with
                 | m :: _ => nadd m value
                 | [] => nnan
                 end in
        tl <- addCoordinates (tl mean) rest (S i) ;;
        Ret (m :: tl)
  end.

Definition calculateCentroidPosition (pts : list point) : outcome point :=
  match pts with
  | [] => Throw EmptyCluster
  | p0 :: _ =>
      let dimensionOfPoints := length p0 in
      if dimensionOfPoints <? 1 then Throw NoDimension
      else
        mean <- foldM (fun mean p =>
                         if negb (length p =? dimensionOfPoints)
                         then Throw (PointDimension dimensionOfPoints (length p))
                         else addCoordinates mean p 0)
                      pts (repeat nzero dimensionOfPoints) ;;
        Ret (map (fun value => ndiv value (nof_nat (length pts))) mean)
  end.

(** *** kMeans *)

Definition validate (data : list point) (k : Z) : outcome unit :=
  if (length data =? 0) || (k <=? 0)%Z || (Z.of_nat (length data) <? k)%Z
  then Throw InvalidClustersOrEmptyDataset
  else
    let dimensions := length (hd [] data) in
    if negb (forallb (fun p => length p =? dimensions) data)
    then Throw DataDimensions
    else Ret tt.

(** The new centroid of one cluster. *)
Definition newCentroid (fuel : nat) (data : list point) (cluster : Cluster)
  : rand point :=
  match points cluster with
  | [] =>
      cs <~ initializeCentroidsWithKMeansPlusPlus fuel data 1 ;;
      match cs with
      | c :: _ => ret c
      | [] => lift (Throw TypeError)
      end
  | _ :: _ => lift (calculateCentroidPosition (points cluster))
  end.

(** [centroids.every((centroid, i) => distance(centroid, newCentroids[i]) < tolerance)];
    [every] stops at the first [false]. *)
Fixpoint allWithin (tolerance : num) (centroids newCentroids : list point)
  : outcome bool :=
  match centroids with
  | [] => Ret true
  | c :: cs =>
      match newCentroids with
      | [] => Throw TypeError              (* newCentroids[i] is undefined *)
      | n :: ns =>
          d <- euclideanDistance c n ;;
          if nltb d tolerance then allWithin tolerance cs ns else Ret false
      end
  end.

(** The variables of the [while] loop. *)
Record LoopState : Type := {
  centroids : list point;
  clusters : list Cluster;
  hasConverged : bool;
  iteration : Z
}.

Definition loopCond (maxIterations : Z) (st : LoopState) : bool :=
  negb (hasConverged st) && (iteration st <? maxIterations)%Z.

Definition loopBody (fuel : nat) (data : list point) (tolerance : num)
  (st : LoopState) : rand LoopState :=
  cl <~ lift (assignPointsToCentroidClusters data (centroids st)) ;;
  newCentroids <~ mapR (newCentroid fuel data) cl ;;
  conv <~ lift (allWithin tolerance (centroids st) newCentroids) ;;
  ret {| centroids := newCentroids;
         clusters := cl;
         hasConverged := conv;
         iteration := (iteration st + 1)%Z |}.

(** [n] bounds the number of passes; [kMeans] starts it at [maxIterations],
    which the loop cannot exceed. *)
Fixpoint whileLoop (n : nat) (fuel : nat) (data : list point)
  (maxIterations : Z) (tolerance : num) (st : LoopState) : rand LoopState :=
  match n with
  | O => ret st
  | S n' =>
      if loopCond maxIterations st then
        st' <~ loopBody fuel data tolerance st ;;
        whileLoop n' fuel data maxIterations tolerance st'
      else ret st
  end.

Definition initialState (cs : list point) : LoopState :=
  {| centroids := cs; clusters := []; hasConverged := false; iteration := 0 |}.

Definition kMeans (fuel : nat) (data : list point) (k : Z)
  (maxIterations : Z) (tolerance : num) : rand (list Cluster) :=
  _ <~ lift (validate data k) ;;
  cs <~ initializeCentroidsWithKMeansPlusPlus fuel data k ;;
  st <~ whileLoop (Z.to_nat maxIterations) fuel data maxIterations tolerance
                  (initialState cs) ;;
  ret (clusters st).

(** *** runKMeansWithOptimalInertia *)

(** The [for] loop, [n] runs to go. *)
Fixpoint bestOfRuns (n : nat) (fuel : nat) (data : list point) (k : Z)
  (maxIterations : Z) (tolerance : num)
  (bestClusters : list Cluster) (bestInertia : num) : rand (list Cluster) :=
  match n with
  | O => ret bestClusters
  | S n' =>
      cl <~ kMeans fuel data k maxIterations tolerance ;;
      inertia <~ lift (calculateInertia cl) ;;
      if nltb inertia bestInertia
      then bestOfRuns n' fuel data k maxIterations tolerance cl inertia
      else bestOfRuns n' fuel data k maxIterations tolerance bestClusters bestInertia
  end.

Definition runKMeansWithOptimalInertia (fuel : nat) (data : list point) (k : Z)
  (maxIterations : Z) (tolerance : num) (numRuns : Z) : rand (list Cluster) :=
  bestOfRuns (Z.to_nat numRuns) fuel data k maxIterations tolerance [] ninfinity.

End KMeans.

(** ** Binary64: the arithmetic of the program *)

Module Binary64.

Definition floor_index (x : float) : option nat :=
  match Prim2SF x with
  | S754_zero _ => Some O
  | S754_finite false m e =>
      Some (Z.to_nat (if (0 <=? e)%Z then Z.pos m * 2 ^ e
                      else Z.pos m / 2 ^ (- e)))
  | _ => None
  end.

#[export] Instance number : Number float := {|
  nzero := PrimFloat.zero;
  ninfinity := PrimFloat.infinity;
  nnan := PrimFloat.nan;
  nadd := PrimFloat.add;
  nsub := PrimFloat.sub;
  nmul := PrimFloat.mul;
  ndiv := PrimFloat.div;
  nsqrt := PrimFloat.sqrt;
  nltb := PrimFloat.ltb;
  ngeb := fun x y => PrimFloat.leb y x;
  nisNaN := PrimFloat.is_nan;
  nof_nat := fun n => PrimFloat.of_uint63 (Uint63.of_Z (Z.of_nat n));
  nfloor_index := floor_index
|}.

End Binary64.


(** ** Exact: the same algebra over the reals

    Finite values are real numbers and finite arithmetic is exact; the
    infinities and NaN follow the IEEE rules.  Zero has no sign, so a
    division by zero takes its sign from the numerator alone. *)

Module Exact.

Inductive xreal : Type :=
| Fin (r : R)
| PInf
| NInf
| NaN.

Definition Rltb (x y : R) : bool := if Rlt_dec x y then true else false.
Definition Rleb (x y : R) : bool := if Rle_dec x y then true else false.

Definition neg (x : xreal) : xreal :=
  match x with
  | Fin r => Fin (- r)
  | PInf => NInf
  | NInf => PInf
  | NaN => NaN
  end.

Definition add (x y : xreal) : xreal :=
  match x, y with
  | NaN, _ | _, NaN => NaN
  | Fin a, Fin b => Fin (a + b)
  | PInf, NInf | NInf, PInf => NaN
  | PInf, _ | _, PInf => PInf
  | NInf, _ | _, NInf => NInf
  end.

Definition sub (x y : xreal) : xreal := add x (neg y).

(** An infinity times the finite [r]. *)
Definition scale_inf (inf : xreal) (r : R) : xreal :=
  if Rltb 0 r then inf else if Rltb r 0 then neg inf else NaN.

Definition mul (x y : xreal) : xreal :=
  match x, y with
  | NaN, _ | _, NaN => NaN
  | Fin a, Fin b => Fin (a * b)
  | Fin a, PInf | PInf, Fin a => scale_inf PInf a
  | Fin a, NInf | NInf, Fin a => scale_inf NInf a
  | PInf, PInf | NInf, NInf => PInf
  | PInf, NInf | NInf, PInf => NInf
  end.

Definition div (x y : xreal) : xreal :=
  match x, y with
  | NaN, _ | _, NaN => NaN
  | Fin a, Fin b => if Req_dec_T b 0 then scale_inf PInf a else Fin (a / b)
  | Fin _, _ => Fin 0
  | PInf, Fin b => if Rltb b 0 then NInf else PInf
  | NInf, Fin b => if Rltb b 0 then PInf else NInf
  | _, _ => NaN
  end.

Definition sqrt (x : xreal) : xreal :=
  match x with
  | Fin a => if Rltb a 0 then NaN else Fin (R_sqrt.sqrt a)
  | PInf => PInf
  | _ => NaN
  end.

Definition ltb (x y : xreal) : bool :=
  match x, y with
  | NaN, _ | _, NaN => false
  | Fin a, Fin b => Rltb a b
  | _, NInf => false
  | PInf, _ => false
  | _, PInf => true
  | NInf, _ => true
  end.

Definition leb (x y : xreal) : bool :=
  match x, y with
  | NaN, _ | _, NaN => false
  | Fin a, Fin b => Rleb a b
  | NInf, _ => true
  | _, PInf => true
  | _, _ => false
  end.

Definition is_nan (x : xreal) : bool :=
  match x with
  | NaN => true
  | _ => false
  end.

Definition floor_index (x : xreal) : option nat :=
  match x with
  | Fin r => if Rltb r 0 then None else Some (Z.to_nat (Int_part r))
  | _ => None
  end.

#[export] Instance number : Number xreal := {|
  nzero := Fin 0;
  ninfinity := PInf;
  nnan := NaN;
  nadd := add;
  nsub := sub;
  nmul := mul;
  ndiv := div;
  nsqrt := sqrt;
  nltb := ltb;
  ngeb := fun x y => leb y x;
  nisNaN := is_nan;
  nof_nat := fun n => Fin (INR n);
  nfloor_index := floor_index
|}.

End Exact.

(** ** Concrete inputs *)

Module Samples.

Import Binary64.

(** Random sources that always return the same value. *)
Definition halves : nat -> float := fun _ => 0x1p-1%float.
Definition zeros : nat -> float := fun _ => 0%float.

(** A random source that returns 0 at its second call only. *)
Definition zeroOnce : nat -> float :=
  fun s => if (s =? 1)%nat then 0%float else 0x1p-1%float.

(** The defaults of the optional parameters: [maxIterations = 100],
    [tolerance = 1e-6] (the double nearest to it), [numRuns = 10]. *)
Definition defaultMaxIterations : Z := 100.
Definition defaultTolerance : float := 0x1.0c6f7a0b5ed8dp-20%float.
Definition defaultNumRuns : Z := 10.

Definition tolerance : float := defaultTolerance.

(** Two groups on a line. *)
Definition line : list (list float) := [[1]; [2]; [10]; [11]]%float.

(** Three points on a line. *)
Definition three : list (list float) := [[0]; [1]; [5]]%float.

(** A point without coordinates. *)
Definition noCoordinates : list (list float) := [[]].

(** A point with a NaN coordinate. *)
Definition withNaN : list (list float) := [[PrimFloat.nan]; [1]]%float.

(** Two finite points whose squared distance overflows. *)
Definition farApart : list (list float) := [[0x1p600]; [-0x1p600]]%float.

(** Three times the double nearest to 0.1. *)
Definition tenth : float := 0x1.999999999999ap-4%float.
Definition tenths : list (list float) := [[tenth]; [tenth]; [tenth]].

End Samples.

(** ** Vocabulary of the specification *)

Section Vocabulary.

Context {num : Type} {NUM : Number num}.

Local Abbreviation Cluster := (@Cluster num).
Local Abbreviation LoopState := (@LoopState num).

(** All points of [data] have dimensionality [d]. *)
Definition uniform (d : nat) (data : list (list num)) : Prop :=
  Forall (fun p => length p = d) data.

(** The input conditions of the entry validation. *)
Definition validInput (data : list (list num)) (k : Z) : Prop :=
  data <> [] /\ (1 <= k <= Z.of_nat (length data))%Z /\ exists d, uniform d data.

(** The two errors of the entry validation. *)
Definition validationError (e : error) : Prop :=
  e = InvalidClustersOrEmptyDataset \/ e = DataDimensions.

(** The order facts about [<] and [>=] that the minimum scans rely on.  They
    hold in IEEE arithmetic, NaN included: every comparison with NaN is
    false. *)
Class OrderLaws : Prop := {
  lt_irrefl : forall x : num, nltb x x = false;
  lt_trans : forall x y z : num,
      nltb x y = true -> nltb y z = true -> nltb x z = true;
  le_lt_trans : forall x y z : num,
      ngeb y x = true -> nltb y z = true -> nltb x z = true;
  not_lt_ge : forall x y : num,
      nisNaN x = false -> nisNaN y = false -> nltb x y = false -> ngeb x y = true;
  not_ge_lt : forall x y : num,
      nisNaN x = false -> nisNaN y = false -> ngeb x y = false -> nltb x y = true
}.

(** [ds] are the distances of [p] to the centroids [cs], in order. *)
Definition distancesTo (p : list num) (cs : list (list num)) (ds : list num) : Prop :=
  Forall2 (fun c d => euclideanDistance p c = Ret d) cs ds.

(** Centroid [j] is the first one at minimum distance of [p]: no centroid is
    strictly nearer, and no earlier centroid is as near. *)
Definition isNearest (cs : list (list num)) (p : list num) (j : nat) : Prop :=
  exists ds dj,
    distancesTo p cs ds /\ nth_error ds j = Some dj /\
    (forall i di, nth_error ds i = Some di -> nltb di dj = false) /\
    (forall i di, i < j -> nth_error ds i = Some di -> ngeb dj di = false).

(** No distance of [p] to a centroid of [cs] is NaN. *)
Definition distancesNotNaN (cs : list (list num)) (p : list num) : Prop :=
  forall c d, In c cs -> euclideanDistance p c = Ret d -> nisNaN d = false.

(** The distance of [p] to centroid [j] is at most its distance to any
    centroid, and strictly below its distance to any earlier one. *)
Definition isFirstMinimum (cs : list (list num)) (p : list num) (j : nat) : Prop :=
  exists ds dj,
    distancesTo p cs ds /\ nth_error ds j = Some dj /\
    (forall i di, nth_error ds i = Some di -> ngeb di dj = true) /\
    (forall i di, i < j -> nth_error ds i = Some di -> nltb dj di = true).

(** The points given to centroid [j], in the order of the dataset, when
    [js] lists the centroid index of each point. *)
Definition assignedTo (j : nat) (data : list (list num)) (js : list nat)
  : list (list num) :=
  map fst (filter (fun pj => snd pj =? j) (combine data js)).

(** The clusters of the centroids [cs] from index [a] on. *)
Fixpoint clustersFrom (a : nat) (cs data : list (list num)) (js : list nat)
  : list Cluster :=
  match cs with
  | [] => []
  | c :: cs' => {| centroid := c; points := assignedTo a data js |}
                :: clustersFrom (S a) cs' data js
  end.

(** Every old centroid is at a distance below [tolerance] of the new
    centroid of the same index. *)
Definition withinTolerance (tolerance : num) (cs ns : list (list num)) : Prop :=
  forall i c, nth_error cs i = Some c ->
    exists n d, nth_error ns i = Some n /\
                euclideanDistance c n = Ret d /\ nltb d tolerance = true.

(** Some coordinate of some point is NaN; none is. *)
Definition someNaN (pts : list (list num)) : Prop :=
  Exists (fun p => Exists (fun x => nisNaN x = true) p) pts.

Definition noNaN (pts : list (list num)) : Prop :=
  Forall (fun p => Forall (fun x => nisNaN x = false) p) pts.

(** The sum of the coordinates of index [i], added in the order of the
    points, starting from zero. *)
Definition coordinateSum (pts : list (list num)) (i : nat) : num :=
  fold_left nadd (map (fun p => nth i p nzero) pts) nzero.

(** The coordinate-wise arithmetic mean. *)
Definition meanOf (pts : list (list num)) : list num :=
  map (fun i => ndiv (coordinateSum pts i) (nof_nat (length pts)))
      (seq 0 (length (hd [] pts))).

(** The random source gives array indices: [Math.floor(Math.random() * n)]
    is one of [0 .. n-1] for the size [n] of the dataset. *)
Definition indexDrawsInRange (rnd : nat -> num) (data : list (list num)) : Prop :=
  forall s, exists i,
    nfloor_index (nmul (rnd s) (nof_nat (length data))) = Some i /\
    i < length data.

(** The threshold [Math.random() * totalDistance] of a seeding pass does not
    exceed [totalDistance], whatever centroids were chosen before. *)
Definition thresholdsReached (rnd : nat -> num) (data : list (list num)) : Prop :=
  forall s cs ds,
    cs <> [] -> incl cs data -> sqMinDistances data cs = Ret ds ->
    ngeb (totalDistance ds) (nmul (rnd s) (totalDistance ds)) = true.

(** The loop has stopped: converged, or the iteration count is used up. *)
Definition stopped (maxIterations : Z) (st : LoopState) : Prop :=
  hasConverged st = true \/ (maxIterations <= iteration st)%Z.

(** [iterates .. st s st' s']: from the loop state [st] and random state
    [s], completed passes of the loop body, each started with the loop
    condition true, lead to [st'] and [s']. *)
Inductive iterates (rnd : nat -> num) (fuel : nat) (data : list (list num))
  (maxIterations : Z) (tolerance : num)
  : LoopState -> nat -> LoopState -> nat -> Prop :=
| iterates_done st s : iterates rnd fuel data maxIterations tolerance st s st s
| iterates_step st s st1 s1 st2 s2 :
    loopCond maxIterations st = true ->
    loopBody rnd fuel data tolerance st s = Ret (st1, s1) ->
    iterates rnd fuel data maxIterations tolerance st1 s1 st2 s2 ->
    iterates rnd fuel data maxIterations tolerance st s st2 s2.

(** The Euclidean distance in the words of the specification: the square
    root of the sum, over the coordinates in their order, of the squared
    differences. *)
Definition squaredDifferences (p q : list num) : list num :=
  map (fun xy => nmul (nsub (fst xy) (snd xy)) (nsub (fst xy) (snd xy)))
      (combine p q).

Definition distanceSpec (p q : list num) : num :=
  nsqrt (fold_left nadd (squaredDifferences p q) nzero).

(** Every centroid of [old] has a centroid of the same index in [new], at
    a distance strictly below [tolerance]. *)
Definition movedLessThan (tolerance : num) (old new : list (list num)) : Prop :=
  forall i c, nth_error old i = Some c ->
    exists n, nth_error new i = Some n /\
              nltb (distanceSpec c n) tolerance = true.

(** [passes .. st s sts sf]: the loop body, run from the loop state [st]
    and the random state [s] and then from each state it returns, returns
    the states [sts] one after the other and ends in the random state
    [sf]. *)
Inductive passes (rnd : nat -> num) (fuel : nat) (data : list (list num))
  (tolerance : num) : LoopState -> nat -> list LoopState -> nat -> Prop :=
| passes_none st s : passes rnd fuel data tolerance st s [] s
| passes_one st s st1 s1 sts sf :
    loopBody rnd fuel data tolerance st s = Ret (st1, s1) ->
    passes rnd fuel data tolerance st1 s1 sts sf ->
    passes rnd fuel data tolerance st s (st1 :: sts) sf.

End Vocabulary.

(** ** Vocabulary for exact arithmetic: points with real coordinates *)

Module RealPoints.

Import Exact.

(** A real point, and a list of real points, as program values. *)
Definition embed (p : list R) : list xreal := map Fin p.
Definition embedAll (ps : list (list R)) : list (list xreal) := map embed ps.

Definition rsum (l : list R) : R := fold_right Rplus 0%R l.

(** The squared Euclidean distance. *)
Definition rsq (p c : list R) : R :=
  rsum (map (fun vw => ((fst vw - snd vw) * (fst vw - snd vw))%R) (combine p c)).

(** The sum of the squared distances of the points [ps] to [c]. *)
Definition rcost (c : list R) (ps : list (list R)) : R :=
  rsum (map (fun p => rsq p c) ps).

(** The coordinate-wise mean of real points. *)
Definition rmean (ps : list (list R)) : list R :=
  map (fun i => (rsum (map (fun p => nth i p 0%R) ps) / INR (length ps))%R)
      (seq 0 (length (hd [] ps))).

(** A random source with values in the interval from 0 (included) to 1
    (excluded), as [Math.random] is specified. *)
Definition unitSource (rnd : nat -> xreal) : Prop :=
  forall s, exists r, rnd s = Fin r /\ (0 <= r < 1)%R.

(** The sum, over the points and their centroid indices, of the squared
    distance of each point to its centroid. *)
Definition rinertia (rcs : list (list R)) (pjs : list (list R * nat)) : R :=
  rsum (map (fun pj => rsq (fst pj) (nth (snd pj) rcs [])) pjs).

(** The Euclidean distance of real points. *)
Definition rdistance (p c : list R) : R := R_sqrt.sqrt (rsq p c).

(** Centroid [j] of [rcs] is the first one at minimum distance of [p]: its
    distance is at most that of every centroid, and strictly below that of
    every centroid of lower index. *)
Definition firstNearest (rcs : list (list R)) (p : list R) (j : nat) : Prop :=
  exists cj,
    nth_error rcs j = Some cj /\
    (forall i c, nth_error rcs i = Some c ->
                 (rdistance p cj <= rdistance p c)%R) /\
    (forall i c, i < j -> nth_error rcs i = Some c ->
                 (rdistance p cj < rdistance p c)%R).

End RealPoints.

(** ** Vocabulary of the error and edge behaviour *)

Section Behaviour.

Context {num : Type} {NUM : Number num}.

Local Abbreviation Cluster := (@Cluster num).

(** Every point of [data] has the dimensionality of every centroid of [cs]. *)
Definition dimensionsAgree (data cs : list (list num)) : Prop :=
  forall p c, In p data -> In c cs -> length p = length c.

(** The index of the first NaN coordinate of [p], counted from [i]. *)
Fixpoint firstNaN (p : list num) (i : nat) : option nat :=
  match p with
  | [] => None
  | value :: rest => if nisNaN value then Some i else firstNaN rest (S i)
  end.

(** The centroid and the points of a cluster have dimensionality [d]. *)
Definition clusterOfDimension (d : nat) (cluster : Cluster) : Prop :=
  length (centroid cluster) = d /\ uniform d (points cluster).

(** [completedRuns .. s rs s']: from the random state [s], successive runs
    of [kMeans] returned, one after the other, the clusters listed in [rs],
    each with its inertia, and left the random state [s']. *)
Inductive completedRuns (rnd : nat -> num) (fuel : nat) (data : list (list num))
  (k maxIterations : Z) (tolerance : num)
  : nat -> list (list Cluster * num) -> nat -> Prop :=
| completedRuns_nil s :
    completedRuns rnd fuel data k maxIterations tolerance s [] s
| completedRuns_cons s cl s1 inertia rs s' :
    kMeans rnd fuel data k maxIterations tolerance s = Ret (cl, s1) ->
    calculateInertia cl = Ret inertia ->
    completedRuns rnd fuel data k maxIterations tolerance s1 rs s' ->
    completedRuns rnd fuel data k maxIterations tolerance s
                  ((cl, inertia) :: rs) s'.

(** What the convergence test relies on about [Math.sqrt]: a square root is
    strictly below positive numbers only. *)
Class SqrtLaws : Prop := {
  sqrt_lt_positive : forall x t : num,
      nltb (nsqrt x) t = true -> nltb nzero t = true
}.

(** [x] is finite: [x - x] is a number ([Infinity - Infinity] is NaN). *)
Definition finite (x : num) : Prop := nisNaN (nsub x x) = false.

(** What the distance of a point to itself relies on. *)
Class ZeroLaws : Prop := {
  sub_finite : forall x : num, finite x -> nsub x x = nzero;
  mul_zero : nmul (@nzero num NUM) nzero = nzero;
  add_zero : nadd (@nzero num NUM) nzero = nzero;
  sqrt_zero : nsqrt (@nzero num NUM) = nzero
}.

(** What the sign of a sum of squares relies on: a square is not below
    zero, and neither is the sum of two numbers that are not. *)
Class SumLaws : Prop := {
  square_not_negative : forall x : num, nltb (nmul x x) nzero = false;
  add_not_negative : forall x y : num,
      nltb x nzero = false -> nltb y nzero = false ->
      nltb (nadd x y) nzero = false
}.

(** [cumulativeSum] of a seeding pass after [distances[i]] was added: the
    sum of [distances[0] .. distances[i]], added in this order from zero. *)
Definition cumulativeSum (distances : list num) (i : nat) : num :=
  fold_left nadd (firstn (S i) distances) nzero.

(** Centroid [j] of [cs] is the first one whose computed distance to [p] is
    least: every centroid's computed distance is at least as large, and that
    of every centroid of lower index is strictly larger. *)
Definition firstLeastComputed (cs : list (list num)) (p : list num) (j : nat)
  : Prop :=
  exists cj,
    nth_error cs j = Some cj /\
    (forall i c, nth_error cs i = Some c ->
                 ngeb (distanceSpec p c) (distanceSpec p cj) = true) /\
    (forall i c, i < j -> nth_error cs i = Some c ->
                 nltb (distanceSpec p cj) (distanceSpec p c) = true).

End Behaviour.

(** ** Vocabulary for the seeding in exact arithmetic *)

Module RealSources.

Import Exact.

(** A random source with values strictly between 0 and 1. *)
Definition positiveSource (rnd : nat -> xreal) : Prop :=
  forall s, exists r, rnd s = Fin r /\ (0 < r < 1)%R.

End RealSources.

(** ** kmeans.ts: the entry point that seeds by shuffling

    src/algorithms/kmeans.ts holds a [kMeans] with positional parameters.
    Its validation, its loop, its [assignPointsToCentroidClusters] and its
    [calculateCentroidPosition] are those of index.ts; its seeding,
    [initialiseCentroids], shuffles the indices of the dataset
    (Fisher-Yates) and takes the first [k].  No loop of this file is
    without a bound, so nothing here takes fuel. *)

Module Legacy.

(** The outcome of a function of kmeans.ts: an outcome of the code shared
    with index.ts, or the error of the guard of [initialiseCentroids]. *)
Inductive outcomeL (A : Type) : Type :=
| Shared (o : outcome A)
| ClustersExceedPoints.
    (* "Number of clusters cannot exceed number of data points" *)

Arguments Shared {A} o.
Arguments ClustersExceedPoints {A}.

(** A computation of kmeans.ts that may call [Math.random()]. *)
Definition randL (A : Type) : Type := nat -> outcomeL (A * nat).

Definition retL {A : Type} (a : A) : randL A := fun s => Shared (Ret (a, s)).

Definition bindL {A B : Type} (m : randL A) (k : A -> randL B) : randL B :=
  fun s => match m s with
           | Shared (Ret (a, s')) => k a s'
           | Shared (Throw e) => Shared (Throw e)
           | Shared Diverge => Shared Diverge
           | ClustersExceedPoints => ClustersExceedPoints
           end.

Definition liftL {A : Type} (m : rand A) : randL A := fun s => Shared (m s).

Notation "x <-- m ;; k" := (bindL m (fun x => k))
  (at level 61, m at next level, right associativity).

(** [map] with a callback of kmeans.ts. *)
Fixpoint mapL {A B : Type} (f : A -> randL B) (l : list A) : randL (list B) :=
  match l with
  | [] => retL []
  | a :: l' => b <-- f a ;; bs <-- mapL f l' ;; retL (b :: bs)
  end.

Section Program.

Context {num : Type} {NUM : Number num}.

Local Abbreviation point := (list num).
Local Abbreviation Cluster := (@Cluster num).
Local Abbreviation LoopState := (@LoopState num).

Variable rnd : nat -> num.

(** [indices[i] = v], for an index of the array. *)
Fixpoint setAt (indices : list nat) (i v : nat) : list nat :=
  match indices, i with
  | [], _ => []
  | _ :: rest, O => v :: rest
  | x :: rest, S i' => x :: setAt rest i' v
  end.

(** [[indices[i], indices[j]] = [indices[j], indices[i]]]: the right-hand
    side is read first, then [indices[i]] and [indices[j]] are written in
    this order.  A [j] that is not an index of the array (which
    [Math.floor(Math.random() * (i + 1))] is not, for a random value from 0
    to 1) would leave [undefined] in the array and the source would go on
    with it; the embedding stops there, and the theorems assume draws that
    are indices. *)
Definition swap (indices : list nat) (i : nat) (j : option nat)
  : outcome (list nat) :=
  match j with
  | Some j =>
      match nth_error indices i, nth_error indices j with
      | Some a, Some b => Ret (setAt (setAt indices i b) j a)
      | _, _ => Throw TypeError
      end
  | None => Throw TypeError
  end.

(** [for (let i = indices.length - 1; i > 0; i--)], from [i] on. *)
Fixpoint shuffle (i : nat) (indices : list nat) : rand (list nat) :=
  match i with
  | O => ret indices
  | S i' =>
      r <~ random rnd ;;
      let j := nfloor_index (nmul r (nof_nat (i + 1))) in
      indices' <~ lift (swap indices i j) ;;
      shuffle i' indices'
  end.

(** [indices.slice(0, k)]: a negative [k] counts from the end. *)
Definition slice0 (indices : list nat) (k : Z) : list nat :=
  let n := Z.of_nat (length indices) in
  firstn (Z.to_nat (if (k <? 0)%Z then Z.max (n + k) 0 else Z.min k n))
         indices.

Definition initialiseCentroids (data : list point) (k : Z) : randL (list point) :=
  if (Z.of_nat (length data) <? k)%Z then fun _ => ClustersExceedPoints
  else
    liftL (indices <~ shuffle (length data - 1) (seq 0 (length data)) ;;
           lift (mapM (fun index => dataAt data (Some index))
                      (slice0 indices k))).

(** The new centroid of one cluster. *)
Definition newCentroid (data : list point) (cluster : Cluster) : randL point :=
  match points cluster with
  | [] =>
      cs <-- initialiseCentroids data 1 ;;
      match cs with
      | c :: _ => retL c
      | [] => liftL (lift (Throw TypeError))
      end
  | _ :: _ => liftL (lift (calculateCentroidPosition (points cluster)))
  end.

Definition loopBody (data : list point) (tolerance : num) (st : LoopState)
  : randL LoopState :=
  cl <-- liftL (lift (assignPointsToCentroidClusters data (centroids st))) ;;
  newCentroids <-- mapL (newCentroid data) cl ;;
  conv <-- liftL (lift (allWithin tolerance (centroids st) newCentroids)) ;;
  retL {| centroids := newCentroids;
          clusters := cl;
          hasConverged := conv;
          iteration := (iteration st + 1)%Z |}.

(** [n] bounds the number of passes, as in index.ts. *)
Fixpoint whileLoop (n : nat) (data : list point) (maxIterations : Z)
  (tolerance : num) (st : LoopState) : randL LoopState :=
  match n with
  | O => retL st
  | S n' =>
      if loopCond maxIterations st then
        st' <-- loopBody data tolerance st ;;
        whileLoop n' data maxIterations tolerance st'
      else retL st
  end.

Definition kMeans (data : list point) (k : Z) (maxIterations : Z)
  (tolerance : num) : randL (list Cluster) :=
  _ <-- liftL (lift (validate data k)) ;;
  cs <-- initialiseCentroids data k ;;
  st <-- whileLoop (Z.to_nat maxIterations) data maxIterations tolerance
                   (initialState cs) ;;
  retL (clusters st).

(** The random source gives, for every [i] below [n], an index from 0 to
    [i]: [Math.floor(Math.random() * (i + 1))]. *)
Definition shuffleDrawsInRange (n : nat) : Prop :=
  forall s i, i < n ->
    exists j, nfloor_index (nmul (rnd s) (nof_nat (i + 1))) = Some j /\ j <= i.

End Program.

End Legacy.

(** ** Outcomes and folds *)

Lemma bind_Ret_inv {A B : Type} (m : outcome A) (k : A -> outcome B) (b : B) :
  bind m k = Ret b -> exists a, m = Ret a /\ k a = Ret b.
Proof. destruct m; simpl; intros E; try discriminate; eauto. Qed.

Lemma bind_Throw_inv {A B : Type} (m : outcome A) (k : A -> outcome B) (e : error) :
  bind m k = Throw e -> m = Throw e \/ exists a, m = Ret a /\ k a = Throw e.
Proof. destruct m; simpl; intros E; try discriminate; eauto. left; congruence. Qed.

Lemma bindR_Ret_inv {A B : Type} (m : rand A) (k : A -> rand B) s b s2 :
  bindR m k s = Ret (b, s2) ->
  exists a s1, m s = Ret (a, s1) /\ k a s1 = Ret (b, s2).
Proof.
  unfold bindR. destruct (m s) as [[a s1]| |]; intros E; try discriminate; eauto.
Qed.

Lemma bindR_Throw_inv {A B : Type} (m : rand A) (k : A -> rand B) s e :
  bindR m k s = Throw e ->
  m s = Throw e \/ exists a s1, m s = Ret (a, s1) /\ k a s1 = Throw e.
Proof.
  unfold bindR. destruct (m s) as [[a s1]| |]; intros E; try discriminate; eauto.
  left; congruence.
Qed.

Lemma lift_Ret_inv {A : Type} (m : outcome A) s a s1 :
  lift m s = Ret (a, s1) -> m = Ret a /\ s1 = s.
Proof. unfold lift. destruct m; intros E; inversion E; auto. Qed.

Lemma lift_Throw_inv {A : Type} (m : outcome A) s e :
  lift m s = Throw e -> m = Throw e.
Proof. unfold lift. destruct m; intros E; inversion E; auto. Qed.

Lemma foldM_app {A B : Type} (f : B -> A -> outcome B) l1 l2 b :
  foldM f (l1 ++ l2) b = (b' <- foldM f l1 b ;; foldM f l2 b').
Proof.
  revert b. induction l1 as [|a l1 IH]; intros b; simpl; [reflexivity|].
  destruct (f b a); simpl; auto.
Qed.

(** A fold throws only what its callback throws. *)
Lemma foldM_Throw {A B : Type} (P : error -> Prop) (f : B -> A -> outcome B) :
  (forall b a e, f b a = Throw e -> P e) ->
  forall l b e, foldM f l b = Throw e -> P e.
Proof.
  intros Hf. induction l as [|a l IH]; intros b e; simpl; [discriminate|].
  intros E. apply bind_Throw_inv in E as [E|(b' & _ & E)]; eauto.
Qed.

Lemma mapM_Throw {A B : Type} (P : error -> Prop) (f : A -> outcome B) :
  (forall a e, f a = Throw e -> P e) ->
  forall l e, mapM f l = Throw e -> P e.
Proof.
  intros Hf. induction l as [|a l IH]; intros e; simpl; [discriminate|].
  intros E. apply bind_Throw_inv in E as [E|(b & _ & E)]; eauto.
  apply bind_Throw_inv in E as [E|(bs & _ & E)]; eauto. discriminate.
Qed.

Lemma mapR_Throw {A B : Type} (P : error -> Prop) (f : A -> rand B) :
  (forall a s e, f a s = Throw e -> P e) ->
  forall l s e, mapR f l s = Throw e -> P e.
Proof.
  intros Hf. induction l as [|a l IH]; intros s e; simpl; [discriminate|].
  intros E. apply bindR_Throw_inv in E as [E|(b & s1 & _ & E)]; eauto.
  apply bindR_Throw_inv in E as [E|(bs & s2 & _ & E)]; eauto. discriminate.
Qed.

Lemma mapM_length {A B : Type} (f : A -> outcome B) l bs :
  mapM f l = Ret bs -> length bs = length l.
Proof.
  revert bs. induction l as [|a l IH]; intros bs; simpl.
  - intros E; inversion E; reflexivity.
  - intros E. apply bind_Ret_inv in E as (b & _ & E).
    apply bind_Ret_inv in E as (bs' & E' & E). inversion E; subst.
    simpl. f_equal. auto.
Qed.

Lemma mapR_length {A B : Type} (f : A -> rand B) l s bs s' :
  mapR f l s = Ret (bs, s') -> length bs = length l.
Proof.
  revert s bs. induction l as [|a l IH]; intros s bs; simpl.
  - intros E; inversion E; reflexivity.
  - intros E. apply bindR_Ret_inv in E as (b & s1 & _ & E).
    apply bindR_Ret_inv in E as (bs' & s2 & E' & E). inversion E; subst.
    simpl. f_equal. eauto.
Qed.

(** ** Entry validation *)

Section Validation.

Context {num : Type} {NUM : Number num}.
Variable rnd : nat -> num.

Lemma uniform_forallb (d : nat) (data : list (list num)) :
  forallb (fun p => length p =? d) data = true <-> uniform d data.
Proof.
  unfold uniform. rewrite forallb_forall, Forall_forall.
  split; intros Hd p Hp; specialize (Hd p Hp); apply Nat.eqb_eq; assumption.
Qed.

Lemma uniform_hd (d : nat) (data : list (list num)) :
  data <> [] -> uniform d data -> length (hd [] data) = d.
Proof.
  destruct data as [|p data]; [congruence|]. intros _ Hd. inversion Hd; auto.
Qed.

Lemma validate_valid (data : list (list num)) (k : Z) :
  validInput data k -> validate data k = Ret tt.
Proof.
  intros (Hne & Hk & d & Hd). unfold validate.
  destruct (length data =? 0) eqn:E0.
  { apply Nat.eqb_eq in E0. destruct data; [congruence|discriminate]. }
  destruct (k <=? 0)%Z eqn:E1; [apply Z.leb_le in E1; lia|].
  destruct (Z.of_nat (length data) <? k)%Z eqn:E2; [apply Z.ltb_lt in E2; lia|].
  cbn [orb]. rewrite (uniform_hd Hne Hd).
  apply uniform_forallb in Hd. rewrite Hd. reflexivity.
Qed.

Lemma validate_Ret (data : list (list num)) (k : Z) :
  validate data k = Ret tt -> validInput data k.
Proof.
  unfold validate, validInput.
  destruct (length data =? 0) eqn:E0; [discriminate|].
  destruct (k <=? 0)%Z eqn:E1; [discriminate|].
  destruct (Z.of_nat (length data) <? k)%Z eqn:E2; [discriminate|].
  cbn [orb].
  destruct (forallb _ data) eqn:E3; [|discriminate]. intros _.
  apply Nat.eqb_neq in E0. apply Z.leb_gt in E1. apply Z.ltb_ge in E2.
  repeat split; try lia.
  - intros ->. apply E0. reflexivity.
  - eexists. apply uniform_forallb. exact E3.
Qed.

Lemma validate_cardinality (data : list (list num)) (k : Z) :
  data = [] \/ (k <= 0)%Z \/ (Z.of_nat (length data) < k)%Z ->
  validate data k = Throw InvalidClustersOrEmptyDataset.
Proof.
  intros H. unfold validate.
  replace ((length data =? 0) || (k <=? 0)%Z || (Z.of_nat (length data) <? k)%Z)
    with true; [reflexivity|].
  symmetry. rewrite !orb_true_iff, Nat.eqb_eq, Z.leb_le, Z.ltb_lt.
  destruct H as [->|[H|H]]; auto.
Qed.

Lemma validate_dimensions (data : list (list num)) (k : Z) :
  data <> [] -> (1 <= k <= Z.of_nat (length data))%Z ->
  ~ (exists d, uniform d data) ->
  validate data k = Throw DataDimensions.
Proof.
  intros Hne Hk Hd. unfold validate.
  replace ((length data =? 0) || (k <=? 0)%Z || (Z.of_nat (length data) <? k)%Z)
    with false.
  - destruct (forallb _ data) eqn:E; [|reflexivity].
    exfalso. apply Hd. eexists. apply uniform_forallb. exact E.
  - symmetry. rewrite !orb_false_iff, Nat.eqb_neq, Z.leb_gt, Z.ltb_ge.
    destruct data; [congruence|]. simpl length in *. lia.
Qed.

(** What the code after the validation can throw. *)

Lemma euclideanDistance_Throw (p q : list num) e :
  euclideanDistance p q = Throw e -> e = DistanceDimensions.
Proof.
  unfold euclideanDistance. destruct (negb _); intros E; inversion E; auto.
Qed.

Lemma dataAt_Throw (data : list (list num)) i e :
  dataAt data i = Throw e -> e = TypeError.
Proof.
  unfold dataAt. destruct i as [i|]; [destruct (nth_error data i)|];
    intros E; inversion E; auto.
Qed.

Lemma sqMinDistances_Throw (data cs : list (list num)) e :
  sqMinDistances data cs = Throw e -> e = DistanceDimensions.
Proof.
  unfold sqMinDistances. apply (mapM_Throw (fun e => e = DistanceDimensions)).
  intros p e' E.
  apply bind_Throw_inv in E as [E|(m & _ & E)]; [|discriminate].
  revert E. unfold minDistance.
  apply (foldM_Throw (fun e => e = DistanceDimensions)). intros b c e2 E.
  apply bind_Throw_inv in E as [E|(m & _ & E)]; [|discriminate].
  eapply euclideanDistance_Throw; eauto.
Qed.

Lemma seedLoop_Throw fuel (data : list (list num)) k cs s e :
  seedLoop rnd fuel data k cs s = Throw e -> ~ validationError e.
Proof.
  revert cs s. induction fuel as [|fuel IH]; intros cs s; cbn [seedLoop].
  - destruct (_ <? _)%Z; discriminate.
  - destruct (_ <? _)%Z; [|discriminate]. intros E.
    apply bindR_Throw_inv in E as [E|(ds & s1 & E1 & E)].
    + apply lift_Throw_inv, sqMinDistances_Throw in E. subst.
      intros [?|?]; discriminate.
    + apply bindR_Throw_inv in E as [E|(r & s2 & E2 & E)]; [discriminate|].
      destruct (pickIndex _ _ _ _); [|eauto].
      apply bindR_Throw_inv in E as [E|(p & s3 & E3 & E)]; [|eauto].
      apply lift_Throw_inv, dataAt_Throw in E. subst.
      intros [?|?]; discriminate.
Qed.

Lemma initializeCentroids_Throw fuel (data : list (list num)) k s e :
  initializeCentroidsWithKMeansPlusPlus rnd fuel data k s = Throw e ->
  ~ validationError e.
Proof.
  unfold initializeCentroidsWithKMeansPlusPlus. intros E.
  apply bindR_Throw_inv in E as [E|(r & s1 & _ & E)]; [discriminate|].
  apply bindR_Throw_inv in E as [E|(p & s2 & _ & E)].
  - apply lift_Throw_inv, dataAt_Throw in E. subst. intros [?|?]; discriminate.
  - eapply seedLoop_Throw; eauto.
Qed.

Lemma nearestIndex_Throw (p : list num) cs e :
  nearestIndex p cs = Throw e -> ~ validationError e.
Proof.
  unfold nearestIndex. destruct cs as [|c0 cs].
  - intros E; inversion E. intros [?|?]; discriminate.
  - intros E. apply bind_Throw_inv in E as [E|(d & _ & E)].
    + apply euclideanDistance_Throw in E. subst. intros [?|?]; discriminate.
    + apply bind_Throw_inv in E as [E|(st & _ & E)]; [|discriminate].
      revert E. apply (foldM_Throw (fun e => ~ validationError e)). intros b a e' E.
      apply bind_Throw_inv in E as [E|(d' & _ & E)]; [|discriminate].
      apply euclideanDistance_Throw in E. subst. intros [?|?]; discriminate.
Qed.

Lemma assign_Throw (data cs : list (list num)) e :
  assignPointsToCentroidClusters data cs = Throw e -> ~ validationError e.
Proof.
  unfold assignPointsToCentroidClusters.
  apply (foldM_Throw (fun e => ~ validationError e)). intros b p e' E.
  apply bind_Throw_inv in E as [E|(j & _ & E)]; [|discriminate].
  eapply nearestIndex_Throw; eauto.
Qed.

Lemma addCoordinates_Throw (p : list num) mean i e :
  addCoordinates mean p i = Throw e -> exists j, e = InvalidCoordinate j.
Proof.
  revert mean i. induction p as [|v p IH]; intros mean i; simpl; [discriminate|].
  destruct (nisNaN v).
  - intros E; inversion E; eauto.
  - intros E. apply bind_Throw_inv in E as [E|(t & _ & E)]; [eauto|discriminate].
Qed.

Lemma calculateCentroidPosition_Throw (pts : list (list num)) e :
  calculateCentroidPosition pts = Throw e -> ~ validationError e.
Proof.
  unfold calculateCentroidPosition. destruct pts as [|p0 pts].
  - intros E; inversion E. intros [?|?]; discriminate.
  - destruct (length p0 <? 1).
    + intros E; inversion E. intros [?|?]; discriminate.
    + intros E. apply bind_Throw_inv in E as [E|(m & _ & E)]; [|discriminate].
      revert E. apply (foldM_Throw (fun e => ~ validationError e)). intros b p e' E.
      destruct (negb _).
      * inversion E. intros [?|?]; discriminate.
      * apply addCoordinates_Throw in E as (j & ->). intros [?|?]; discriminate.
Qed.

Lemma newCentroid_Throw fuel (data : list (list num)) cl s e :
  newCentroid rnd fuel data cl s = Throw e -> ~ validationError e.
Proof.
  unfold newCentroid. destruct (points cl).
  - intros E. apply bindR_Throw_inv in E as [E|(cs & s1 & _ & E)].
    + eapply initializeCentroids_Throw; eauto.
    + destruct cs; [|discriminate].
      apply lift_Throw_inv in E. inversion E. intros [?|?]; discriminate.
  - intros E. apply lift_Throw_inv in E.
    eapply calculateCentroidPosition_Throw; eauto.
Qed.

Lemma allWithin_Throw (tol : num) cs ns e :
  allWithin tol cs ns = Throw e -> ~ validationError e.
Proof.
  revert ns. induction cs as [|c cs IH]; intros ns; simpl; [discriminate|].
  destruct ns as [|n ns].
  - intros E; inversion E. intros [?|?]; discriminate.
  - intros E. apply bind_Throw_inv in E as [E|(d & _ & E)].
    + apply euclideanDistance_Throw in E. subst. intros [?|?]; discriminate.
    + destruct (nltb d tol); [eauto|discriminate].
Qed.

Lemma loopBody_Throw fuel (data : list (list num)) tol st s e :
  loopBody rnd fuel data tol st s = Throw e -> ~ validationError e.
Proof.
  unfold loopBody. intros E.
  apply bindR_Throw_inv in E as [E|(cl & s1 & _ & E)].
  { apply lift_Throw_inv in E. eapply assign_Throw; eauto. }
  apply bindR_Throw_inv in E as [E|(ns & s2 & _ & E)].
  { revert E. apply (mapR_Throw (fun e => ~ validationError e)).
    intros a s0 e0. apply newCentroid_Throw. }
  apply bindR_Throw_inv in E as [E|(conv & s3 & _ & E)]; [|discriminate].
  apply lift_Throw_inv in E. eapply allWithin_Throw; eauto.
Qed.

Lemma whileLoop_Throw n fuel (data : list (list num)) maxIterations tol st s e :
  whileLoop rnd n fuel data maxIterations tol st s = Throw e ->
  ~ validationError e.
Proof.
  revert st s. induction n as [|n IH]; intros st s; simpl; [discriminate|].
  destruct (loopCond maxIterations st); [|discriminate]. intros E.
  apply bindR_Throw_inv in E as [E|(st' & s1 & _ & E)]; [|eauto].
  eapply loopBody_Throw; eauto.
Qed.

Lemma kMeans_after_validation fuel (data : list (list num)) k maxIterations tol s :
  validate data k = Ret tt ->
  kMeans rnd fuel data k maxIterations tol s =
  (cs <~ initializeCentroidsWithKMeansPlusPlus rnd fuel data k ;;
   st <~ whileLoop rnd (Z.to_nat maxIterations) fuel data maxIterations tol
                   (initialState cs) ;;
   ret (clusters st)) s.
Proof. intros E. unfold kMeans, bindR at 1, lift. rewrite E. reflexivity. Qed.

Lemma kMeans_validation_Throw fuel (data : list (list num)) k maxIterations tol s e :
  validate data k = Throw e ->
  kMeans rnd fuel data k maxIterations tol s = Throw e.
Proof. intros E. unfold kMeans, bindR at 1, lift. rewrite E. reflexivity. Qed.

(** C6.  [kMeans] validates before anything else: an empty dataset, [k <= 0]
    or [k > |data|] throws "Invalid number of clusters or empty dataset.",
    points of different dimensionality throw "All data points must have the
    same dimensions."; the error is the whole outcome for every random
    source, state and fuel, so nothing was seeded or iterated.  On valid
    input the validation passes and neither error is thrown later. *)
Theorem kMeans_validates_first
  (data : list (list num)) (k : Z) (maxIterations : Z) (tol : num) :
  (data = [] \/ (k <= 0)%Z \/ (Z.of_nat (length data) < k)%Z ->
   forall fuel s,
     kMeans rnd fuel data k maxIterations tol s =
     Throw InvalidClustersOrEmptyDataset) /\
  (data <> [] -> (1 <= k <= Z.of_nat (length data))%Z ->
   ~ (exists d, uniform d data) ->
   forall fuel s,
     kMeans rnd fuel data k maxIterations tol s = Throw DataDimensions) /\
  (validInput data k ->
   validate data k = Ret tt /\
   forall fuel s e,
     kMeans rnd fuel data k maxIterations tol s = Throw e ->
     ~ validationError e).
Proof.
  split; [|split].
  - intros H fuel s. apply kMeans_validation_Throw, validate_cardinality, H.
  - intros Hne Hk Hd fuel s.
    apply kMeans_validation_Throw, validate_dimensions; assumption.
  - intros Hv. pose proof (validate_valid Hv) as Ev. split; [exact Ev|].
    intros fuel s e E. rewrite kMeans_after_validation in E by exact Ev.
    apply bindR_Throw_inv in E as [E|(cs & s1 & _ & E)].
    { eapply initializeCentroids_Throw; eauto. }
    apply bindR_Throw_inv in E as [E|(st & s2 & _ & E)]; [|discriminate].
    eapply whileLoop_Throw; eauto.
Qed.

End Validation.

(** ** Assignment *)

Section Assignment.

Context {num : Type} {NUM : Number num}.

Local Abbreviation point := (list num).
Local Abbreviation Cluster := (@Cluster num).

Lemma euclideanDistance_Ret (p q : point) :
  length p = length q ->
  euclideanDistance p q = Ret (nsqrt (sqDiffSum p q)).
Proof.
  intros E. unfold euclideanDistance.
  apply Nat.eqb_eq in E. rewrite E. reflexivity.
Qed.

Lemma euclideanDistance_Ret_inv (p q : point) d :
  euclideanDistance p q = Ret d ->
  length p = length q /\ d = nsqrt (sqDiffSum p q).
Proof.
  unfold euclideanDistance. destruct (length p =? length q) eqn:E; simpl.
  - intros H; inversion H. apply Nat.eqb_eq in E. auto.
  - discriminate.
Qed.

Lemma distancesTo_uniform (d : nat) (p : point) (cs : list point) :
  length p = d -> uniform d cs ->
  distancesTo p cs (map (fun c => nsqrt (sqDiffSum p c)) cs).
Proof.
  intros Hp Hcs. unfold distancesTo.
  induction Hcs as [|c cs Hc _ IH]; simpl; constructor; auto.
  apply euclideanDistance_Ret. congruence.
Qed.

Lemma distancesTo_fun (p : point) (cs : list point) ds ds' :
  distancesTo p cs ds -> distancesTo p cs ds' -> ds = ds'.
Proof.
  unfold distancesTo. intros H. revert ds'.
  induction H as [|c d cs ds E _ IH]; intros ds' H'; inversion H'; subst; auto.
  f_equal; [congruence|auto].
Qed.

(** The scan keeps the index of the first minimum. *)
Lemma scan_invariant (OL : OrderLaws) (p : point) :
  forall (cs : list point) (ds pre : list num) (j : nat) (m : num),
    distancesTo p cs ds ->
    nth_error (pre ++ ds) j = Some m ->
    (forall i di, nth_error pre i = Some di -> nltb di m = false) ->
    (forall i di, i < j -> nth_error (pre ++ ds) i = Some di -> ngeb m di = false) ->
    exists j' m',
      foldM (scanStep p) (combine (seq (length pre) (length cs)) cs) (j, m)
      = Ret (j', m') /\
      nth_error (pre ++ ds) j' = Some m' /\
      (forall i di, nth_error (pre ++ ds) i = Some di -> nltb di m' = false) /\
      (forall i di, i < j' -> nth_error (pre ++ ds) i = Some di ->
                    ngeb m' di = false).
Proof.
  intros cs ds pre j m H. revert pre j m.
  induction H as [|c d cs ds E _ IH]; intros pre j m Hj H1 H2.
  - simpl. exists j, m. rewrite app_nil_r in *. auto.
  - cbn [length seq combine foldM]. unfold scanStep at 1. cbn [fst snd].
    rewrite E. cbn [bind].
    assert (Hd : nth_error (pre ++ d :: ds) (length pre) = Some d).
    { rewrite nth_error_app2 by lia. rewrite Nat.sub_diag. reflexivity. }
    replace (pre ++ d :: ds) with ((pre ++ [d]) ++ ds) in *
      by (rewrite <- app_assoc; reflexivity).
    replace (S (length pre)) with (length (pre ++ [d]))
      by (rewrite length_app; simpl; lia).
    destruct (nltb d m) eqn:Edm.
    + apply IH; auto.
      * intros i di Hi.
        destruct (Nat.lt_ge_cases i (length pre)) as [Hlt|Hge].
        -- rewrite nth_error_app1 in Hi by assumption.
           destruct (nltb di d) eqn:Ed; [|reflexivity].
           pose proof (lt_trans _ _ _ Ed Edm) as Hc.
           rewrite (H1 i di Hi) in Hc. discriminate.
        -- rewrite nth_error_app2 in Hi by assumption.
           destruct (i - length pre) as [|[|?]]; simpl in Hi; try discriminate.
           inversion Hi; subst. apply lt_irrefl.
      * intros i di Hi Hn.
        rewrite nth_error_app1 in Hn by (rewrite length_app; simpl; lia).
        rewrite nth_error_app1 in Hn by assumption.
        destruct (ngeb d di) eqn:Ed; [|reflexivity].
        pose proof (le_lt_trans _ _ _ Ed Edm) as Hc.
        rewrite (H1 i di Hn) in Hc. discriminate.
    + apply IH; auto.
      intros i di Hi.
      destruct (Nat.lt_ge_cases i (length pre)) as [Hlt|Hge].
      * rewrite nth_error_app1 in Hi by assumption. eauto.
      * rewrite nth_error_app2 in Hi by assumption.
        destruct (i - length pre) as [|[|?]]; simpl in Hi; try discriminate.
        inversion Hi; subst. assumption.
Qed.

Lemma nearestIndex_isNearest (OL : OrderLaws) (p : point) (cs : list point) ds :
  cs <> [] -> distancesTo p cs ds ->
  exists j, nearestIndex p cs = Ret j /\ isNearest cs p j.
Proof.
  intros Hne Hds. destruct Hds as [|c0 d0 cs ds E0 Hds]; [congruence|].
  pose proof (Forall2_cons _ _ E0 Hds) as Hall.
  destruct (@scan_invariant OL p (c0 :: cs) (d0 :: ds) [] 0 d0 Hall)
    as (j & m & Ef & Hj & H1 & H2).
  - reflexivity.
  - intros [|i] di Hi; discriminate.
  - intros i di Hi. lia.
  - exists j. split.
    + unfold nearestIndex. rewrite E0. cbn [bind]. unfold indexed.
      simpl length in Ef. simpl length. rewrite Ef. reflexivity.
    + exists (d0 :: ds), m. simpl app in *. auto.
Qed.

Lemma scan_index_range (p : point) :
  forall (cs : list point) (a j : nat) (m : num) j' m',
    foldM (scanStep p) (combine (seq a (length cs)) cs) (j, m) = Ret (j', m') ->
    j' = j \/ a <= j' < a + length cs.
Proof.
  induction cs as [|c cs IH]; intros a j m j' m'.
  - simpl. intros E; inversion E; auto.
  - cbn [length seq combine foldM]. intros E.
    apply bind_Ret_inv in E as ([j1 m1] & E1 & E).
    apply IH in E. unfold scanStep in E1. cbn [fst snd] in E1.
    apply bind_Ret_inv in E1 as (d & _ & E1).
    destruct (nltb d m); inversion E1; subst; lia.
Qed.

Lemma nearestIndex_range (p : point) (cs : list point) j :
  nearestIndex p cs = Ret j -> j < length cs.
Proof.
  unfold nearestIndex. destruct cs as [|c0 cs]; [discriminate|].
  intros E. apply bind_Ret_inv in E as (d0 & _ & E).
  apply bind_Ret_inv in E as ([j1 m1] & E1 & E). inversion E; subst.
  apply scan_index_range in E1. simpl in *. lia.
Qed.

(** Pushing a point. *)

Lemma pushPoint_length (cl : list Cluster) j p :
  length (pushPoint cl j p) = length cl.
Proof.
  revert j. induction cl as [|c cl IH]; intros [|j]; simpl; auto.
Qed.

Lemma pushPoint_centroids (cl : list Cluster) j p :
  map centroid (pushPoint cl j p) = map centroid cl.
Proof.
  revert j. induction cl as [|c cl IH]; intros [|j]; simpl; auto.
  f_equal. apply IH.
Qed.

Lemma pushPoint_points (cl : list Cluster) j p :
  j < length cl ->
  Permutation (concat (map points (pushPoint cl j p)))
              (concat (map points cl) ++ [p]).
Proof.
  revert j. induction cl as [|c cl IH]; intros [|j] Hj; simpl in *; try lia.
  - rewrite <- !app_assoc. apply Permutation_app_head, Permutation_app_comm.
  - rewrite <- app_assoc. apply Permutation_app_head, IH. lia.
Qed.

Lemma combine_snoc {A B : Type} (l : list A) (l' : list B) a b :
  length l = length l' ->
  combine (l ++ [a]) (l' ++ [b]) = combine l l' ++ [(a, b)].
Proof.
  revert l'. induction l as [|x l IH]; intros [|y l']; simpl;
    intros E; try discriminate; auto.
  f_equal. apply IH. lia.
Qed.

Lemma assignedTo_snoc (j : nat) (data : list point) js p j' :
  length data = length js ->
  assignedTo j (data ++ [p]) (js ++ [j']) =
  assignedTo j data js ++ (if j' =? j then [p] else []).
Proof.
  intros E. unfold assignedTo. rewrite combine_snoc by assumption.
  rewrite filter_app, map_app. cbn [filter snd]. destruct (j' =? j); reflexivity.
Qed.

Lemma clustersFrom_snoc_outside (cs : list point) a (data : list point) js p j' :
  length data = length js ->
  j' < a \/ a + length cs <= j' ->
  clustersFrom a cs (data ++ [p]) (js ++ [j']) = clustersFrom a cs data js.
Proof.
  intros E. revert a. induction cs as [|c cs IH]; intros a Hj; simpl; auto.
  rewrite assignedTo_snoc by assumption.
  replace (j' =? a) with false by (symmetry; apply Nat.eqb_neq; simpl in Hj; lia).
  rewrite app_nil_r. f_equal. apply IH. simpl in Hj. lia.
Qed.

Lemma pushPoint_clustersFrom (cs : list point) a (data : list point) js j p :
  length data = length js ->
  pushPoint (clustersFrom a cs data js) j p =
  clustersFrom a cs (data ++ [p]) (js ++ [a + j]).
Proof.
  intros E. revert a j. induction cs as [|c cs IH]; intros a j.
  - destruct j; reflexivity.
  - destruct j as [|j]; cbn [clustersFrom pushPoint centroid points].
    + rewrite assignedTo_snoc by assumption.
      replace (a + 0 =? a) with true by (symmetry; apply Nat.eqb_eq; lia).
      rewrite clustersFrom_snoc_outside by (try assumption; lia). reflexivity.
    + rewrite assignedTo_snoc by assumption.
      replace (a + S j =? a) with false by (symmetry; apply Nat.eqb_neq; lia).
      rewrite app_nil_r. rewrite IH.
      replace (S a + j) with (a + S j) by lia. reflexivity.
Qed.

Lemma clustersFrom_empty (cs : list point) a :
  clustersFrom a cs [] [] = emptyClusters cs.
Proof. revert a. induction cs as [|c cs IH]; intros a; simpl; f_equal; auto. Qed.

Lemma clustersFrom_nth (cs : list point) a (data : list point) js j c :
  nth_error cs j = Some c ->
  nth_error (clustersFrom a cs data js) j =
  Some {| centroid := c; points := assignedTo (a + j) data js |}.
Proof.
  revert a j. induction cs as [|c' cs IH]; intros a [|j]; simpl; try discriminate.
  - intros E; inversion E. rewrite Nat.add_0_r. reflexivity.
  - intros E. rewrite (IH (S a) j E). do 3 f_equal. lia.
Qed.

Lemma clustersFrom_length (cs : list point) a (data : list point) js :
  length (clustersFrom a cs data js) = length cs.
Proof. revert a. induction cs as [|c cs IH]; intros a; simpl; auto. Qed.

Lemma assign_fold (cs : list point) :
  forall (data2 data1 : list point) js1 js2,
    length data1 = length js1 ->
    Forall2 (fun p j => nearestIndex p cs = Ret j) data2 js2 ->
    foldM (fun clusters p =>
             j <- nearestIndex p cs ;; Ret (pushPoint clusters j p))
          data2 (clustersFrom 0 cs data1 js1)
    = Ret (clustersFrom 0 cs (data1 ++ data2) (js1 ++ js2)).
Proof.
  induction data2 as [|p data2 IH]; intros data1 js1 js2 E H; inversion H; subst.
  - simpl. rewrite !app_nil_r. reflexivity.
  - cbn [foldM]. rewrite H2. cbn [bind].
    rewrite pushPoint_clustersFrom by assumption. simpl plus.
    rewrite IH with (js2 := l') by (rewrite ?length_app; simpl; auto).
    rewrite <- !app_assoc. reflexivity.
Qed.

(** Whatever the assignment returns holds one cluster per centroid, with
    these centroids, and its points are the dataset. *)
Lemma assign_fold_partition (cs : list point) :
  forall (data : list point) (cl0 cl : list Cluster),
    length cl0 = length cs ->
    foldM (fun clusters p =>
             j <- nearestIndex p cs ;; Ret (pushPoint clusters j p))
          data cl0 = Ret cl ->
    length cl = length cs /\ map centroid cl = map centroid cl0 /\
    Permutation (concat (map points cl)) (concat (map points cl0) ++ data).
Proof.
  induction data as [|p data IH]; intros cl0 cl E0; cbn [foldM].
  - intros E; inversion E; subst. rewrite app_nil_r. auto.
  - intros E. apply bind_Ret_inv in E as (cl1 & E1 & E).
    apply bind_Ret_inv in E1 as (j & Ej & E1). inversion E1; subst.
    apply nearestIndex_range in Ej.
    apply IH in E; [|rewrite pushPoint_length; assumption].
    destruct E as (Hl & Hc & Hp). rewrite pushPoint_centroids in Hc.
    repeat split; auto.
    rewrite Hp. rewrite pushPoint_points by lia.
    rewrite <- app_assoc. reflexivity.
Qed.

Lemma assign_clustersFrom (OL : OrderLaws) (d : nat) (data cs : list point) :
  cs <> [] -> uniform d data -> uniform d cs ->
  exists js,
    Forall2 (fun p j => nearestIndex p cs = Ret j /\ isNearest cs p j) data js /\
    assignPointsToCentroidClusters data cs = Ret (clustersFrom 0 cs data js).
Proof.
  intros Hne Hdata Hcs.
  assert (Hjs : exists js,
             Forall2 (fun p j => nearestIndex p cs = Ret j /\ isNearest cs p j)
                     data js).
  { induction Hdata as [|p data Hp _ IH].
    - exists []. constructor.
    - destruct IH as (js & IH).
      destruct (nearestIndex_isNearest OL Hne (distancesTo_uniform p Hp Hcs))
        as (j & Ej & Hj).
      exists (j :: js). constructor; auto. }
  destruct Hjs as (js & Hjs). exists js. split; [exact Hjs|].
  unfold assignPointsToCentroidClusters.
  rewrite <- clustersFrom_empty with (a := 0).
  apply (@assign_fold cs data [] [] js); [reflexivity|].
  eapply Forall2_impl; [|exact Hjs]. intros p j [E _]. exact E.
Qed.

Lemma isNearest_isFirstMinimum (OL : OrderLaws) (cs : list point) (p : point) j :
  isNearest cs p j -> distancesNotNaN cs p -> isFirstMinimum cs p j.
Proof.
  intros (ds & dj & Hds & Hj & H1 & H2) Hnan.
  assert (Hall : forall i di, nth_error ds i = Some di -> nisNaN di = false).
  { intros i di Hi. unfold distancesTo in Hds.
    clear - Hds Hi Hnan. revert i Hi Hnan.
    induction Hds as [|c x cs ds E _ IH]; intros [|i] Hi Hnan;
      simpl in Hi; try discriminate.
    - inversion Hi; subst. eapply Hnan; [left; reflexivity|exact E].
    - eapply IH; eauto. intros c' d' Hc. apply Hnan. right. exact Hc. }
  exists ds, dj. repeat split; auto.
  - intros i di Hi. apply not_lt_ge; eauto.
  - intros i di Hlt Hi. apply not_ge_lt; eauto.
Qed.

Lemma emptyClusters_points (cs : list point) :
  concat (map points (emptyClusters cs)) = [].
Proof. induction cs; simpl; auto. Qed.

Lemma emptyClusters_centroids (cs : list point) :
  map centroid (emptyClusters cs) = cs.
Proof. induction cs; simpl; f_equal; auto. Qed.

Lemma assign_partition (data cs : list point) (cl : list Cluster) :
  assignPointsToCentroidClusters data cs = Ret cl ->
  length cl = length cs /\ map centroid cl = cs /\
  Permutation (concat (map points cl)) data.
Proof.
  unfold assignPointsToCentroidClusters. intros E.
  apply assign_fold_partition in E.
  - rewrite emptyClusters_centroids, emptyClusters_points in E. exact E.
  - unfold emptyClusters. apply length_map.
Qed.

End Assignment.

(** ** The convergence loop *)

Section Loop.

Context {num : Type} {NUM : Number num}.
Variable rnd : nat -> num.

Local Abbreviation point := (list num).
Local Abbreviation Cluster := (@Cluster num).
Local Abbreviation LoopState := (@LoopState num).

Lemma loopCond_stopped (maxIterations : Z) (st : LoopState) :
  loopCond maxIterations st = false <-> stopped maxIterations st.
Proof.
  unfold loopCond, stopped.
  rewrite andb_false_iff, negb_false_iff, Z.ltb_ge. reflexivity.
Qed.

Lemma loopCond_not_stopped (maxIterations : Z) (st : LoopState) :
  loopCond maxIterations st = true <-> ~ stopped maxIterations st.
Proof.
  rewrite <- loopCond_stopped. destruct (loopCond maxIterations st); split;
    congruence.
Qed.

Lemma allWithin_spec (tol : num) (cs ns : list point) b :
  allWithin tol cs ns = Ret b -> (b = true <-> withinTolerance tol cs ns).
Proof.
  revert ns b. induction cs as [|c cs IH]; intros ns b; cbn [allWithin].
  - intros E; inversion E. split; [|reflexivity].
    intros _ [|i] c' Hc; discriminate.
  - destruct ns as [|n ns]; [discriminate|]. intros E.
    apply bind_Ret_inv in E as (d & Ed & E).
    destruct (nltb d tol) eqn:Elt.
    + apply IH in E. rewrite E. split.
      * intros H [|i] c' Hc; simpl in Hc.
        -- inversion Hc; subst. exists n, d. auto.
        -- apply (H i c' Hc).
      * intros H i c' Hc. apply (H (S i) c' Hc).
    + inversion E; subst. split; [discriminate|].
      intros H. destruct (H 0 c eq_refl) as (n' & d' & Hn & Hd & Hlt).
      simpl in Hn. inversion Hn; subst. congruence.
Qed.

Lemma loopBody_Ret_inv fuel (data : list point) (tol : num)
  (st : LoopState) s st' s' :
  loopBody rnd fuel data tol st s = Ret (st', s') ->
  exists cl ns conv,
    assignPointsToCentroidClusters data (centroids st) = Ret cl /\
    mapR (newCentroid rnd fuel data) cl s = Ret (ns, s') /\
    allWithin tol (centroids st) ns = Ret conv /\
    st' = {| centroids := ns; clusters := cl; hasConverged := conv;
             iteration := (iteration st + 1)%Z |}.
Proof.
  unfold loopBody. intros E.
  apply bindR_Ret_inv in E as (cl & s1 & E1 & E).
  apply lift_Ret_inv in E1 as [E1 ->].
  apply bindR_Ret_inv in E as (ns & s2 & E2 & E).
  apply bindR_Ret_inv in E as (conv & s3 & E3 & E).
  apply lift_Ret_inv in E3 as [E3 ->].
  inversion E; subst. exists cl, ns, conv. auto.
Qed.

Lemma loopBody_spec fuel (data : list point) (tol : num)
  (st : LoopState) s st' s' :
  loopBody rnd fuel data tol st s = Ret (st', s') ->
  assignPointsToCentroidClusters data (centroids st) = Ret (clusters st') /\
  map centroid (clusters st') = centroids st /\
  iteration st' = (iteration st + 1)%Z /\
  (hasConverged st' = true <->
   withinTolerance tol (centroids st) (centroids st')).
Proof.
  intros E. apply loopBody_Ret_inv in E as (cl & ns & conv & E1 & E2 & E3 & ->).
  cbn [clusters centroids iteration hasConverged].
  repeat split; auto.
  - apply assign_partition in E1. tauto.
  - apply allWithin_spec in E3. tauto.
  - apply allWithin_spec in E3. tauto.
Qed.

Lemma whileLoop_iterates n fuel (data : list point) maxIterations tol :
  forall (st : LoopState) s stf sf,
    (maxIterations - iteration st <= Z.of_nat n)%Z ->
    whileLoop rnd n fuel data maxIterations tol st s = Ret (stf, sf) ->
    iterates rnd fuel data maxIterations tol st s stf sf /\
    loopCond maxIterations stf = false.
Proof.
  induction n as [|n IH]; intros st s stf sf Hn; cbn [whileLoop].
  - intros E; inversion E; subst. split; [constructor|].
    unfold loopCond. replace (iteration stf <? maxIterations)%Z with false
      by (symmetry; apply Z.ltb_ge; lia).
    apply andb_false_r.
  - destruct (loopCond maxIterations st) eqn:Ec.
    + intros E. apply bindR_Ret_inv in E as (st1 & s1 & E1 & E).
      pose proof (loopBody_spec _ _ _ _ _ E1) as (_ & _ & Hit & _).
      apply IH in E; [|lia]. destruct E as [Hi Hc]. split; [|exact Hc].
      econstructor; eauto.
    + intros E; inversion E; subst. split; [constructor|exact Ec].
Qed.

Lemma iterates_whileLoop fuel (data : list point) maxIterations tol
  (st : LoopState) s stf sf :
  iterates rnd fuel data maxIterations tol st s stf sf ->
  loopCond maxIterations stf = false ->
  forall n, (maxIterations - iteration st <= Z.of_nat n)%Z ->
    whileLoop rnd n fuel data maxIterations tol st s = Ret (stf, sf).
Proof.
  induction 1 as [st s|st s st1 s1 st2 s2 Hc Hb _ IH]; intros Hf n Hn.
  - destruct n; cbn [whileLoop]; [reflexivity|]. rewrite Hf. reflexivity.
  - assert (Hlt : (iteration st < maxIterations)%Z).
    { unfold loopCond in Hc. apply andb_true_iff in Hc as [_ Hc].
      apply Z.ltb_lt. exact Hc. }
    destruct n as [|n]; [lia|]. cbn [whileLoop]. rewrite Hc.
    unfold bindR. rewrite Hb.
    pose proof (loopBody_spec _ _ _ _ _ Hb) as (_ & _ & Hit & _).
    apply IH; [exact Hf|lia].
Qed.

Lemma iterates_last fuel (data : list point) maxIterations tol
  (st : LoopState) s stf sf :
  iterates rnd fuel data maxIterations tol st s stf sf ->
  (stf = st /\ sf = s) \/
  exists stp sp,
    loopCond maxIterations stp = true /\
    loopBody rnd fuel data tol stp sp = Ret (stf, sf).
Proof.
  induction 1 as [st s|st s st1 s1 st2 s2 Hc Hb _ IH]; [left; auto|].
  right. destruct IH as [[-> ->]|IH]; eauto.
Qed.

(** What [kMeans] returns: nothing ran, or the clusters of the last pass. *)
Lemma kMeans_Ret_inv fuel (data : list point) k maxIterations tol s cl sf :
  kMeans rnd fuel data k maxIterations tol s = Ret (cl, sf) ->
  validInput data k /\
  exists cs s0 stf,
    initializeCentroidsWithKMeansPlusPlus rnd fuel data k s = Ret (cs, s0) /\
    whileLoop rnd (Z.to_nat maxIterations) fuel data maxIterations tol
              (initialState cs) s0 = Ret (stf, sf) /\
    cl = clusters stf.
Proof.
  intros E. unfold kMeans in E.
  apply bindR_Ret_inv in E as ([] & s1 & Ev & E).
  apply lift_Ret_inv in Ev as [Ev ->]. split; [apply validate_Ret; exact Ev|].
  apply bindR_Ret_inv in E as (cs & s0 & Es & E).
  apply bindR_Ret_inv in E as (stf & s2 & Ew & E).
  unfold ret in E. inversion E; subst. exists cs, s0, stf. auto.
Qed.

Lemma kMeans_last_pass fuel (data : list point) k maxIterations tol s cl sf :
  kMeans rnd fuel data k maxIterations tol s = Ret (cl, sf) ->
  ((maxIterations <= 0)%Z /\ cl = []) \/
  exists stp sp stf,
    loopCond maxIterations stp = true /\
    loopBody rnd fuel data tol stp sp = Ret (stf, sf) /\
    stopped maxIterations stf /\
    cl = clusters stf.
Proof.
  intros E. apply kMeans_Ret_inv in E as (_ & cs & s0 & stf & _ & Ew & ->).
  apply whileLoop_iterates in Ew; [|simpl; lia]. destruct Ew as [Hi Hc].
  apply iterates_last in Hi as [[-> ->]|(stp & sp & Hp & Hb)].
  - left. split; [|reflexivity].
    unfold loopCond in Hc. simpl in Hc. apply Z.ltb_ge in Hc. exact Hc.
  - right. exists stp, sp, stf. apply loopCond_stopped in Hc. auto.
Qed.

Lemma sqDiffSum_squaredDifferences (p q : point) :
  sqDiffSum p q = fold_left nadd (squaredDifferences p q) nzero.
Proof.
  unfold sqDiffSum, squaredDifferences.
  generalize (@nzero num NUM) as acc. generalize (combine p q) as l.
  induction l as [|xy l IH]; intros acc; [reflexivity|].
  cbn [fold_left map]. apply IH.
Qed.

Lemma euclideanDistance_distanceSpec (p q : point) (d : num) :
  euclideanDistance p q = Ret d <-> length p = length q /\ d = distanceSpec p q.
Proof.
  unfold euclideanDistance, distanceSpec.
  rewrite <- sqDiffSum_squaredDifferences.
  destruct (Nat.eqb_spec (length p) (length q)) as [E|E]; cbn [negb].
  - split; [intros H; inversion H; auto|intros [_ ->]; reflexivity].
  - split; [discriminate|intros [H _]; contradiction].
Qed.

Lemma allWithin_movedLessThan (tol : num) (cs ns : list point) b :
  allWithin tol cs ns = Ret b -> (b = true <-> movedLessThan tol cs ns).
Proof.
  revert ns b. induction cs as [|c cs IH]; intros ns b; cbn [allWithin].
  - intros E; inversion E. split; [|reflexivity].
    intros _ [|i] c' Hc; discriminate.
  - destruct ns as [|n ns]; [discriminate|]. intros E.
    apply bind_Ret_inv in E as (d & Ed & E).
    apply euclideanDistance_distanceSpec in Ed as [_ ->].
    destruct (nltb (distanceSpec c n) tol) eqn:Elt.
    + apply IH in E. rewrite E. split.
      * intros H [|i] c' Hc; simpl in Hc.
        -- inversion Hc; subst. exists n. auto.
        -- apply (H i c' Hc).
      * intros H i c' Hc. apply (H (S i) c' Hc).
    + inversion E; subst. split; [discriminate|].
      intros H. destruct (H 0 c eq_refl) as (n' & Hn & Hlt).
      simpl in Hn. inversion Hn; subst. congruence.
Qed.

Lemma last_cons {A : Type} (l : list A) (x a : A) :
  last (x :: l) a = last l x.
Proof.
  revert x a. induction l as [|y l IH]; intros x a; [reflexivity|].
  change (last (y :: l) a = last (y :: l) x). rewrite !IH. reflexivity.
Qed.

(** The states the loop goes through: each pass starts with the loop
    condition true and adds one to the counter, and the state after the
    last pass is the one the loop ends in. *)
Lemma iterates_passes fuel (data : list point) maxIterations tol
  (st : LoopState) s stf sf :
  iterates rnd fuel data maxIterations tol st s stf sf ->
  exists sts,
    passes rnd fuel data tol st s sts sf /\
    last sts st = stf /\
    forall i old new,
      nth_error (st :: sts) i = Some old -> nth_error sts i = Some new ->
      loopCond maxIterations old = true /\
      iteration new = (iteration st + Z.of_nat i + 1)%Z /\
      exists s1 s2, loopBody rnd fuel data tol old s1 = Ret (new, s2).
Proof.
  induction 1 as [st s|st s st1 s1 st2 s2 Hc Hb _ IH].
  - exists []. split; [constructor|]. split; [reflexivity|].
    intros [|i] old new _ H; discriminate.
  - destruct IH as (sts & Hp & Hl & Hn). exists (st1 :: sts).
    split; [econstructor; eauto|]. split.
    + rewrite last_cons. exact Hl.
    + pose proof (loopBody_spec _ _ _ _ _ Hb) as (_ & _ & Hit & _).
      intros [|i] old new Ho Hnew; simpl in Ho, Hnew.
      * inversion Ho; inversion Hnew; subst. split; [exact Hc|].
        split; [lia|eauto].
      * destruct (Hn i old new Ho Hnew) as (H1 & H2 & H3).
        split; [exact H1|]. split; [lia|exact H3].
Qed.

Lemma last_nth_error {A : Type} (l : list A) (a x : A) :
  nth_error l (length l - 1) = Some x -> last l a = x.
Proof.
  revert a. induction l as [|y l IH]; intros a; [discriminate|].
  destruct l as [|z l]; simpl; [intros E; inversion E; reflexivity|].
  intros E. apply IH. simpl. rewrite Nat.sub_0_r. exact E.
Qed.

(** C3.  What a run of [kMeans] that returns has done.  From the centroids
    [seeds] of the seeding it has made the passes of the loop body that
    lead through the states [sts]; it makes none exactly when
    [maxIterations <= 0].  Pass number [i + 1] starts from the centroids of
    the state before it, assigns the points to these centroids, and is the
    last pass exactly when every one of these centroids is at a distance
    strictly below [tolerance] of the new centroid of its index, or the
    counter, which is then [i + 1], has reached [maxIterations].  What is
    returned are the clusters of the last state: those the last pass built
    by the assignment to the centroids it started from, which are their
    [centroid] fields; the centroids it computed are not used for them. *)
Theorem kMeans_loop_stops_and_returns
  (fuel : nat) (data : list point) (k maxIterations : Z) (tol : num)
  (s : nat) (cl : list Cluster) (sf : nat) :
  kMeans rnd fuel data k maxIterations tol s = Ret (cl, sf) ->
  exists seeds s0 sts,
    initializeCentroidsWithKMeansPlusPlus rnd fuel data k s = Ret (seeds, s0) /\
    passes rnd fuel data tol (initialState seeds) s0 sts sf /\
    (sts = [] <-> (maxIterations <= 0)%Z) /\
    cl = clusters (last sts (initialState seeds)) /\
    forall i old new,
      nth_error (initialState seeds :: sts) i = Some old ->
      nth_error sts i = Some new ->
      assignPointsToCentroidClusters data (centroids old) = Ret (clusters new) /\
      map centroid (clusters new) = centroids old /\
      iteration new = (Z.of_nat i + 1)%Z /\
      (hasConverged new = true <->
       movedLessThan tol (centroids old) (centroids new)) /\
      (S i = length sts <->
       movedLessThan tol (centroids old) (centroids new) \/
       (maxIterations <= Z.of_nat i + 1)%Z).
Proof.
  intros E. apply kMeans_Ret_inv in E as (_ & seeds & s0 & stf & Es & Ew & ->).
  apply whileLoop_iterates in Ew; [|simpl; lia]. destruct Ew as [Hi Hc].
  apply iterates_passes in Hi as (sts & Hp & Hl & Hn).
  exists seeds, s0, sts. split; [exact Es|]. split; [exact Hp|].
  split; [|split; [congruence|]].
  - split.
    + intros ->. simpl in Hl. subst stf. unfold loopCond in Hc. simpl in Hc.
      apply Z.ltb_ge in Hc. exact Hc.
    + intros Hm. destruct sts as [|st1 sts]; [reflexivity|].
      destruct (Hn 0 (initialState seeds) st1 eq_refl eq_refl) as (H & _).
      unfold loopCond in H. simpl in H. apply Z.ltb_lt in H. lia.
  - intros i old new Ho Hnew.
    destruct (Hn i old new Ho Hnew) as (Hco & Hit & s1 & s2 & Eb).
    simpl in Hit.
    pose proof (loopBody_Ret_inv _ _ _ _ _ Eb)
      as (cl1 & ns & conv & Ea & _ & Ew & Hst).
    pose proof (loopBody_spec _ _ _ _ _ Eb) as (Ha & Hm & _ & _).
    assert (Hconv : hasConverged new = true <->
                    movedLessThan tol (centroids old) (centroids new)).
    { subst new. cbn [hasConverged centroids].
      apply allWithin_movedLessThan. exact Ew. }
    split; [exact Ha|]. split; [exact Hm|]. split; [lia|].
    split; [exact Hconv|].
    assert (Hstop : loopCond maxIterations new = false <->
                    movedLessThan tol (centroids old) (centroids new) \/
                    (maxIterations <= Z.of_nat i + 1)%Z).
    { rewrite loopCond_stopped. unfold stopped. rewrite Hconv, Hit. tauto. }
    rewrite <- Hstop. split.
    + intros Hlen. rewrite <- Hc. f_equal. subst stf. symmetry.
      apply last_nth_error. rewrite <- Hlen. simpl. rewrite Nat.sub_0_r.
      exact Hnew.
    + intros Hf.
      assert (Hlt : i < length sts) by (apply nth_error_Some; congruence).
      destruct (Nat.eq_dec (S i) (length sts)) as [|Hne]; [assumption|].
      destruct (nth_error sts (S i)) as [next|] eqn:En.
      * destruct (Hn (S i) new next Hnew En) as (H & _). congruence.
      * apply nth_error_None in En. lia.
Qed.

(** C2.  On valid input with at least one iteration allowed, the points of
    the clusters [kMeans] returns are, taken together, the dataset as a
    multiset: each input point is in exactly one returned cluster. *)
Theorem kMeans_partition
  (fuel : nat) (data : list point) (k maxIterations : Z) (tol : num)
  (s : nat) (cl : list Cluster) (sf : nat) :
  validInput data k -> (1 <= maxIterations)%Z ->
  kMeans rnd fuel data k maxIterations tol s = Ret (cl, sf) ->
  Permutation (concat (map points cl)) data.
Proof.
  intros _ Hm E.
  apply kMeans_last_pass in E as [[E _]|(stp & sp & stf & _ & Hb & _ & ->)];
    [lia|].
  apply loopBody_spec in Hb as (Ha & _). apply assign_partition in Ha. tauto.
Qed.

End Loop.

(** ** The centroid mean *)

Section Mean.

Context {num : Type} {NUM : Number num}.

Local Abbreviation point := (list num).

Lemma addCoordinates_ok (p mean : point) (i : nat) :
  length mean = length p -> Forall (fun x => nisNaN x = false) p ->
  addCoordinates mean p i =
  Ret (map (fun mv => nadd (fst mv) (snd mv)) (combine mean p)).
Proof.
  revert mean i. induction p as [|v p IH]; intros [|m mean] i E H;
    simpl in E; try discriminate; [reflexivity|].
  inversion H as [|? ? Hv Hp]; subst. cbn [addCoordinates tl combine map fst snd].
  rewrite Hv, IH by (auto; lia). reflexivity.
Qed.

Lemma addCoordinates_nan (p mean : point) (i : nat) :
  Exists (fun x => nisNaN x = true) p ->
  exists j, addCoordinates mean p i = Throw (InvalidCoordinate j).
Proof.
  intros H. revert mean i. induction H as [v p Hv|v p _ IH]; intros mean i;
    cbn [addCoordinates].
  - rewrite Hv. eauto.
  - destruct (nisNaN v); [eauto|].
    destruct (IH (tl mean) (S i)) as (j & ->). cbn [bind]. eauto.
Qed.

Lemma addCoordinates_length (p mean : point) (i : nat) r :
  length mean = length p -> addCoordinates mean p i = Ret r ->
  length r = length p.
Proof.
  revert mean i r. induction p as [|v p IH]; intros [|m mean] i r E;
    simpl in E; try discriminate; cbn [addCoordinates tl].
  - intros H; inversion H; reflexivity.
  - destruct (nisNaN v); [discriminate|]. intros H.
    apply bind_Ret_inv in H as (t & Ht & H). inversion H; subst.
    simpl. f_equal. eapply IH; [|exact Ht]. lia.
Qed.

Lemma nth_zip_add (mean p : point) (i : nat) :
  length mean = length p ->
  nth i (map (fun mv => nadd (fst mv) (snd mv)) (combine mean p)) nzero =
  if i <? length p then nadd (nth i mean nzero) (nth i p nzero) else nzero.
Proof.
  revert p i. induction mean as [|m mean IH]; intros [|v p] i E;
    simpl in E; try discriminate.
  - destruct i; reflexivity.
  - destruct i as [|i]; [reflexivity|]. cbn [combine map nth length].
    rewrite IH by lia. reflexivity.
Qed.

Lemma map_nth_seq (mean : point) :
  map (fun i => nth i mean nzero) (seq 0 (length mean)) = mean.
Proof.
  induction mean as [|m mean IH]; [reflexivity|].
  cbn [length seq map nth]. f_equal.
  rewrite <- seq_shift, map_map. exact IH.
Qed.

(** The sums after the points [pts], starting from the sums [mean]. *)
Lemma sum_fold_ok (d : nat) :
  forall (pts : list point) (mean : point),
    uniform d pts -> noNaN pts -> length mean = d ->
    foldM (fun mean p =>
             if negb (length p =? d)
             then Throw (PointDimension d (length p))
             else addCoordinates mean p 0)
          pts mean
    = Ret (map (fun i => fold_left nadd (map (fun p => nth i p nzero) pts)
                                   (nth i mean nzero))
               (seq 0 d)).
Proof.
  induction pts as [|p pts IH]; intros mean Hu Hn Hm.
  - simpl. subst d. rewrite map_nth_seq. reflexivity.
  - apply Forall_cons_iff in Hu as [Hp Hu'].
    apply Forall_cons_iff in Hn as [Hnp Hn'].
    cbn [foldM]. rewrite Hp, Nat.eqb_refl. cbn [negb].
    rewrite addCoordinates_ok by (auto; congruence). cbn [bind].
    rewrite IH; auto.
    + f_equal. apply map_ext_in. intros i Hi. apply in_seq in Hi.
      cbn [map fold_left]. rewrite nth_zip_add by congruence.
      replace (i <? length p) with true by (symmetry; apply Nat.ltb_lt; lia).
      reflexivity.
    + rewrite length_map, length_combine. lia.
Qed.

Lemma sum_fold_nan (d : nat) :
  forall (pts : list point) (mean : point),
    uniform d pts -> someNaN pts -> length mean = d ->
    exists j,
      foldM (fun mean p =>
               if negb (length p =? d)
               then Throw (PointDimension d (length p))
               else addCoordinates mean p 0)
            pts mean
      = Throw (InvalidCoordinate j).
Proof.
  induction pts as [|p pts IH]; intros mean Hu Hn Hm; [inversion Hn|].
  apply Forall_cons_iff in Hu as [Hp Hu']. cbn [foldM].
  rewrite Hp, Nat.eqb_refl. cbn [negb].
  destruct (addCoordinates mean p 0) as [mean'| |] eqn:E.
  - cbn [bind]. apply IH; auto.
    + apply Exists_cons in Hn as [Hx|Hn]; [|assumption].
      destruct (addCoordinates_nan mean 0 Hx) as (j & Ej). congruence.
    + rewrite <- Hp. eapply addCoordinates_length; [|exact E]. congruence.
  - apply addCoordinates_Throw in E as (j & ->). cbn [bind]. eauto.
  - exfalso. clear - E. revert mean E. generalize 0.
    induction p as [|v p IH]; intros i mean; cbn [addCoordinates];
      [discriminate|].
    destruct (nisNaN v); [discriminate|].
    destruct (addCoordinates (tl mean) p (S i)) eqn:E'; try discriminate.
    intros _. eapply IH; eauto.
Qed.

Lemma noNaN_or_someNaN (pts : list point) : noNaN pts \/ someNaN pts.
Proof.
  unfold noNaN, someNaN. induction pts as [|p pts [IH|IH]]; auto.
  assert (Hp : Forall (fun x => nisNaN x = false) p \/
               Exists (fun x => nisNaN x = true) p).
  { clear. induction p as [|x p [IH|IH]]; auto.
    destruct (nisNaN x) eqn:E; auto. }
  destruct Hp; auto.
Qed.

Lemma noNaN_not_someNaN (pts : list point) : noNaN pts -> ~ someNaN pts.
Proof.
  unfold noNaN, someNaN. rewrite Forall_forall, Exists_exists.
  intros H (p & Hp & Hx). specialize (H p Hp).
  rewrite Forall_forall in H. apply Exists_exists in Hx as (x & Hx & E).
  rewrite (H x Hx) in E. discriminate.
Qed.

Lemma calculateCentroidPosition_ok (d : nat) (pts : list point) :
  pts <> [] -> 1 <= d -> uniform d pts -> noNaN pts ->
  calculateCentroidPosition pts = Ret (meanOf pts).
Proof.
  intros Hne Hd Hu Hn. unfold calculateCentroidPosition, meanOf.
  destruct pts as [|p0 pts]; [congruence|].
  assert (Hp0 : length p0 = d) by (inversion Hu; assumption).
  cbn [hd]. rewrite Hp0.
  replace (d <? 1) with false by (symmetry; apply Nat.ltb_ge; lia).
  rewrite sum_fold_ok by (auto; apply repeat_length).
  cbn [bind]. rewrite map_map. f_equal. apply map_ext_in.
  intros i Hi. apply in_seq in Hi. unfold coordinateSum.
  rewrite nth_repeat_lt by lia. reflexivity.
Qed.

Lemma calculateCentroidPosition_throws_on_nan (d : nat) (pts : list point) :
  pts <> [] -> 1 <= d -> uniform d pts -> someNaN pts ->
  exists i, calculateCentroidPosition pts = Throw (InvalidCoordinate i).
Proof.
  intros Hne Hd Hu Hn. unfold calculateCentroidPosition.
  destruct pts as [|p0 pts]; [congruence|].
  assert (Hp0 : length p0 = d) by (inversion Hu; assumption).
  rewrite Hp0.
  replace (d <? 1) with false by (symmetry; apply Nat.ltb_ge; lia).
  destruct (@sum_fold_nan d (p0 :: pts) (repeat nzero d) Hu Hn
              (repeat_length _ _)) as (j & ->).
  cbn [bind]. eauto.
Qed.

Lemma meanOf_length (pts : list point) :
  length (meanOf pts) = length (hd [] pts).
Proof. unfold meanOf. rewrite length_map, length_seq. reflexivity. Qed.

(** C7 (as amended).  For a non-empty sequence of points of one
    dimensionality, at least 1: the centroid computation throws "Invalid
    coordinate value" exactly when some coordinate is NaN, and returns the
    coordinate-wise mean exactly when none is.  Infinite coordinates are
    not rejected. *)
Theorem calculateCentroidPosition_nan_only (d : nat) (pts : list point) :
  pts <> [] -> 1 <= d -> uniform d pts ->
  ((exists i, calculateCentroidPosition pts = Throw (InvalidCoordinate i))
   <-> someNaN pts) /\
  (calculateCentroidPosition pts = Ret (meanOf pts) <-> noNaN pts).
Proof.
  intros Hne Hd Hu. split; split.
  - intros (i & E). destruct (noNaN_or_someNaN pts) as [Hn|Hn]; [|exact Hn].
    rewrite (calculateCentroidPosition_ok Hne Hd Hu Hn) in E. discriminate.
  - apply calculateCentroidPosition_throws_on_nan with (d := d); assumption.
  - intros E. destruct (noNaN_or_someNaN pts) as [Hn|Hn]; [exact Hn|].
    destruct (calculateCentroidPosition_throws_on_nan Hne Hd Hu Hn) as (i & E').
    congruence.
  - apply calculateCentroidPosition_ok with (d := d); assumption.
Qed.

End Mean.

(** ** Seeding *)

Lemma foldM_total {A B : Type} (f : B -> A -> outcome B) (l : list A) :
  (forall b a, In a l -> exists b', f b a = Ret b') ->
  forall b, exists r, foldM f l b = Ret r.
Proof.
  induction l as [|a l IH]; intros Hf b; simpl; [eauto|].
  destruct (Hf b a (or_introl eq_refl)) as (b' & ->). simpl.
  apply IH. intros b0 a0 Ha. apply Hf. right. exact Ha.
Qed.

Lemma mapM_total {A B : Type} (f : A -> outcome B) (l : list A) :
  (forall a, In a l -> exists b, f a = Ret b) ->
  exists bs, mapM f l = Ret bs.
Proof.
  induction l as [|a l IH]; intros Hf; simpl; [eauto|].
  destruct (Hf a (or_introl eq_refl)) as (b & ->). simpl.
  destruct IH as (bs & ->); [intros a0 Ha; apply Hf; right; exact Ha|].
  simpl. eauto.
Qed.

Lemma mapR_total {A B : Type} (Q : B -> Prop) (f : A -> rand B) (l : list A) :
  (forall a s, In a l -> exists b s', f a s = Ret (b, s') /\ Q b) ->
  forall s, exists bs s', mapR f l s = Ret (bs, s') /\ Forall Q bs.
Proof.
  induction l as [|a l IH]; intros Hf s; simpl.
  - exists [], s. split; [reflexivity|constructor].
  - destruct (Hf a s (or_introl eq_refl)) as (b & s1 & E & Hb).
    destruct (IH (fun a0 s0 Ha => Hf a0 s0 (or_intror Ha)) s1)
      as (bs & s2 & E2 & Hbs).
    exists (b :: bs), s2. unfold bindR. rewrite E, E2. split; [reflexivity|].
    constructor; assumption.
Qed.

Section Seeding.

Context {num : Type} {NUM : Number num}.
Variable rnd : nat -> num.

Local Abbreviation point := (list num).
Local Abbreviation Cluster := (@Cluster num).
Local Abbreviation LoopState := (@LoopState num).

Lemma pickIndex_range (ds : list num) : forall i cum rv j,
  pickIndex ds i cum rv = Some j -> i <= j < i + length ds.
Proof.
  induction ds as [|d ds IH]; intros i cum rv j; cbn [pickIndex length];
    [discriminate|].
  destruct (ngeb (nadd cum d) rv).
  - intros E; inversion E; lia.
  - intros E. apply IH in E. lia.
Qed.

(** The cumulative sum ends at the total, so a threshold that the total
    reaches is reached at some index. *)
Lemma pickIndex_reached (ds : list num) : forall i cum rv,
  ds <> [] -> ngeb (fold_left nadd ds cum) rv = true ->
  exists j, pickIndex ds i cum rv = Some j.
Proof.
  induction ds as [|d ds IH]; intros i cum rv Hne H; [congruence|].
  cbn [pickIndex]. cbn [fold_left] in H.
  destruct (ngeb (nadd cum d) rv) eqn:E; [eauto|].
  destruct ds as [|d' ds]; [simpl in H; congruence|].
  apply IH; [discriminate|exact H].
Qed.

Lemma pickIndex_None (ds : list num) : forall i cum rv,
  (forall x, ngeb x rv = false) -> pickIndex ds i cum rv = None.
Proof.
  induction ds as [|d ds IH]; intros i cum rv H; cbn [pickIndex]; auto.
  rewrite H. auto.
Qed.

Lemma uniform_incl (d : nat) (cs data : list point) :
  uniform d data -> incl cs data -> uniform d cs.
Proof.
  unfold uniform. rewrite !Forall_forall. intros H Hi c Hc. apply H, Hi, Hc.
Qed.

Lemma minDistance_Ret (d : nat) (p : point) (cs : list point) :
  length p = d -> uniform d cs -> exists m, minDistance p cs = Ret m.
Proof.
  intros Hp Hcs. unfold minDistance. apply foldM_total. intros b c Hc.
  unfold uniform in Hcs. rewrite Forall_forall in Hcs.
  rewrite euclideanDistance_Ret by (rewrite (Hcs c Hc); exact Hp).
  simpl. eauto.
Qed.

(** The minimum is the initial value or one of the distances, and one of
    the distances as soon as there is a centroid and every distance is below
    the initial value. *)
Lemma minDistance_candidates (p : point) (cands : list num) :
  forall (cs : list point) (acc acc' : num),
    (forall c d, In c cs -> euclideanDistance p c = Ret d -> In d cands) ->
    foldM (fun minD c =>
             distance <- euclideanDistance p c ;;
             Ret (if nltb distance minD then distance else minD))
          cs acc = Ret acc' ->
    In acc' (acc :: cands) /\
    (cs <> [] -> (forall d, In d cands -> nltb d acc = true) -> In acc' cands).
Proof.
  induction cs as [|c cs IH]; intros acc acc' Hc; cbn [foldM].
  - intros E; inversion E; subst. split; [left; reflexivity|congruence].
  - intros E. apply bind_Ret_inv in E as (acc1 & E1 & E).
    apply bind_Ret_inv in E1 as (d & Ed & E1). inversion E1; subst acc1.
    assert (Hd : In d cands) by (eapply Hc; [left; reflexivity|exact Ed]).
    apply IH in E; [|intros c' d' Hc'; apply Hc; right; exact Hc'].
    destruct E as [H1 _]. split.
    + destruct (nltb d acc); destruct H1 as [<-|H1]; simpl; auto.
    + intros _ Hlt. rewrite (Hlt d Hd) in H1.
      destruct H1 as [<-|H1]; assumption.
Qed.

Lemma sqMinDistances_Ret (d : nat) (data cs : list point) :
  uniform d data -> uniform d cs ->
  exists ds, sqMinDistances data cs = Ret ds /\ length ds = length data.
Proof.
  intros Hdata Hcs.
  destruct (@mapM_total _ _
              (fun p => m <- minDistance p cs ;; Ret (nmul m m)) data)
    as (ds & E).
  - intros p Hp. unfold uniform in Hdata. rewrite Forall_forall in Hdata.
    destruct (minDistance_Ret p (Hdata p Hp) Hcs) as (m & ->). simpl. eauto.
  - exists ds. split; [exact E|]. eapply mapM_length; exact E.
Qed.

Lemma dataAt_Ret (data : list point) (i : nat) :
  i < length data -> exists p, dataAt data (Some i) = Ret p /\ In p data.
Proof.
  intros Hi. unfold dataAt. destruct (nth_error data i) as [p|] eqn:E.
  - exists p. split; [reflexivity|]. eapply nth_error_In; exact E.
  - apply nth_error_None in E. lia.
Qed.

Section Returns.

Variable d : nat.
Variable data : list point.
Hypothesis data_nonempty : data <> [].
Hypothesis data_uniform : uniform d data.
Hypothesis index_ok : indexDrawsInRange rnd data.

Lemma seedLoop_one (fuel : nat) (p : point) s :
  seedLoop rnd fuel data 1 [p] s = Ret ([p], s).
Proof. destruct fuel; reflexivity. Qed.

Lemma firstCentroid_Ret s :
  exists p,
    (r <~ random rnd ;;
     lift (dataAt data (nfloor_index (nmul r (nof_nat (length data)))))) s
    = Ret (p, S s) /\ In p data.
Proof.
  destruct (index_ok s) as (i & Ei & Hi).
  destruct (dataAt_Ret data Hi) as (p & Ep & Hp).
  exists p. split; [|exact Hp].
  unfold bindR, random, lift. rewrite Ei, Ep. reflexivity.
Qed.

(** Re-seeding an empty cluster: one data point, one random value. *)
Lemma reseed_Ret (fuel : nat) s :
  exists p,
    initializeCentroidsWithKMeansPlusPlus rnd fuel data 1 s = Ret ([p], S s) /\
    In p data.
Proof.
  destruct (index_ok s) as (i & Ei & Hi).
  destruct (dataAt_Ret data Hi) as (p & Ep & Hp).
  exists p. split; [|exact Hp].
  unfold initializeCentroidsWithKMeansPlusPlus, bindR, random, lift.
  rewrite Ei, Ep. apply seedLoop_one.
Qed.

Hypothesis thresholds_ok : thresholdsReached rnd data.

Lemma seedLoop_returns (k : Z) : forall fuel (cs : list point) s,
  cs <> [] -> incl cs data ->
  (Z.of_nat (length cs) <= k)%Z ->
  (k - Z.of_nat (length cs) <= Z.of_nat fuel)%Z ->
  exists cs' s',
    seedLoop rnd fuel data k cs s = Ret (cs', s') /\
    Z.of_nat (length cs') = k /\ incl cs' data.
Proof.
  induction fuel as [|fuel IH]; intros cs s Hne Hin Hle Hfuel;
    cbn [seedLoop]; destruct (Z.of_nat (length cs) <? k)%Z eqn:Elt.
  - apply Z.ltb_lt in Elt. lia.
  - apply Z.ltb_ge in Elt. exists cs, s. repeat split; auto. lia.
  - apply Z.ltb_lt in Elt.
    destruct (sqMinDistances_Ret data_uniform (uniform_incl data_uniform Hin))
      as (ds & Eds & Hlen).
    assert (Hds : ds <> []).
    { destruct ds; [|discriminate]. destruct data; [congruence|discriminate]. }
    pose proof (thresholds_ok s Hne Hin Eds) as Hth.
    destruct (@pickIndex_reached ds 0 nzero _ Hds Hth) as (j & Ej).
    pose proof (pickIndex_range _ _ _ _ Ej) as Hj.
    destruct (@dataAt_Ret data j ltac:(lia)) as (p & Ep & Hp).
    destruct (IH (cs ++ [p]) (S s)) as (cs' & s' & E & Hk & Hi').
    + destruct cs; discriminate.
    + apply incl_app; [exact Hin|]. intros x [<-|[]]. exact Hp.
    + rewrite length_app. simpl. lia.
    + rewrite length_app. simpl. lia.
    + exists cs', s'. split; [|auto].
      unfold bindR at 1. unfold lift at 1. rewrite Eds.
      unfold bindR at 1. unfold random at 1.
      rewrite Ej. unfold bindR at 1. unfold lift at 1. rewrite Ep. exact E.
  - apply Z.ltb_ge in Elt. exists cs, s. repeat split; auto. lia.
Qed.

Lemma initializeCentroids_returns (k : Z) (fuel : nat) s :
  (1 <= k)%Z -> (k <= Z.of_nat fuel + 1)%Z ->
  exists cs s',
    initializeCentroidsWithKMeansPlusPlus rnd fuel data k s = Ret (cs, s') /\
    Z.of_nat (length cs) = k /\ incl cs data.
Proof.
  intros Hk Hfuel.
  destruct (index_ok s) as (i & Ei & Hi).
  destruct (dataAt_Ret data Hi) as (p & Ep & Hp).
  destruct (@seedLoop_returns k fuel [p] (S s)) as (cs & s' & E & Hlen & Hin).
  - discriminate.
  - intros x [<-|[]]. exact Hp.
  - simpl. lia.
  - simpl length. lia.
  - exists cs, s'. split; [|auto].
    unfold initializeCentroidsWithKMeansPlusPlus, bindR, random, lift.
    rewrite Ei, Ep. exact E.
Qed.

End Returns.

(** The seeding when every pass selects.  For a non-empty dataset of one
    dimensionality and [1 <= k <= |data|], with a random source that gives
    array indices and thresholds within the total weight, the seeding ends
    after at most [k - 1] passes of its loop and returns exactly [k]
    centroids, all of them points of the dataset; every pass selects a
    point. *)
Theorem seeding_returns_k_centroids
  (d : nat) (data : list point) (k : Z) (fuel : nat) (s : nat) :
  data <> [] -> uniform d data ->
  (1 <= k <= Z.of_nat (length data))%Z ->
  indexDrawsInRange rnd data -> thresholdsReached rnd data ->
  (k <= Z.of_nat fuel + 1)%Z ->
  (exists cs s',
      initializeCentroidsWithKMeansPlusPlus rnd fuel data k s = Ret (cs, s') /\
      Z.of_nat (length cs) = k /\ incl cs data) /\
  (forall cs ds s0,
      cs <> [] -> incl cs data -> sqMinDistances data cs = Ret ds ->
      exists i p,
        pickIndex ds 0 nzero (nmul (rnd s0) (totalDistance ds)) = Some i /\
        nth_error data i = Some p).
Proof.
  intros Hne Hu Hk Hidx Hth Hfuel. split.
  - apply initializeCentroids_returns with (d := d); auto; lia.
  - intros cs ds s0 Hcs Hin Eds.
    assert (Hds : ds <> []).
    { pose proof (mapM_length _ _ Eds) as Hl.
      destruct ds; [|discriminate]. destruct data; [congruence|discriminate]. }
    destruct (@pickIndex_reached ds 0 nzero _ Hds (Hth s0 cs ds Hcs Hin Eds))
      as (i & Ei).
    pose proof (pickIndex_range _ _ _ _ Ei) as Hi.
    pose proof (mapM_length _ _ Eds) as Hl.
    destruct (nth_error data i) as [p|] eqn:Ep; [eauto|].
    apply nth_error_None in Ep. lia.
Qed.

End Seeding.

(** ** A whole run *)

Section Run.

Context {num : Type} {NUM : Number num}.
Variable rnd : nat -> num.

Local Abbreviation point := (list num).
Local Abbreviation Cluster := (@Cluster num).
Local Abbreviation LoopState := (@LoopState num).

Lemma nearestIndex_returns (d : nat) (p : point) (cs : list point) :
  cs <> [] -> length p = d -> uniform d cs ->
  exists j, nearestIndex p cs = Ret j.
Proof.
  intros Hne Hp Hcs. unfold nearestIndex.
  destruct cs as [|c0 cs']; [congruence|].
  remember (c0 :: cs') as cs eqn:Ecs.
  assert (E0 : length p = length c0).
  { rewrite Ecs in Hcs. apply Forall_cons_iff in Hcs as [Hc0 _]. congruence. }
  rewrite (euclideanDistance_Ret _ _ E0). cbn [bind].
  destruct (@foldM_total _ _ (scanStep p) (indexed cs)) with
    (b := (0, nsqrt (sqDiffSum p c0))) as (st & ->).
  - intros b [i c] Hic. unfold scanStep. cbn [fst snd].
    unfold indexed in Hic. apply in_combine_r in Hic.
    unfold uniform in Hcs. rewrite Forall_forall in Hcs.
    rewrite euclideanDistance_Ret by (rewrite (Hcs c Hic); exact Hp).
    simpl. eauto.
  - simpl. eauto.
Qed.

Lemma assign_returns (d : nat) (data cs : list point) :
  cs <> [] -> uniform d data -> uniform d cs ->
  exists cl, assignPointsToCentroidClusters data cs = Ret cl.
Proof.
  intros Hne Hdata Hcs. unfold assignPointsToCentroidClusters.
  apply foldM_total. intros cl p Hp.
  unfold uniform in Hdata. rewrite Forall_forall in Hdata.
  destruct (@nearestIndex_returns d p cs Hne (Hdata p Hp) Hcs) as (j & ->).
  simpl. eauto.
Qed.

Lemma allWithin_returns (d : nat) (tol : num) :
  forall cs ns : list point,
    uniform d cs -> uniform d ns -> length cs = length ns ->
    exists b, allWithin tol cs ns = Ret b.
Proof.
  induction cs as [|c cs IH]; intros [|n ns] Hcs Hns Hl;
    simpl in Hl; try discriminate; cbn [allWithin]; [eauto|].
  apply Forall_cons_iff in Hcs as [Hc Hcs].
  apply Forall_cons_iff in Hns as [Hn Hns].
  rewrite euclideanDistance_Ret by congruence. cbn [bind].
  destruct (nltb _ tol); [|eauto]. apply IH; auto.
Qed.

Lemma noNaN_incl (pts data : list point) :
  noNaN data -> incl pts data -> noNaN pts.
Proof.
  unfold noNaN. rewrite !Forall_forall. intros H Hi p Hp. apply H, Hi, Hp.
Qed.

Lemma cluster_points_incl (cl : list Cluster) (data : list point) c :
  Permutation (concat (map points cl)) data -> In c cl ->
  incl (points c) data.
Proof.
  intros Hp Hc x Hx. eapply Permutation_in; [exact Hp|].
  apply in_concat. exists (points c). split; [|exact Hx].
  apply in_map. exact Hc.
Qed.

Section Returns.

Variable d : nat.
Variable data : list point.
Hypothesis data_nonempty : data <> [].
Hypothesis data_uniform : uniform d data.
Hypothesis dimension_positive : 1 <= d.
Hypothesis data_noNaN : noNaN data.
Hypothesis index_ok : indexDrawsInRange rnd data.

Lemma newCentroid_returns (fuel : nat) (c : Cluster) s :
  incl (points c) data ->
  exists n s', newCentroid rnd fuel data c s = Ret (n, s') /\ length n = d.
Proof.
  intros Hin. unfold newCentroid. destruct (points c) as [|p pts] eqn:Ep.
  - destruct (reseed_Ret index_ok fuel s) as (p & E & Hp).
    exists p, (S s). unfold bindR. rewrite E. split; [reflexivity|].
    unfold uniform in data_uniform. rewrite Forall_forall in data_uniform.
    auto.
  - pose proof (uniform_incl data_uniform Hin) as Hu.
    rewrite (@calculateCentroidPosition_ok _ _ d (p :: pts)); auto.
    + exists (meanOf (p :: pts)), s. split; [reflexivity|].
      rewrite meanOf_length. cbn [hd].
      apply Forall_cons_iff in Hu as [Hp _]. exact Hp.
    + discriminate.
    + eapply noNaN_incl; eauto.
Qed.

Lemma loopBody_returns (fuel : nat) (tol : num) (st : LoopState) s :
  centroids st <> [] -> uniform d (centroids st) ->
  exists st' s',
    loopBody rnd fuel data tol st s = Ret (st', s') /\
    uniform d (centroids st') /\
    length (centroids st') = length (centroids st) /\
    length (clusters st') = length (centroids st).
Proof.
  intros Hne Hu. unfold loopBody.
  destruct (assign_returns Hne data_uniform Hu) as (cl & Ea).
  pose proof (assign_partition _ _ Ea) as (Hl & Hc & Hp).
  destruct (@mapR_total _ _ (fun n : point => length n = d)
              (newCentroid rnd fuel data) cl) with (s := s)
    as (ns & s1 & En & Hns).
  { intros c s0 Hc0. apply newCentroid_returns.
    eapply cluster_points_incl; eauto. }
  pose proof (mapR_length _ _ _ En) as Hln.
  destruct (@allWithin_returns d tol (centroids st) ns) as (b & Eb); auto.
  { congruence. }
  eexists _, s1. unfold bindR, lift. rewrite Ea, En, Eb. unfold ret.
  split; [reflexivity|]. cbn [centroids clusters].
  repeat split; auto; congruence.
Qed.

Lemma whileLoop_returns (fuel : nat) (maxIterations : Z) (tol : num) :
  forall n (st : LoopState) s,
    centroids st <> [] -> uniform d (centroids st) ->
    exists stf sf,
      whileLoop rnd n fuel data maxIterations tol st s = Ret (stf, sf) /\
      (stf = st \/ length (clusters stf) = length (centroids st)).
Proof.
  induction n as [|n IH]; intros st s Hne Hu; cbn [whileLoop].
  - exists st, s. auto.
  - destruct (loopCond maxIterations st).
    + destruct (@loopBody_returns fuel tol st s Hne Hu)
        as (st1 & s1 & E1 & Hu1 & Hl1 & Hc1).
      destruct (IH st1 s1) as (stf & sf & E & H); auto.
      { intros E0. rewrite E0 in Hl1. destruct (centroids st);
          [congruence|discriminate]. }
      exists stf, sf. unfold bindR. rewrite E1. split; [exact E|].
      right. destruct H as [->|H]; congruence.
    + exists st, s. auto.
Qed.

Hypothesis thresholds_ok : thresholdsReached rnd data.

Lemma kMeans_total (fuel : nat) (k maxIterations : Z) (tol : num) s :
  (1 <= k <= Z.of_nat (length data))%Z -> (1 <= maxIterations)%Z ->
  (k <= Z.of_nat fuel + 1)%Z ->
  exists cl sf,
    kMeans rnd fuel data k maxIterations tol s = Ret (cl, sf) /\
    Z.of_nat (length cl) = k.
Proof.
  intros Hk Hm Hfuel.
  assert (Hv : validInput data k).
  { split; [exact data_nonempty|]. split; [exact Hk|]. eauto. }
  destruct (@initializeCentroids_returns _ _ rnd d data data_nonempty
              data_uniform index_ok thresholds_ok k fuel s)
    as (cs & s0 & Es & Hlen & Hin); [lia|lia|].
  assert (Hcs : cs <> []) by (intros ->; simpl in Hlen; lia).
  assert (Hu : uniform d cs) by (eapply uniform_incl; eauto).
  destruct (Z.to_nat maxIterations) as [|n] eqn:En; [lia|].
  destruct (@loopBody_returns fuel tol (initialState cs) s0 Hcs Hu)
    as (st1 & s1 & E1 & Hu1 & Hl1 & Hc1).
  destruct (@whileLoop_returns fuel maxIterations tol n st1 s1)
    as (stf & sf & E & H); auto.
  { intros E0. rewrite E0 in Hl1. simpl in Hl1. destruct cs;
      [congruence|discriminate]. }
  exists (clusters stf), sf. split.
  - rewrite kMeans_after_validation by (apply validate_valid; exact Hv).
    unfold bindR at 1. rewrite Es. unfold bindR at 1. rewrite En.
    cbn [whileLoop].
    replace (loopCond maxIterations (initialState cs)) with true.
    + unfold bindR. rewrite E1, E. reflexivity.
    + symmetry. unfold loopCond, initialState. simpl.
      apply Z.ltb_lt. lia.
  - simpl in Hl1, Hc1. destruct H as [->|H]; lia.
Qed.

End Returns.

(** C1 (as amended).  On valid input whose points have at least one
    coordinate and no NaN coordinate, with [maxIterations >= 1] and a random
    source that gives array indices and thresholds within the total weight,
    [kMeans] returns, and returns exactly [k] clusters. *)
Theorem kMeans_returns_k_clusters
  (d : nat) (data : list point) (k maxIterations : Z) (tol : num)
  (fuel : nat) (s : nat) :
  validInput data k -> uniform d data -> 1 <= d -> noNaN data ->
  (1 <= maxIterations)%Z ->
  indexDrawsInRange rnd data -> thresholdsReached rnd data ->
  (k <= Z.of_nat fuel + 1)%Z ->
  exists cl sf,
    kMeans rnd fuel data k maxIterations tol s = Ret (cl, sf) /\
    Z.of_nat (length cl) = k.
Proof.
  intros (Hne & Hk & _) Hu Hd Hn Hm Hidx Hth Hfuel.
  apply kMeans_total with (d := d); assumption.
Qed.

(** On points of one dimensionality the loop of the seeding throws nothing:
    it returns, or goes on. *)
Lemma seedLoop_never_throws (d : nat) (data : list point) (k : Z) :
  uniform d data ->
  forall fuel (cs : list point) s e,
    incl cs data -> seedLoop rnd fuel data k cs s <> Throw e.
Proof.
  intros Hu. induction fuel as [|fuel IH]; intros cs s e Hin;
    cbn [seedLoop]; destruct (Z.of_nat (length cs) <? k)%Z; try discriminate.
  destruct (sqMinDistances_Ret Hu (uniform_incl Hu Hin)) as (ds & Eds & Hlen).
  unfold bindR at 1. unfold lift at 1. rewrite Eds.
  unfold bindR at 1. unfold random at 1.
  destruct (pickIndex ds 0 nzero (nmul (rnd s) (totalDistance ds)))
    as [i|] eqn:Ei; [|apply IH; exact Hin].
  apply pickIndex_range in Ei.
  destruct (@dataAt_Ret _ data i ltac:(lia)) as (p & Ep & Hp).
  unfold bindR at 1. unfold lift at 1. rewrite Ep. apply IH.
  apply incl_app; [exact Hin|]. intros x [<-|[]]. exact Hp.
Qed.

Lemma initializeCentroids_never_throws (d : nat) (data : list point) (k : Z)
  (fuel : nat) (s : nat) (e : error) :
  uniform d data -> indexDrawsInRange rnd data ->
  initializeCentroidsWithKMeansPlusPlus rnd fuel data k s <> Throw e.
Proof.
  intros Hu Hidx. destruct (Hidx s) as (i & Ei & Hi).
  destruct (dataAt_Ret data Hi) as (p & Ep & Hp).
  unfold initializeCentroidsWithKMeansPlusPlus, bindR, random, lift.
  rewrite Ei, Ep. apply (seedLoop_never_throws k Hu).
  intros x [<-|[]]. exact Hp.
Qed.

(** C10.  On input that passes the validation, with [maxIterations <= 0]
    and a random source that gives array indices.  [kMeans] throws no
    error, and nothing checks that [maxIterations] is positive; whatever it
    returns is the empty sequence of clusters, returned when the seeding
    has returned, the condition of the loop being false at once: no pass is
    made and no further random value drawn; and it does return when every pass of the seeding selects a
    point (thresholds within the total weight), the seeding giving its [k]
    centroids. *)
Theorem kMeans_zero_iterations
  (data : list point) (k maxIterations : Z) (tol : num) (fuel : nat) (s : nat) :
  validInput data k -> (maxIterations <= 0)%Z -> indexDrawsInRange rnd data ->
  (forall e, kMeans rnd fuel data k maxIterations tol s <> Throw e) /\
  (forall cl s',
      kMeans rnd fuel data k maxIterations tol s = Ret (cl, s') ->
      cl = [] /\
      exists seeds,
        initializeCentroidsWithKMeansPlusPlus rnd fuel data k s
        = Ret (seeds, s') /\
        loopCond maxIterations (initialState seeds) = false) /\
  (thresholdsReached rnd data -> (k <= Z.of_nat fuel + 1)%Z ->
   exists seeds s',
     initializeCentroidsWithKMeansPlusPlus rnd fuel data k s = Ret (seeds, s') /\
     Z.of_nat (length seeds) = k /\
     kMeans rnd fuel data k maxIterations tol s = Ret ([], s')).
Proof.
  intros Hv Hm Hidx. pose proof Hv as (Hne & Hk & d & Hu).
  assert (Ek : kMeans rnd fuel data k maxIterations tol s =
               (cs <~ initializeCentroidsWithKMeansPlusPlus rnd fuel data k ;;
                ret (@nil Cluster)) s).
  { rewrite kMeans_after_validation by (apply validate_valid; exact Hv).
    replace (Z.to_nat maxIterations) with 0 by lia. unfold bindR.
    destruct (initializeCentroidsWithKMeansPlusPlus rnd fuel data k s)
      as [[cs s0]| |]; reflexivity. }
  split; [|split].
  - intros e E. rewrite Ek in E.
    apply bindR_Throw_inv in E as [E|(cs & s0 & _ & E)]; [|discriminate].
    exact (@initializeCentroids_never_throws d data k fuel s e Hu Hidx E).
  - intros cl s' E. rewrite Ek in E.
    apply bindR_Ret_inv in E as (seeds & s0 & Es & E).
    unfold ret in E. inversion E; subst. split; [reflexivity|].
    exists seeds. split; [exact Es|].
    unfold loopCond, initialState. simpl. apply Z.ltb_ge. exact Hm.
  - intros Hth Hfuel.
    destruct (@initializeCentroids_returns _ _ rnd d data Hne Hu Hidx Hth k fuel s)
      as (seeds & s' & Es & Hlen & _); [lia|lia|].
    exists seeds, s'. split; [exact Es|]. split; [exact Hlen|].
    rewrite Ek. unfold bindR. rewrite Es. reflexivity.
Qed.

End Run.

(** ** The best of several runs *)

Section BestOf.

Context {num : Type} {NUM : Number num}.
Variable rnd : nat -> num.

Local Abbreviation Cluster := (@Cluster num).

(** No run: the initial [bestClusters], the empty array. *)
Lemma runKMeans_no_runs (fuel : nat) (data : list (list num))
  (k maxIterations : Z) (tol : num) (numRuns : Z) (s : nat) :
  (numRuns <= 0)%Z ->
  runKMeansWithOptimalInertia rnd fuel data k maxIterations tol numRuns s
  = Ret ([], s).
Proof.
  intros H. unfold runKMeansWithOptimalInertia.
  replace (Z.to_nat numRuns) with 0 by lia. reflexivity.
Qed.

(** One more run: its clusters replace the retained ones exactly when its
    inertia is strictly below the retained inertia. *)
Lemma bestOfRuns_step (n fuel : nat) (data : list (list num))
  (k maxIterations : Z) (tol : num)
  (bestClusters : list Cluster) (bestInertia : num) (s : nat)
  (cl : list Cluster) (s1 : nat) (inertia : num) :
  kMeans rnd fuel data k maxIterations tol s = Ret (cl, s1) ->
  calculateInertia cl = Ret inertia ->
  bestOfRuns rnd (S n) fuel data k maxIterations tol bestClusters bestInertia s
  = if nltb inertia bestInertia
    then bestOfRuns rnd n fuel data k maxIterations tol cl inertia s1
    else bestOfRuns rnd n fuel data k maxIterations tol
                    bestClusters bestInertia s1.
Proof.
  intros Ek Ei. cbn [bestOfRuns]. unfold bindR at 1. rewrite Ek.
  unfold bindR at 1. unfold lift. rewrite Ei.
  destruct (nltb inertia bestInertia); reflexivity.
Qed.

End BestOf.

(** ** Binary64: order, and what the program does on concrete inputs *)

Ltac sf_compare :=
  unfold SFltb, SFleb, SFeqb, SFcompare in *;
  repeat match goal with
         | x : spec_float |- _ => destruct x
         end;
  repeat match goal with
         | b : bool |- _ => destruct b
         end;
  try discriminate; try reflexivity;
  change (Pos.compare_cont Eq) with Pos.compare in *;
  repeat match goal with
         | H : context [(?a ?= ?b)%Z] |- _ => destruct (Z.compare_spec a b)
         | |- context [(?a ?= ?b)%Z] => destruct (Z.compare_spec a b)
         | H : context [(?a ?= ?b)%positive] |- _ =>
             destruct (Pos.compare_spec a b)
         | |- context [(?a ?= ?b)%positive] => destruct (Pos.compare_spec a b)
         end;
  simpl in *; try discriminate; try reflexivity; try lia.

Lemma SFltb_irrefl (x : spec_float) : SFltb x x = false.
Proof. sf_compare. Qed.

Lemma SFltb_trans (x y z : spec_float) :
  SFltb x y = true -> SFltb y z = true -> SFltb x z = true.
Proof. intros H1 H2. sf_compare. Qed.

Lemma SFleb_ltb_trans (x y z : spec_float) :
  SFleb x y = true -> SFltb y z = true -> SFltb x z = true.
Proof. intros H1 H2. sf_compare. Qed.

Lemma SFltb_false_leb (x y : spec_float) :
  SFeqb x x = true -> SFeqb y y = true -> SFltb x y = false -> SFleb y x = true.
Proof. intros H1 H2 H3. sf_compare. Qed.

Lemma SFleb_false_ltb (x y : spec_float) :
  SFeqb x x = true -> SFeqb y y = true -> SFleb y x = false -> SFltb x y = true.
Proof. intros H1 H2 H3. sf_compare. Qed.

Lemma binary64_not_nan (x : float) :
  PrimFloat.is_nan x = false -> SFeqb (Prim2SF x) (Prim2SF x) = true.
Proof.
  unfold PrimFloat.is_nan. rewrite FloatAxioms.eqb_spec.
  destruct (SFeqb _ _); [reflexivity|discriminate].
Qed.

Lemma binary64_order : @OrderLaws float Binary64.number.
Proof.
  constructor; cbn [nltb ngeb nisNaN Binary64.number].
  - intros x. rewrite ltb_spec. apply SFltb_irrefl.
  - intros x y z. rewrite !ltb_spec. apply SFltb_trans.
  - intros x y z. rewrite !ltb_spec, leb_spec. apply SFleb_ltb_trans.
  - intros x y Hx Hy. rewrite ltb_spec, leb_spec.
    apply SFltb_false_leb; apply binary64_not_nan; assumption.
  - intros x y Hx Hy. rewrite ltb_spec, leb_spec.
    apply SFleb_false_ltb; apply binary64_not_nan; assumption.
Qed.

Section OnBinary64.

Import Binary64 Samples.

Lemma line_valid : validInput line 2.
Proof.
  split; [discriminate|]. split; [simpl; lia|].
  exists 1. repeat constructor.
Qed.

(** The assignment can leave a centroid without points. *)
Example assignment_empty_cluster :
  assignPointsToCentroidClusters [[1]; [2]]%float [[1]; [10]]%float =
  Ret [ {| centroid := [1]%float; points := [[1]; [2]]%float |};
        {| centroid := [10]%float; points := [] |} ].
Proof. vm_compute. reflexivity. Qed.

(** C4, counterexample.  In double arithmetic a point is not always placed
    with the nearest centroid.  By rounding: the computed distances of
    [0, 0] to [1, 2^-30] and to [1, 0] are both 1, and the point goes to the
    first, which is the farther one.  By overflow: the computed distances of
    [0] to [2^1000] and to [2^600] are both Infinity, and the point goes to
    the first, which is the farther one.  By NaN: no distance is below NaN,
    and the point [1] goes to the centroid [NaN], which comes first,
    although it lies on the second centroid. *)
Lemma assignment_misses_nearest :
  assignPointsToCentroidClusters [[0; 0]]%float
                                 [[1; 0x1p-30]; [1; 0]]%float
  = Ret [ {| centroid := [1; 0x1p-30]%float; points := [[0; 0]]%float |};
          {| centroid := [1; 0]%float; points := [] |} ] /\
  euclideanDistance [0; 0]%float [1; 0x1p-30]%float = Ret 1%float /\
  euclideanDistance [0; 0]%float [1; 0]%float = Ret 1%float /\
  assignPointsToCentroidClusters [[0]]%float [[0x1p1000]; [0x1p600]]%float
  = Ret [ {| centroid := [0x1p1000]%float; points := [[0]]%float |};
          {| centroid := [0x1p600]%float; points := [] |} ] /\
  euclideanDistance [0]%float [0x1p1000]%float = Ret PrimFloat.infinity /\
  euclideanDistance [0]%float [0x1p600]%float = Ret PrimFloat.infinity /\
  PrimFloat.ltb (PrimFloat.abs (0 - 0x1p600)) (PrimFloat.abs (0 - 0x1p1000))
  = true /\
  assignPointsToCentroidClusters [[1]]%float [[PrimFloat.nan]; [1]]%float
  = Ret [ {| centroid := [PrimFloat.nan]; points := [[1]]%float |};
          {| centroid := [1]%float; points := [] |} ] /\
  euclideanDistance [1]%float [1]%float = Ret 0%float.
Proof. repeat split; vm_compute; reflexivity. Qed.

(** Seeding when every weight is zero: the first pass selects the first
    point, and so does every later one. *)
Example seeding_all_weights_zero :
  sqMinDistances [[1]; [1]; [1]]%float [[1]]%float = Ret [0; 0; 0]%float /\
  initializeCentroidsWithKMeansPlusPlus halves 2 [[1]; [1]; [1]]%float 3 0
  = Ret ([[1]; [1]; [1]]%float, 3).
Proof. split; vm_compute; reflexivity. Qed.

(** C1, counterexample.  A dataset whose points have no coordinates passes
    the validation, and [kMeans] throws "Points must have at least one
    dimension." in its first pass instead of returning [k = 1] cluster; a
    dataset with a NaN coordinate passes it too, and [kMeans] throws "Invalid
    coordinate value" instead of returning [k = 2] clusters. *)
Lemma kMeans_no_coordinates_throws :
  validInput noCoordinates 1 /\
  (forall fuel,
      kMeans halves fuel noCoordinates 1 1 tolerance 0 = Throw NoDimension) /\
  validInput withNaN 2 /\
  (forall fuel,
      kMeans halves (S fuel) withNaN 2 1 tolerance 0
      = Throw (InvalidCoordinate 0)).
Proof.
  split; [|split; [|split]].
  - split; [discriminate|]. split; [simpl; lia|]. exists 0. repeat constructor.
  - intros [|fuel]; vm_compute; reflexivity.
  - split; [discriminate|]. split; [simpl; lia|]. exists 1. repeat constructor.
  - intros [|fuel]; vm_compute; reflexivity.
Qed.

(** C7, counterexample.  An infinite coordinate is not rejected: the mean
    is computed and is infinite. *)
Lemma calculateCentroidPosition_accepts_infinity :
  calculateCentroidPosition [[PrimFloat.infinity]] = Ret [PrimFloat.infinity] /\
  calculateCentroidPosition [[PrimFloat.neg_infinity]; [1%float]] =
  Ret [PrimFloat.neg_infinity].
Proof. split; vm_compute; reflexivity. Qed.

(** With the first point of [farApart] as only centroid the weights are 0
    and Infinity; a random value 0 makes the threshold NaN, which no
    cumulative sum reaches. *)
Lemma farApart_weights :
  sqMinDistances farApart [[0x1p600]]%float = Ret [0; PrimFloat.infinity]%float.
Proof. vm_compute. reflexivity. Qed.

Lemma farApart_no_pick :
  pickIndex [0; PrimFloat.infinity]%float 0 nzero
            (nmul 0%float (totalDistance [0; PrimFloat.infinity]%float)) = None.
Proof. vm_compute. reflexivity. Qed.

Lemma farApart_seedLoop_diverges (fuel s : nat) :
  seedLoop zeros fuel farApart 2 [[0x1p600]]%float s = Diverge.
Proof.
  revert s. induction fuel as [|fuel IH]; intros s; [reflexivity|].
  cbn [seedLoop].
  change (Z.of_nat (length [[0x1p600%float]]) <? 2)%Z with true. cbv iota.
  unfold bindR at 1. unfold lift at 1. rewrite farApart_weights.
  unfold bindR at 1. unfold random at 1. unfold zeros at 1.
  rewrite farApart_no_pick. apply IH.
Qed.

Lemma farApart_seeding_diverges (fuel s : nat) :
  initializeCentroidsWithKMeansPlusPlus zeros fuel farApart 2 s = Diverge.
Proof.
  unfold initializeCentroidsWithKMeansPlusPlus, bindR, random, lift, zeros.
  change (dataAt farApart (nfloor_index (nmul 0%float (nof_nat (length farApart)))))
    with (Ret [0x1p600%float] : outcome (list float)).
  apply farApart_seedLoop_diverges.
Qed.

(** C8, failing input.  Two finite points whose squared distance overflows,
    [k = 2].  The total weight is Infinity; in a pass whose random value is
    0 the threshold is 0 * Infinity = NaN, no cumulative sum reaches it and
    the pass selects no point.  With a random source that returns 0 once,
    at the first pass, the one centroid to select takes two passes and the
    seeding three random values; with a source that keeps returning 0 no
    pass selects and the loop does not end, whatever the fuel. *)
Theorem seeding_pass_without_selection :
  validInput farApart 2 /\
  sqMinDistances farApart [[-0x1p600]]%float
  = Ret [PrimFloat.infinity; 0]%float /\
  pickIndex [PrimFloat.infinity; 0]%float 0 nzero
            (nmul (zeroOnce 1) (totalDistance [PrimFloat.infinity; 0]%float))
  = None /\
  initializeCentroidsWithKMeansPlusPlus zeroOnce 1 farApart 2 0 = Diverge /\
  initializeCentroidsWithKMeansPlusPlus zeroOnce 2 farApart 2 0
  = Ret ([[-0x1p600]; [0x1p600]]%float, 3) /\
  forall fuel s,
    initializeCentroidsWithKMeansPlusPlus zeros fuel farApart 2 s = Diverge.
Proof.
  split.
  { split; [discriminate|]. split; [simpl; lia|]. exists 1. repeat constructor. }
  split; [vm_compute; reflexivity|]. split; [vm_compute; reflexivity|].
  split; [vm_compute; reflexivity|]. split; [vm_compute; reflexivity|].
  exact farApart_seeding_diverges.
Qed.

(** C5, failing input.  On [farApart] with [k = 1] every run returns one
    cluster, of inertia Infinity; Infinity is not below the initial
    [bestInertia = Infinity], so no run is retained and the result is the
    empty sequence, for one run as for ten. *)
Theorem runKMeans_overflow_returns_nothing :
  (exists cl,
      kMeans halves 0 farApart 1 defaultMaxIterations defaultTolerance 0
      = Ret (cl, 1) /\
      length cl = 1 /\
      calculateInertia cl = Ret PrimFloat.infinity) /\
  runKMeansWithOptimalInertia
    halves 0 farApart 1 defaultMaxIterations defaultTolerance 1 0
  = Ret ([], 1) /\
  runKMeansWithOptimalInertia
    halves 0 farApart 1 defaultMaxIterations defaultTolerance defaultNumRuns 0
  = Ret ([], 10).
Proof.
  split; [|split].
  - eexists. split; [vm_compute; reflexivity|].
    split; vm_compute; reflexivity.
  - vm_compute. reflexivity.
  - vm_compute. reflexivity.
Qed.

(** C9, counterexample.  Three copies of the double nearest to 0.1, one
    cluster, tolerance 0: the first pass has inertia 0; the mean of the
    three points is rounded to the next double, so the second pass has a
    positive inertia. *)
Lemma inertia_increases_by_rounding :
  exists cs s0 st1 s1 st2 s2 i2,
    initializeCentroidsWithKMeansPlusPlus halves 0 tenths 1 0 = Ret (cs, s0) /\
    loopCond 2 (initialState cs) = true /\
    loopBody halves 0 tenths 0%float (initialState cs) s0 = Ret (st1, s1) /\
    loopCond 2 st1 = true /\
    loopBody halves 0 tenths 0%float st1 s1 = Ret (st2, s2) /\
    calculateInertia (clusters st1) = Ret 0%float /\
    calculateInertia (clusters st2) = Ret i2 /\
    PrimFloat.ltb 0 i2 = true /\ PrimFloat.leb i2 0 = false.
Proof.
  do 7 eexists.
  split; [vm_compute; reflexivity|].
  split; [vm_compute; reflexivity|].
  split; [vm_compute; reflexivity|].
  split; [vm_compute; reflexivity|].
  split; [vm_compute; reflexivity|].
  split; [vm_compute; reflexivity|].
  split; [vm_compute; reflexivity|].
  split; vm_compute; reflexivity.
Qed.

End OnBinary64.

(** ** The theorems at concrete inputs *)

Section Witnesses.

Import Binary64 Samples.

Lemma kMeans_validates_first_witness :
  kMeans halves 0 [] 3 100 tolerance 0 = Throw InvalidClustersOrEmptyDataset /\
  kMeans halves 0 [[1]; [2]]%float 3 100 tolerance 0 =
  Throw InvalidClustersOrEmptyDataset /\
  kMeans halves 0 [[1; 1]; [2; 2; 3]; [4; 4]]%float 2 100 tolerance 0 =
  Throw DataDimensions /\
  validate line 2 = Ret tt.
Proof.
  split; [|split; [|split]].
  - apply (proj1 (kMeans_validates_first halves [] 3 100 tolerance)).
    left. reflexivity.
  - apply (proj1 (kMeans_validates_first halves [[1]; [2]]%float 3 100 tolerance)).
    right. right. simpl. lia.
  - apply (proj1 (proj2 (kMeans_validates_first halves
                           [[1; 1]; [2; 2; 3]; [4; 4]]%float 2 100 tolerance))).
    + discriminate.
    + simpl. lia.
    + intros (d & Hd). inversion Hd as [|? ? H1 Hd']; subst.
      inversion Hd' as [|? ? H2 _]; subst. discriminate.
  - apply (proj2 (proj2 (kMeans_validates_first halves line 2 100 tolerance))).
    exact line_valid.
Defined.

Lemma kMeans_partition_witness :
  exists cl sf,
    kMeans halves 10 line 2 100 tolerance 0 = Ret (cl, sf) /\
    length cl = 2 /\
    Permutation (concat (map points cl)) line.
Proof.
  eexists. eexists. split; [vm_compute; reflexivity|]. split; [reflexivity|].
  apply (@kMeans_partition _ _ halves 10 line 2 100 tolerance 0 _ 2 line_valid).
  - lia.
  - vm_compute. reflexivity.
Defined.

Lemma kMeans_loop_stops_and_returns_witness :  exists cl sf,
    kMeans halves 10 line 2 100 tolerance 0 = Ret (cl, sf) /\
    exists seeds s0 sts,
      initializeCentroidsWithKMeansPlusPlus halves 10 line 2 0 = Ret (seeds, s0) /\
      passes halves 10 line tolerance (initialState seeds) s0 sts sf /\
      (sts = [] <-> (100 <= 0)%Z) /\
      cl = clusters (last sts (initialState seeds)) /\
      forall i old new,
        nth_error (initialState seeds :: sts) i = Some old ->
        nth_error sts i = Some new ->
        assignPointsToCentroidClusters line (centroids old) = Ret (clusters new) /\
        map centroid (clusters new) = centroids old /\
        iteration new = (Z.of_nat i + 1)%Z /\
        (hasConverged new = true <->
         movedLessThan tolerance (centroids old) (centroids new)) /\
        (S i = length sts <->
         movedLessThan tolerance (centroids old) (centroids new) \/
         (100 <= Z.of_nat i + 1)%Z).
Proof.
  eexists. eexists. split; [vm_compute; reflexivity|].
  apply (@kMeans_loop_stops_and_returns _ _ halves 10 line 2 100 tolerance 0).
  vm_compute. reflexivity.
Defined.

Lemma calculateCentroidPosition_nan_only_witness :
  ((exists i, calculateCentroidPosition [[1]; [3]]%float
              = Throw (InvalidCoordinate i))
   <-> someNaN [[1]; [3]]%float) /\
  (calculateCentroidPosition [[1]; [3]]%float = Ret (meanOf [[1]; [3]]%float)
   <-> noNaN [[1]; [3]]%float).
Proof.
  apply (@calculateCentroidPosition_nan_only _ _ 1 [[1]; [3]]%float).
  - discriminate.
  - lia.
  - repeat constructor.
Defined.

(** The random source [halves] on the dataset [three]. *)
Lemma three_indices : indexDrawsInRange halves three.
Proof. intros s. exists 1. split; [vm_compute; reflexivity|simpl; lia]. Qed.

Lemma three_minDistance (p : list float) (cands : list float)
  (cs : list (list float)) (m : float) :
  (forall c d, In c three -> euclideanDistance p c = Ret d -> In d cands) ->
  (forall d, In d cands -> PrimFloat.ltb d PrimFloat.infinity = true) ->
  cs <> [] -> incl cs three ->
  minDistance p cs = Ret m -> In m cands.
Proof.
  intros Hc Hlt Hne Hin E. unfold minDistance in E.
  apply (minDistance_candidates p cands) in E.
  - destruct E as [_ E]. apply E; [exact Hne|exact Hlt].
  - intros c d Hcs. apply Hc, Hin, Hcs.
Qed.

Ltac distance_cases :=
  intros c d H E; simpl in H;
  repeat match goal with
         | H : _ \/ _ |- _ => destruct H as [H|H]
         end;
  try contradiction; subst c; vm_compute in E; inversion E; simpl; tauto.

Ltac below_infinity :=
  intros d H; simpl in H;
  repeat match goal with
         | H : _ \/ _ |- _ => destruct H as [H|H]
         end;
  try contradiction; subst d; vm_compute; reflexivity.

Lemma three_thresholds : thresholdsReached halves three.
Proof.
  intros s cs ds Hne Hin E. unfold sqMinDistances, three in E.
  cbn [mapM] in E.
  apply bind_Ret_inv in E as (x0 & E0 & E).
  apply bind_Ret_inv in E0 as (m0 & E0 & H0). inversion H0; subst x0; clear H0.
  apply bind_Ret_inv in E as (t0 & E & H). inversion H; subst ds; clear H.
  apply bind_Ret_inv in E as (x1 & E1 & E).
  apply bind_Ret_inv in E1 as (m1 & E1 & H1). inversion H1; subst x1; clear H1.
  apply bind_Ret_inv in E as (t1 & E & H). inversion H; subst t0; clear H.
  apply bind_Ret_inv in E as (x2 & E2 & E).
  apply bind_Ret_inv in E2 as (m2 & E2 & H2). inversion H2; subst x2; clear H2.
  apply bind_Ret_inv in E as (t2 & E & H). inversion H; subst t1; clear H.
  inversion E; subst t2; clear E.
  apply (@three_minDistance [0]%float [0; 1; 5]%float) in E0;
    [|distance_cases|below_infinity|exact Hne|exact Hin].
  apply (@three_minDistance [1]%float [1; 0; 4]%float) in E1;
    [|distance_cases|below_infinity|exact Hne|exact Hin].
  apply (@three_minDistance [5]%float [5; 4; 0]%float) in E2;
    [|distance_cases|below_infinity|exact Hne|exact Hin].
  simpl in E0, E1, E2.
  repeat match goal with
         | H : _ \/ _ |- _ => destruct H as [H|H]
         end;
  try contradiction; subst; vm_compute; reflexivity.
Qed.

Lemma three_uniform : uniform 1 three.
Proof. repeat constructor. Qed.

Lemma three_noNaN : noNaN three.
Proof. repeat constructor. Qed.

Lemma kMeans_returns_k_clusters_witness :
  exists cl sf,
    kMeans halves 1 three 2 100 tolerance 0 = Ret (cl, sf) /\
    Z.of_nat (length cl) = 2%Z.
Proof.
  apply (@kMeans_returns_k_clusters _ _ halves 1 three 2 100 tolerance 1 0).
  - split; [discriminate|]. split; [simpl; lia|]. exists 1. exact three_uniform.
  - exact three_uniform.
  - lia.
  - exact three_noNaN.
  - lia.
  - exact three_indices.
  - exact three_thresholds.
  - lia.
Defined.

Lemma kMeans_zero_iterations_witness :  (forall e, kMeans halves 1 three 2 0 tolerance 0 <> Throw e) /\
  (forall cl s',
      kMeans halves 1 three 2 0 tolerance 0 = Ret (cl, s') ->
      cl = [] /\
      exists seeds,
        initializeCentroidsWithKMeansPlusPlus halves 1 three 2 0
        = Ret (seeds, s') /\
        loopCond 0 (initialState seeds) = false) /\
  (thresholdsReached halves three -> (2 <= Z.of_nat 1 + 1)%Z ->
   exists seeds s',
     initializeCentroidsWithKMeansPlusPlus halves 1 three 2 0 = Ret (seeds, s') /\
     Z.of_nat (length seeds) = 2%Z /\
     kMeans halves 1 three 2 0 tolerance 0 = Ret ([], s')).
Proof.
  apply (@kMeans_zero_iterations _ _ halves three 2 0 tolerance 1 0).
  - split; [discriminate|]. split; [simpl; lia|]. exists 1. exact three_uniform.
  - lia.
  - exact three_indices.
Defined.

End Witnesses.

(** ** Exact arithmetic *)

Section ExactOrder.

Import Exact.

Lemma Rltb_true (x y : R) : Rltb x y = true <-> (x < y)%R.
Proof. unfold Rltb. destruct (Rlt_dec x y); split; auto; discriminate. Qed.

Lemma Rltb_false (x y : R) : Rltb x y = false <-> (y <= x)%R.
Proof.
  unfold Rltb. destruct (Rlt_dec x y); split; auto; try discriminate; lra.
Qed.

Lemma Rleb_true (x y : R) : Rleb x y = true <-> (x <= y)%R.
Proof. unfold Rleb. destruct (Rle_dec x y); split; auto; discriminate. Qed.

Lemma Rleb_false (x y : R) : Rleb x y = false <-> (y < x)%R.
Proof.
  unfold Rleb. destruct (Rle_dec x y); split; auto; try discriminate; lra.
Qed.

Ltac xreal_order :=
  repeat match goal with
         | x : xreal |- _ => destruct x
         end;
  cbn [ltb leb is_nan] in *; try discriminate; try reflexivity;
  repeat match goal with
         | H : Rltb _ _ = true |- _ => apply Rltb_true in H
         | H : Rltb _ _ = false |- _ => apply Rltb_false in H
         | H : Rleb _ _ = true |- _ => apply Rleb_true in H
         | H : Rleb _ _ = false |- _ => apply Rleb_false in H
         end;
  try match goal with
      | |- Rltb _ _ = true => apply Rltb_true
      | |- Rltb _ _ = false => apply Rltb_false
      | |- Rleb _ _ = true => apply Rleb_true
      | |- Rleb _ _ = false => apply Rleb_false
      end;
  lra.

Lemma exact_order : @OrderLaws xreal Exact.number.
Proof.
  constructor; cbn [nltb ngeb nisNaN Exact.number].
  - intros x. xreal_order.
  - intros x y z H1 H2. xreal_order.
  - intros x y z H1 H2. xreal_order.
  - intros x y H1 H2 H3. xreal_order.
  - intros x y H1 H2 H3. xreal_order.
Qed.

End ExactOrder.

Section ExactFinite.

Import Exact RealPoints.

Lemma rsum_nonneg (l : list R) : Forall (fun x => 0 <= x)%R l -> (0 <= rsum l)%R.
Proof. induction 1; simpl; lra. Qed.

Lemma rsq_nonneg (p c : list R) : (0 <= rsq p c)%R.
Proof.
  unfold rsq. apply rsum_nonneg. apply Forall_forall. intros x Hx.
  apply in_map_iff in Hx as (vw & <- & _). exact (Rle_0_sqr _).
Qed.

Lemma embed_length (p : list R) : length (embed p) = length p.
Proof. apply length_map. Qed.

Lemma sqDiffSum_embed_from (p : list R) : forall (c : list R) (a : R),
  fold_left (fun sum vw => nadd sum (nmul (nsub (fst vw) (snd vw))
                                          (nsub (fst vw) (snd vw))))
            (combine (embed p) (embed c)) (Fin a)
  = Fin (a + rsq p c).
Proof.
  induction p as [|x p IH]; intros [|y c] a; cbn [embed map combine fold_left];
    try (unfold rsq; simpl; f_equal; lra).
  change (map Fin p) with (embed p). change (map Fin c) with (embed c).
  cbn [nadd nmul nsub Exact.number fst snd sub neg add mul].
  rewrite IH. f_equal. unfold rsq, rsum. cbn [combine map fold_right fst snd].
  ring.
Qed.

Lemma sqDiffSum_embed (p c : list R) :
  sqDiffSum (embed p) (embed c) = Fin (rsq p c).
Proof.
  unfold sqDiffSum. cbn [nzero Exact.number].
  rewrite sqDiffSum_embed_from. f_equal. lra.
Qed.

Lemma sqrt_Fin_nonneg (x : R) :
  (0 <= x)%R -> Exact.sqrt (Fin x) = Fin (R_sqrt.sqrt x).
Proof.
  intros H. cbn [Exact.sqrt].
  replace (Rltb x 0) with false by (symmetry; apply Rltb_false; lra).
  reflexivity.
Qed.

Lemma euclideanDistance_embed (p c : list R) (dist : xreal) :
  euclideanDistance (embed p) (embed c) = Ret dist ->
  length p = length c /\ dist = Fin (R_sqrt.sqrt (rsq p c)).
Proof.
  intros E. apply euclideanDistance_Ret_inv in E as [Hl ->].
  rewrite !embed_length in Hl. split; [exact Hl|].
  rewrite sqDiffSum_embed. apply sqrt_Fin_nonneg, rsq_nonneg.
Qed.

Lemma euclideanDistance_embed_Ret (p c : list R) :
  length p = length c ->
  euclideanDistance (embed p) (embed c) = Ret (Fin (R_sqrt.sqrt (rsq p c))).
Proof.
  intros Hl. rewrite euclideanDistance_Ret by (rewrite !embed_length; exact Hl).
  rewrite sqDiffSum_embed. f_equal. apply sqrt_Fin_nonneg, rsq_nonneg.
Qed.

Lemma incl_embedAll (cs : list (list xreal)) (rdata : list (list R)) :
  incl cs (embedAll rdata) ->
  exists rcs, cs = embedAll rcs /\ incl rcs rdata.
Proof.
  induction cs as [|c cs IH]; intros H.
  - exists []. split; [reflexivity|]. intros x [].
  - destruct IH as (rcs & -> & Hin).
    { intros x Hx. apply H. right. exact Hx. }
    assert (Hc : In c (embedAll rdata)) by (apply H; left; reflexivity).
    apply in_map_iff in Hc as (rc & <- & Hrc).
    exists (rc :: rcs). split; [reflexivity|].
    intros x [<-|Hx]; auto.
Qed.

(** A minimum distance is a non-negative real once one centroid was seen. *)
Lemma minDistance_embed (p : list R) : forall (rcs : list (list R)) acc acc',
  (acc = PInf \/ exists m, acc = Fin m /\ (0 <= m)%R) ->
  foldM (fun minD c =>
           distance <- euclideanDistance (embed p) c ;;
           Ret (if nltb distance minD then distance else minD))
        (embedAll rcs) acc = Ret acc' ->
  (acc' = PInf \/ exists m, acc' = Fin m /\ (0 <= m)%R) /\
  (rcs <> [] -> exists m, acc' = Fin m /\ (0 <= m)%R).
Proof.
  induction rcs as [|c rcs IH]; intros acc acc' Hacc; cbn [embedAll map foldM].
  - intros E; inversion E; subst. split; [exact Hacc|congruence].
  - intros E. apply bind_Ret_inv in E as (acc1 & E1 & E).
    apply bind_Ret_inv in E1 as (dist & Ed & E1).
    apply euclideanDistance_embed in Ed as [_ ->].
    assert (H1 : exists m, acc1 = Fin m /\ (0 <= m)%R).
    { inversion E1 as [H1]. cbn [nltb Exact.number].
      destruct Hacc as [->|(m & -> & Hm)]; cbn [ltb].
      - eexists. split; [reflexivity|]. apply sqrt_pos.
      - destruct (Rltb _ m); eexists; split; try reflexivity;
          [apply sqrt_pos|exact Hm]. }
    destruct rcs as [|c' rcs].
    + cbn [embedAll map foldM] in E. inversion E; subst.
      split; [right; exact H1|intros _; exact H1].
    + apply IH in E; [|right; exact H1]. destruct E as [Hg Hf].
      split; [exact Hg|]. intros _. apply Hf. discriminate.
Qed.

Lemma mapM_Forall {A B : Type} (Q : B -> Prop) (f : A -> outcome B) (l : list A) :
  (forall a b, In a l -> f a = Ret b -> Q b) ->
  forall bs, mapM f l = Ret bs -> Forall Q bs.
Proof.
  induction l as [|a l IH]; intros Hf bs; cbn [mapM].
  - intros E; inversion E. constructor.
  - intros E. apply bind_Ret_inv in E as (b & Eb & E).
    apply bind_Ret_inv in E as (bs' & Ebs & E). inversion E; subst.
    constructor.
    + apply (Hf a b); [left; reflexivity|exact Eb].
    + apply IH; [|exact Ebs]. intros a0 b0 Ha. apply Hf. right. exact Ha.
Qed.

Lemma sqMinDistances_embed (rdata rcs : list (list R)) (ds : list xreal) :
  rcs <> [] ->
  sqMinDistances (embedAll rdata) (embedAll rcs) = Ret ds ->
  Forall (fun x => exists m, x = Fin m /\ (0 <= m)%R) ds.
Proof.
  intros Hne. unfold sqMinDistances. apply mapM_Forall.
  intros p x Hp E. apply in_map_iff in Hp as (rp & <- & _).
  apply bind_Ret_inv in E as (m & Em & E). inversion E; subst.
  unfold minDistance in Em. apply minDistance_embed in Em; [|left; reflexivity].
  destruct Em as [_ Hm]. destruct (Hm Hne) as (r & -> & Hr).
  exists (r * r)%R. split; [reflexivity|]. exact (Rle_0_sqr r).
Qed.

Lemma totalDistance_embed (ds : list xreal) : forall a,
  Forall (fun x => exists m, x = Fin m /\ (0 <= m)%R) ds -> (0 <= a)%R ->
  exists t, fold_left add ds (Fin a) = Fin t /\ (0 <= t)%R.
Proof.
  induction ds as [|x ds IH]; intros a H Ha.
  - exists a. auto.
  - apply Forall_cons_iff in H as [(m & -> & Hm) H]. cbn [fold_left add].
    apply IH; [exact H|lra].
Qed.

(** In exact arithmetic a random source with values from 0 (included) to 1
    (excluded) has no threshold above the total weight and gives array
    indices. *)
Lemma exact_thresholds (rnd : nat -> xreal) (rdata : list (list R)) :
  unitSource rnd -> thresholdsReached rnd (embedAll rdata).
Proof.
  intros Hrnd s cs ds Hne Hin Eds.
  apply incl_embedAll in Hin as (rcs & -> & _).
  assert (Hrcs : rcs <> []) by (intros ->; apply Hne; reflexivity).
  pose proof (sqMinDistances_embed _ Hrcs Eds) as Hds.
  destruct (@totalDistance_embed ds 0%R Hds (Rle_refl 0)) as (t & Et & Ht).
  destruct (Hrnd s) as (r & -> & Hr).
  unfold totalDistance. cbn [nadd nzero nmul ngeb Exact.number].
  rewrite Et. cbn [mul leb]. apply Rleb_true. nra.
Qed.

Lemma Int_part_range (x : R) (n : nat) :
  (0 <= x < INR n)%R -> Z.to_nat (Int_part x) < n.
Proof.
  intros [H0 Hn]. destruct (base_Int_part x) as [Hle Hgt].
  assert (H1 : (0 <= Int_part x)%Z).
  { apply Z.lt_succ_r. apply lt_IZR. rewrite succ_IZR. lra. }
  assert (H2 : (Int_part x < Z.of_nat n)%Z).
  { apply lt_IZR. rewrite <- INR_IZR_INZ. lra. }
  lia.
Qed.

Lemma exact_indices (rnd : nat -> xreal) (rdata : list (list R)) :
  unitSource rnd -> rdata <> [] -> indexDrawsInRange rnd (embedAll rdata).
Proof.
  intros Hrnd Hne s. destruct (Hrnd s) as (r & -> & Hr).
  cbn [nfloor_index nmul nof_nat Exact.number mul floor_index].
  unfold embedAll. rewrite length_map.
  assert (Hn : (0 < INR (length rdata))%R).
  { apply lt_0_INR. destruct rdata; [congruence|simpl; lia]. }
  replace (Rltb (r * INR (length rdata)) 0) with false
    by (symmetry; apply Rltb_false; nra).
  eexists. split; [reflexivity|]. apply Int_part_range. nra.
Qed.

Lemma uniform_embedAll (d : nat) (rdata : list (list R)) :
  Forall (fun p => length p = d) rdata -> uniform d (embedAll rdata).
Proof.
  intros H. unfold uniform, embedAll. apply Forall_map.
  eapply Forall_impl; [|exact H]. intros p Hp. rewrite embed_length. exact Hp.
Qed.

Lemma noNaN_embedAll (rdata : list (list R)) : noNaN (embedAll rdata).
Proof.
  unfold noNaN, embedAll. apply Forall_map, Forall_forall. intros p _.
  unfold embed. apply Forall_map, Forall_forall. intros x _. reflexivity.
Qed.

(** A constant random source. *)
Lemma sample_unitSource : unitSource (fun _ => Fin (1 / 2)).
Proof. intros s. exists (1 / 2)%R. split; [reflexivity|lra]. Qed.

(** In exact arithmetic, with such a random source: the seeding returns
    [k] centroids on every non-empty dataset of real points of one
    dimensionality, and [kMeans] returns [k] clusters when moreover the
    points have a coordinate and [maxIterations >= 1]. *)
Lemma exact_seeding_total (rnd : nat -> xreal) (d : nat) (rdata : list (list R))
  (k : Z) (fuel s : nat) :
  unitSource rnd -> rdata <> [] -> Forall (fun p => length p = d) rdata ->
  (1 <= k)%Z -> (k <= Z.of_nat fuel + 1)%Z ->
  exists cs s',
    initializeCentroidsWithKMeansPlusPlus rnd fuel (embedAll rdata) k s
    = Ret (cs, s') /\
    Z.of_nat (length cs) = k /\ incl cs (embedAll rdata).
Proof.
  intros Hrnd Hne Hu Hk Hfuel.
  apply initializeCentroids_returns with (d := d); auto.
  - destruct rdata; [congruence|discriminate].
  - apply uniform_embedAll. exact Hu.
  - apply exact_indices; assumption.
  - apply exact_thresholds. exact Hrnd.
Qed.

Lemma exact_kMeans_total (rnd : nat -> xreal) (d : nat) (rdata : list (list R))
  (k maxIterations : Z) (tol : xreal) (fuel s : nat) :
  unitSource rnd -> Forall (fun p => length p = d) rdata -> 1 <= d ->
  (1 <= k <= Z.of_nat (length rdata))%Z -> (1 <= maxIterations)%Z ->
  (k <= Z.of_nat fuel + 1)%Z ->
  exists cl sf,
    kMeans rnd fuel (embedAll rdata) k maxIterations tol s = Ret (cl, sf) /\
    Z.of_nat (length cl) = k.
Proof.
  intros Hrnd Hu Hd Hk Hm Hfuel.
  assert (Hne : rdata <> []) by (intros ->; simpl in Hk; lia).
  apply kMeans_total with (d := d); auto.
  - destruct rdata; [congruence|discriminate].
  - apply uniform_embedAll. exact Hu.
  - apply noNaN_embedAll.
  - apply exact_indices; assumption.
  - apply exact_thresholds. exact Hrnd.
  - unfold embedAll. rewrite length_map. exact Hk.
Qed.

(** *** Sums of reals *)

Lemma rsum_map_le {A : Type} (f g : A -> R) (l : list A) :
  (forall x, In x l -> (f x <= g x)%R) ->
  (rsum (map f l) <= rsum (map g l))%R.
Proof.
  induction l as [|a l IH]; intros H; simpl; [lra|].
  pose proof (H a (or_introl eq_refl)).
  assert (rsum (map f l) <= rsum (map g l))%R
    by (apply IH; intros x Hx; apply H; right; exact Hx).
  lra.
Qed.

Lemma rsum_map_plus {A : Type} (f g : A -> R) (l : list A) :
  rsum (map (fun x => (f x + g x)%R) l) = (rsum (map f l) + rsum (map g l))%R.
Proof. induction l as [|a l IH]; simpl; [lra|]. rewrite IH. lra. Qed.

Lemma rsum_map_zero {A : Type} (l : list A) :
  rsum (map (fun _ => 0%R) l) = 0%R.
Proof. induction l as [|a l IH]; simpl; [reflexivity|]. rewrite IH. lra. Qed.

Lemma rsum_swap {A B : Type} (f : A -> B -> R) (la : list A) (lb : list B) :
  rsum (map (fun a => rsum (map (f a) lb)) la) =
  rsum (map (fun b => rsum (map (fun a => f a b) la)) lb).
Proof.
  induction la as [|a la IH]; cbn [map rsum fold_right].
  - rewrite rsum_map_zero. reflexivity.
  - fold (rsum (map (fun a0 => rsum (map (f a0) lb)) la)). rewrite IH.
    rewrite <- rsum_map_plus. reflexivity.
Qed.

Lemma rsum_indicator (g : nat -> R) (i : nat) : forall k a,
  rsum (map (fun j => if i =? j then g j else 0%R) (seq a k)) =
  if (a <=? i) && (i <? a + k) then g i else 0%R.
Proof.
  induction k as [|k IH]; intros a; cbn [seq map rsum fold_right].
  - replace ((a <=? i) && (i <? a + 0)) with false; [reflexivity|].
    symmetry. apply andb_false_iff.
    destruct (Nat.leb_spec a i); [right; apply Nat.ltb_ge; lia|left; reflexivity].
  - fold (rsum (map (fun j => if i =? j then g j else 0%R) (seq (S a) k))).
    rewrite IH. destruct (Nat.eqb_spec i a) as [->|Hne].
    + rewrite Nat.leb_refl.
      replace (S a <=? a) with false by (symmetry; apply Nat.leb_gt; lia).
      replace (a <? a + S k) with true by (symmetry; apply Nat.ltb_lt; lia).
      simpl. lra.
    + destruct (Nat.leb_spec (S a) i); destruct (Nat.leb_spec a i);
        try lia; cbn [andb]; [|lra].
      replace (i <? a + S k) with (i <? S a + k)
        by (f_equal; lia).
      destruct (i <? S a + k); lra.
Qed.

(** The mean minimises the sum of squared deviations. *)
Lemma squares_expand (c : R) (xs : list R) :
  rsum (map (fun x => ((x - c) * (x - c))%R) xs) =
  (rsum (map (fun x => (x * x)%R) xs) - 2 * c * rsum xs
   + INR (length xs) * c * c)%R.
Proof.
  induction xs as [|x xs IH]; [simpl; lra|].
  cbn [map rsum fold_right length]. fold (rsum xs).
  fold (rsum (map (fun x => ((x - c) * (x - c))%R) xs)).
  fold (rsum (map (fun x => (x * x)%R) xs)).
  rewrite IH, S_INR. ring.
Qed.

Lemma mean_minimises (y : R) (xs : list R) :
  xs <> [] ->
  (rsum (map (fun x => ((x - rsum xs / INR (length xs))
                        * (x - rsum xs / INR (length xs)))%R) xs)
   <= rsum (map (fun x => ((x - y) * (x - y))%R) xs))%R.
Proof.
  intros Hne. rewrite !squares_expand.
  assert (Hn : (0 < INR (length xs))%R).
  { apply lt_0_INR. destruct xs; [congruence|simpl; lia]. }
  set (n := INR (length xs)) in *. set (S := rsum xs).
  set (mu := (S / n)%R).
  assert (HS : S = (n * mu)%R) by (unfold mu; field; lra).
  rewrite HS.
  assert (0 <= n * ((y - mu) * (y - mu)))%R.
  { apply Rmult_le_pos; [lra|exact (Rle_0_sqr _)]. }
  lra.
Qed.

(** The squared distance, coordinate by coordinate. *)
Lemma rsq_by_index (d : nat) : forall p c : list R,
  length p = d -> length c = d ->
  rsq p c =
  rsum (map (fun i => ((nth i p 0 - nth i c 0) * (nth i p 0 - nth i c 0))%R)
            (seq 0 d)).
Proof.
  induction d as [|d IH]; intros [|x p] [|y c] Hp Hc; simpl in Hp, Hc;
    try discriminate; [reflexivity|].
  unfold rsq. cbn [combine map rsum fold_right seq nth fst snd].
  f_equal. rewrite <- seq_shift, map_map. cbn [nth].
  apply (IH p c); lia.
Qed.

Lemma rmean_length (ps : list (list R)) :
  length (rmean ps) = length (hd [] ps).
Proof. unfold rmean. rewrite length_map, length_seq. reflexivity. Qed.

Lemma nth_map_seq {A : Type} (F : nat -> A) (n i : nat) (def : A) :
  i < n -> nth i (map F (seq 0 n)) def = F i.
Proof.
  intros Hi. rewrite (nth_indep _ def (F 0))
    by (rewrite length_map, length_seq; exact Hi).
  rewrite map_nth, seq_nth by exact Hi. reflexivity.
Qed.

Lemma rmean_nth (ps : list (list R)) (i : nat) :
  i < length (hd [] ps) ->
  nth i (rmean ps) 0%R =
  (rsum (map (fun p => nth i p 0%R) ps) / INR (length ps))%R.
Proof. intros Hi. unfold rmean. rewrite nth_map_seq by exact Hi. reflexivity. Qed.

Lemma rcost_mean_le (d : nat) (ps : list (list R)) (c : list R) :
  ps <> [] -> Forall (fun p => length p = d) ps -> length c = d ->
  (rcost (rmean ps) ps <= rcost c ps)%R.
Proof.
  intros Hne Hps Hc.
  assert (Hd : length (hd [] ps) = d).
  { destruct ps as [|p0 ps]; [congruence|]. inversion Hps; assumption. }
  assert (Hm : length (rmean ps) = d) by (rewrite rmean_length; exact Hd).
  rewrite Forall_forall in Hps. unfold rcost.
  rewrite (map_ext_in _
             (fun p => rsum (map (fun i => ((nth i p 0 - nth i (rmean ps) 0)
                                            * (nth i p 0 - nth i (rmean ps) 0))%R)
                                 (seq 0 d)))).
  2:{ intros p Hp. apply rsq_by_index; auto. }
  rewrite (map_ext_in (fun p => rsq p c)
             (fun p => rsum (map (fun i => ((nth i p 0 - nth i c 0)
                                            * (nth i p 0 - nth i c 0))%R)
                                 (seq 0 d)))).
  2:{ intros p Hp. apply rsq_by_index; auto. }
  rewrite (rsum_swap (fun p i => ((nth i p 0 - nth i (rmean ps) 0)
                                  * (nth i p 0 - nth i (rmean ps) 0))%R)).
  rewrite (rsum_swap (fun p i => ((nth i p 0 - nth i c 0)
                                  * (nth i p 0 - nth i c 0))%R)).
  apply rsum_map_le. intros i Hi. apply in_seq in Hi.
  rewrite rmean_nth by lia.
  pose proof (@mean_minimises (nth i c 0%R) (map (fun p => nth i p 0%R) ps)) as H.
  rewrite !map_map, length_map in H. apply H.
  destruct ps; [congruence|discriminate].
Qed.

(** A sum over the clusters of sums over their points is the sum over the
    points. *)
Lemma rsum_partition {A : Type} (f : A -> nat -> R) (k : nat) :
  forall l : list (A * nat),
    Forall (fun pj => snd pj < k) l ->
    rsum (map (fun j => rsum (map (fun pj => f (fst pj) j)
                                  (filter (fun pj => snd pj =? j) l)))
              (seq 0 k))
    = rsum (map (fun pj => f (fst pj) (snd pj)) l).
Proof.
  induction l as [|[p i] l IH]; intros H.
  - simpl. apply rsum_map_zero.
  - apply Forall_cons_iff in H as [Hi H]. cbn [fst snd] in Hi.
    cbn [map rsum fold_right fst snd].
    fold (rsum (map (fun pj => f (fst pj) (snd pj)) l)).
    rewrite <- (IH H).
    rewrite (map_ext
               (fun j => rsum (map (fun pj => f (fst pj) j)
                                   (filter (fun pj => snd pj =? j) ((p, i) :: l))))
               (fun j => ((if i =? j then f p j else 0)
                          + rsum (map (fun pj => f (fst pj) j)
                                      (filter (fun pj => snd pj =? j) l)))%R)).
    2:{ intros j. cbn [filter snd]. destruct (i =? j); simpl; lra. }
    rewrite rsum_map_plus, rsum_indicator.
    replace ((0 <=? i) && (i <? 0 + k)) with true; [reflexivity|].
    symmetry. apply andb_true_iff. split; [reflexivity|apply Nat.ltb_lt; lia].
Qed.

(** *** The inertia of clusters of real points *)

Lemma assignedTo_map {A B : Type} (f : A -> B) (j : nat) :
  forall (data : list (list A)) (js : list nat),
    assignedTo j (map (map f) data) js = map (map f) (assignedTo j data js).
Proof.
  unfold assignedTo.
  induction data as [|p data IH]; intros [|i js]; cbn [map combine filter];
    try reflexivity.
  cbn [snd]. destruct (i =? j); cbn [map fst]; rewrite IH; reflexivity.
Qed.

Lemma assignedTo_embedAll (j : nat) (rdata : list (list R)) (js : list nat) :
  assignedTo j (embedAll rdata) js = embedAll (assignedTo j rdata js).
Proof. exact (assignedTo_map Fin j rdata js). Qed.

Lemma assignedTo_incl {A : Type} (j : nat) (data : list (list A)) (js : list nat) :
  incl (assignedTo j data js) data.
Proof.
  unfold assignedTo. intros p Hp.
  apply in_map_iff in Hp as ([p' i] & <- & Hp).
  apply filter_In in Hp as [Hp _]. eapply in_combine_l. exact Hp.
Qed.

Lemma clusterInertia_embed_from (c : list R) :
  forall (ps : list (list R)) (a : R),
    Forall (fun p => length p = length c) ps ->
    foldM (fun sum p =>
             d <- euclideanDistance p (embed c) ;;
             Ret (nadd sum (nmul d d)))
          (embedAll ps) (Fin a)
    = Ret (Fin (a + rcost c ps)).
Proof.
  induction ps as [|p ps IH]; intros a H.
  - simpl. unfold rcost. simpl. do 2 f_equal. lra.
  - apply Forall_cons_iff in H as [Hp H]. cbn [embedAll map foldM].
    rewrite (euclideanDistance_embed_Ret p c Hp). cbn [bind].
    cbn [nadd nmul Exact.number mul add].
    rewrite sqrt_sqrt by apply rsq_nonneg.
    change (map embed ps) with (embedAll ps). rewrite IH by exact H.
    do 2 f_equal. unfold rcost, rsum. cbn [map fold_right]. lra.
Qed.

Lemma clusterInertia_embed (c : list R) (ps : list (list R)) :
  Forall (fun p => length p = length c) ps ->
  clusterInertia {| centroid := embed c; points := embedAll ps |}
  = Ret (Fin (rcost c ps)).
Proof.
  intros H. unfold clusterInertia. cbn [centroid points nzero Exact.number].
  rewrite clusterInertia_embed_from by exact H. do 2 f_equal. lra.
Qed.

Lemma calculateInertia_clustersFrom (d : nat) (rdata : list (list R)) (js : list nat) :
  Forall (fun p => length p = d) rdata ->
  forall (rcs : list (list R)) (a : nat) (acc : R),
    Forall (fun c => length c = d) rcs ->
    foldM (fun inertia cluster =>
             s <- clusterInertia cluster ;; Ret (nadd inertia s))
          (clustersFrom a (embedAll rcs) (embedAll rdata) js) (Fin acc)
    = Ret (Fin (acc + rsum (map (fun j => rcost (nth (j - a) rcs [])
                                               (assignedTo j rdata js))
                                (seq a (length rcs))))).
Proof.
  intros Hdata. induction rcs as [|c rcs IH]; intros a acc H.
  - simpl. do 2 f_equal. lra.
  - apply Forall_cons_iff in H as [Hc H].
    cbn [embedAll map clustersFrom foldM length seq].
    change (map embed rcs) with (embedAll rcs).
    rewrite assignedTo_embedAll.
    rewrite clusterInertia_embed.
    2:{ apply Forall_forall. intros p Hp. apply assignedTo_incl in Hp.
        rewrite Forall_forall in Hdata. rewrite (Hdata p Hp). congruence. }
    cbn [bind nadd Exact.number add].
    rewrite IH by exact H. do 2 f_equal.
    unfold rsum. cbn [map fold_right]. rewrite Nat.sub_diag. cbn [nth].
    rewrite (map_ext_in
               (fun j => rcost (nth (j - a) (c :: rcs) []) (assignedTo j rdata js))
               (fun j => rcost (nth (j - S a) rcs []) (assignedTo j rdata js))).
    + lra.
    + intros j Hj. apply in_seq in Hj.
      replace (j - a) with (S (j - S a)) by lia. reflexivity.
Qed.

Lemma rcost_assignedTo (c : list R) (j : nat) (rdata : list (list R)) js :
  rcost c (assignedTo j rdata js) =
  rsum (map (fun pj => rsq (fst pj) c)
            (filter (fun pj => snd pj =? j) (combine rdata js))).
Proof. unfold rcost, assignedTo. rewrite map_map. reflexivity. Qed.

(** The inertia of the clusters an assignment builds. *)
Lemma calculateInertia_assignment (d : nat) (rdata rcs : list (list R)) js :
  Forall (fun p => length p = d) rdata ->
  Forall (fun c => length c = d) rcs ->
  Forall (fun pj => snd pj < length rcs) (combine rdata js) ->
  calculateInertia (clustersFrom 0 (embedAll rcs) (embedAll rdata) js)
  = Ret (Fin (rinertia rcs (combine rdata js))) /\
  rinertia rcs (combine rdata js) =
  rsum (map (fun j => rcost (nth j rcs []) (assignedTo j rdata js))
            (seq 0 (length rcs))).
Proof.
  intros Hdata Hcs Hjs.
  assert (E : rinertia rcs (combine rdata js) =
              rsum (map (fun j => rcost (nth j rcs []) (assignedTo j rdata js))
                        (seq 0 (length rcs)))).
  { unfold rinertia.
    rewrite <- (rsum_partition (fun p j => rsq p (nth j rcs [])) Hjs).
    f_equal. apply map_ext. intros j. symmetry. apply rcost_assignedTo. }
  split; [|exact E].
  unfold calculateInertia. cbn [nzero Exact.number].
  rewrite (calculateInertia_clustersFrom js Hdata 0 0 Hcs).
  do 2 f_equal. rewrite E. rewrite Rplus_0_l. f_equal.
  apply map_ext. intros j. rewrite Nat.sub_0_r. reflexivity.
Qed.

(** *** The assignment of real points *)

Lemma Forall2_map_left {A B C : Type} (f : A -> B) (P : B -> C -> Prop) :
  forall (l : list A) (l' : list C),
    Forall2 P (map f l) l' -> Forall2 (fun a c => P (f a) c) l l'.
Proof.
  induction l as [|a l IH]; intros l' H; inversion H; subst; constructor; auto.
Qed.

Lemma distancesTo_embed (p : list R) : forall (rcs : list (list R)) ds,
  distancesTo (embed p) (embedAll rcs) ds ->
  ds = map (fun c => Fin (R_sqrt.sqrt (rsq p c))) rcs.
Proof.
  unfold distancesTo.
  induction rcs as [|c rcs IH]; intros ds H; inversion H as [|? d ? ds' E H']; subst.
  - reflexivity.
  - cbn [map]. f_equal; [|apply IH; exact H'].
    apply euclideanDistance_embed in E. tauto.
Qed.

Lemma isNearest_embed (rcs : list (list R)) (p : list R) (j : nat) :
  isNearest (embedAll rcs) (embed p) j ->
  forall i, i < length rcs ->
    (rsq p (nth j rcs []) <= rsq p (nth i rcs []))%R.
Proof.
  intros (ds & dj & Hds & Hj & H1 & _) i Hi.
  apply distancesTo_embed in Hds. subst ds.
  rewrite nth_error_map in Hj.
  destruct (nth_error rcs j) as [cj|] eqn:Ej; [|discriminate].
  cbn [option_map] in Hj. inversion Hj; subst dj.
  rewrite (nth_error_nth _ _ _ Ej).
  specialize (H1 i (Fin (R_sqrt.sqrt (rsq p (nth i rcs []))))).
  rewrite nth_error_map, (nth_error_nth' rcs [] Hi) in H1.
  specialize (H1 eq_refl). cbn [nltb Exact.number ltb] in H1.
  apply Rltb_false in H1.
  apply sqrt_le_0; [apply rsq_nonneg|apply rsq_nonneg|exact H1].
Qed.

Lemma assign_exact (d : nat) (rdata rcs : list (list R)) :
  rcs <> [] ->
  Forall (fun p => length p = d) rdata ->
  Forall (fun c => length c = d) rcs ->
  exists js,
    assignPointsToCentroidClusters (embedAll rdata) (embedAll rcs)
    = Ret (clustersFrom 0 (embedAll rcs) (embedAll rdata) js) /\
    Forall2 (fun p j => j < length rcs /\
                        forall i, i < length rcs ->
                          (rsq p (nth j rcs []) <= rsq p (nth i rcs []))%R)
            rdata js.
Proof.
  intros Hne Hdata Hcs.
  destruct (@assign_clustersFrom _ _ exact_order d (embedAll rdata) (embedAll rcs))
    as (js & Hjs & Ea).
  - destruct rcs; [congruence|discriminate].
  - apply uniform_embedAll. exact Hdata.
  - apply uniform_embedAll. exact Hcs.
  - exists js. split; [exact Ea|].
    apply Forall2_map_left in Hjs.
    eapply Forall2_impl; [|exact Hjs]. intros p j [Ej Hn]. split.
    + apply nearestIndex_range in Ej. unfold embedAll in Ej.
      rewrite length_map in Ej. exact Ej.
    + apply isNearest_embed. exact Hn.
Qed.

Lemma isNearest_firstNearest (rcs : list (list R)) (p : list R) (j : nat) :
  isNearest (embedAll rcs) (embed p) j -> firstNearest rcs p j.
Proof.
  intros (ds & dj & Hds & Hj & H1 & H2).
  apply distancesTo_embed in Hds. subst ds.
  rewrite nth_error_map in Hj.
  destruct (nth_error rcs j) as [cj|] eqn:Ej; [|discriminate].
  cbn [option_map] in Hj. inversion Hj; subst dj. clear Hj.
  exists cj. split; [exact Ej|]. unfold rdistance. split.
  - intros i c Hc.
    specialize (H1 i (Fin (R_sqrt.sqrt (rsq p c)))).
    rewrite nth_error_map, Hc in H1. specialize (H1 eq_refl).
    cbn [nltb Exact.number ltb] in H1. apply Rltb_false in H1. exact H1.
  - intros i c Hi Hc.
    specialize (H2 i (Fin (R_sqrt.sqrt (rsq p c))) Hi).
    rewrite nth_error_map, Hc in H2. specialize (H2 eq_refl).
    cbn [ngeb Exact.number leb] in H2. apply Rleb_false in H2. exact H2.
Qed.

(** C4 (as amended).  In exact arithmetic, for real points and at least one
    centroid, all of one dimensionality: the assignment returns one cluster
    per centroid, in the order of the centroids; each point goes to the
    centroid at minimum Euclidean distance, and among several at that
    distance to the one of lowest index; each cluster holds its points in
    the order of the dataset, possibly none. *)
Theorem assignment_nearest_exact (d : nat) (rdata rcs : list (list R)) :
  rcs <> [] ->
  Forall (fun p => length p = d) rdata ->
  Forall (fun c => length c = d) rcs ->
  exists cl js,
    assignPointsToCentroidClusters (embedAll rdata) (embedAll rcs) = Ret cl /\
    length cl = length rcs /\
    Forall2 (firstNearest rcs) rdata js /\
    (forall j c, nth_error rcs j = Some c ->
       nth_error cl j =
       Some {| centroid := embed c;
               points := embedAll (assignedTo j rdata js) |}).
Proof.
  intros Hne Hdata Hcs.
  destruct (@assign_clustersFrom _ _ exact_order d (embedAll rdata) (embedAll rcs))
    as (js & Hjs & Ea).
  - destruct rcs; [congruence|discriminate].
  - apply uniform_embedAll. exact Hdata.
  - apply uniform_embedAll. exact Hcs.
  - exists (clustersFrom 0 (embedAll rcs) (embedAll rdata) js), js.
    split; [exact Ea|]. split; [|split].
    + rewrite clustersFrom_length. apply length_map.
    + apply Forall2_map_left in Hjs.
      eapply Forall2_impl; [|exact Hjs]. intros p j [_ Hn].
      apply isNearest_firstNearest. exact Hn.
    + intros j c Hc.
      rewrite (@clustersFrom_nth _ (embedAll rcs) 0 (embedAll rdata) js j (embed c)).
      * rewrite assignedTo_embedAll. reflexivity.
      * unfold embedAll. rewrite nth_error_map, Hc. reflexivity.
Qed.

Lemma Forall2_combine {A B : Type} (P : A -> B -> Prop) (l : list A) (l' : list B) :
  Forall2 P l l' -> Forall (fun x => P (fst x) (snd x)) (combine l l').
Proof. induction 1; cbn [combine]; constructor; auto. Qed.

(** Re-assigning to nearest centroids does not increase the sum. *)
Lemma rinertia_nearest_le (rns : list (list R)) :
  forall (rdata : list (list R)) (js1 js2 : list nat),
    Forall2 (fun (p : list R) j => j < length rns) rdata js1 ->
    Forall2 (fun p j => j < length rns /\
                        forall i, i < length rns ->
                          (rsq p (nth j rns []) <= rsq p (nth i rns []))%R)
            rdata js2 ->
    (rinertia rns (combine rdata js2) <= rinertia rns (combine rdata js1))%R.
Proof.
  intros rdata js1 js2 H1. revert js2.
  induction H1 as [|p j1 rdata js1 Hj1 _ IH]; intros js2 H2;
    inversion H2 as [|? j2 ? js2' [_ Hmin] H2']; subst.
  - unfold rinertia. simpl. lra.
  - specialize (IH js2' H2'). specialize (Hmin j1 Hj1).
    unfold rinertia, rsum in *. cbn [combine map fold_right fst snd]. lra.
Qed.

(** *** The update of the centroids of real points *)

Lemma fold_left_add_Fin (xs : list R) : forall a : R,
  fold_left add (map Fin xs) (Fin a) = Fin (a + rsum xs).
Proof.
  induction xs as [|x xs IH]; intros a; cbn [map fold_left add].
  - simpl. f_equal. lra.
  - rewrite IH. f_equal. unfold rsum. cbn [fold_right]. lra.
Qed.

Lemma meanOf_embed (ps : list (list R)) :
  ps <> [] -> meanOf (embedAll ps) = embed (rmean ps).
Proof.
  intros Hne.
  assert (Hl : length (hd [] (embedAll ps)) = length (hd [] ps)).
  { destruct ps; [reflexivity|]. cbn [embedAll map hd]. apply embed_length. }
  unfold meanOf, rmean. rewrite Hl. unfold embed. rewrite map_map.
  apply map_ext. intros i. unfold coordinateSum.
  cbn [nzero nadd ndiv nof_nat Exact.number].
  unfold embedAll, embed. rewrite map_map, length_map.
  rewrite (map_ext (fun p => nth i (map Fin p) (Fin 0))
                   (fun p => Fin (nth i p 0%R)))
    by (intros p; apply (map_nth Fin)).
  rewrite <- (map_map (fun p => nth i p 0%R) Fin).
  rewrite fold_left_add_Fin. cbn [div].
  destruct (Req_dec_T (INR (length ps)) 0) as [E|_].
  - exfalso. assert (0 < INR (length ps))%R; [|lra].
    apply lt_0_INR. destruct ps; [congruence|simpl; lia].
  - f_equal. rewrite Rplus_0_l. reflexivity.
Qed.

Lemma reseed_inv {num : Type} {NUM : Number num} (rnd : nat -> num)
  (fuel : nat) (data : list (list num)) s cs s' :
  initializeCentroidsWithKMeansPlusPlus rnd fuel data 1 s = Ret (cs, s') ->
  exists p, cs = [p] /\ In p data.
Proof.
  unfold initializeCentroidsWithKMeansPlusPlus. intros E.
  apply bindR_Ret_inv in E as (r & s1 & _ & E).
  apply bindR_Ret_inv in E as (p & s2 & Ep & E).
  apply lift_Ret_inv in Ep as [Ep ->].
  rewrite seedLoop_one in E. inversion E; subst. exists p. split; [reflexivity|].
  unfold dataAt in Ep. destruct (nfloor_index _) as [i|]; [|discriminate].
  destruct (nth_error data i) as [q|] eqn:Eq; [|discriminate].
  inversion Ep; subst. eapply nth_error_In. exact Eq.
Qed.

Section Update.

Variable rnd : nat -> xreal.
Variable fuel : nat.
Variable d : nat.
Variable rdata : list (list R).
Hypothesis rdata_uniform : Forall (fun p => length p = d) rdata.

Lemma newCentroid_exact (rc : list R) (ps : list (list R)) s n s' :
  incl ps rdata -> length rc = d ->
  newCentroid rnd fuel (embedAll rdata)
              {| centroid := embed rc; points := embedAll ps |} s = Ret (n, s') ->
  exists rn, n = embed rn /\ length rn = d /\ (rcost rn ps <= rcost rc ps)%R.
Proof.
  intros Hin Hrc. unfold newCentroid. cbn [points].
  destruct ps as [|p0 ps]; cbn [embedAll map].
  - intros E. apply bindR_Ret_inv in E as (cs & s1 & Es & E).
    apply reseed_inv in Es as (p & -> & Hp). inversion E; subst.
    apply in_map_iff in Hp as (rp & <- & Hrp). exists rp.
    rewrite Forall_forall in rdata_uniform.
    split; [reflexivity|]. split; [auto|]. unfold rcost. simpl. lra.
  - change (embed p0 :: map embed ps) with (embedAll (p0 :: ps)).
    intros E. apply lift_Ret_inv in E as [E ->].
    assert (Hu : Forall (fun p => length p = d) (p0 :: ps)).
    { rewrite Forall_forall in *. auto. }
    assert (Hd : 1 <= d).
    { destruct d as [|d']; [|lia]. exfalso.
      apply Forall_cons_iff in Hu as [Hp0 _].
      unfold calculateCentroidPosition in E. cbn [embedAll map] in E.
      rewrite embed_length, Hp0 in E. cbn in E. discriminate. }
    rewrite (@calculateCentroidPosition_ok _ _ d (embedAll (p0 :: ps))) in E.
    + injection E as <-.
      change (embed p0 :: embedAll ps) with (embedAll (p0 :: ps)).
      rewrite meanOf_embed by discriminate.
      exists (rmean (p0 :: ps)). split; [reflexivity|]. split.
      * rewrite rmean_length. cbn [hd]. apply Forall_cons_iff in Hu. tauto.
      * apply rcost_mean_le with (d := d); [discriminate|exact Hu|exact Hrc].
    + discriminate.
    + exact Hd.
    + apply uniform_embedAll. exact Hu.
    + apply noNaN_embedAll.
Qed.

Lemma update_exact (js : list nat) :
  forall (rcs : list (list R)) (a : nat) s ns s',
    Forall (fun c => length c = d) rcs ->
    mapR (newCentroid rnd fuel (embedAll rdata))
         (clustersFrom a (embedAll rcs) (embedAll rdata) js) s = Ret (ns, s') ->
    exists rns,
      ns = embedAll rns /\ Forall (fun c => length c = d) rns /\
      length rns = length rcs /\
      forall j, j < length rcs ->
        (rcost (nth j rns []) (assignedTo (a + j) rdata js)
         <= rcost (nth j rcs []) (assignedTo (a + j) rdata js))%R.
Proof.
  induction rcs as [|c rcs IH]; intros a s ns s' H.
  - cbn [embedAll map clustersFrom mapR]. intros E. inversion E; subst.
    exists []. repeat split; auto. intros j Hj. simpl in Hj. lia.
  - apply Forall_cons_iff in H as [Hc H].
    change (embedAll (c :: rcs)) with (embed c :: embedAll rcs).
    cbn [clustersFrom mapR]. intros E.
    apply bindR_Ret_inv in E as (n & s1 & En & E).
    apply bindR_Ret_inv in E as (ns' & s2 & Ens & E).
    unfold ret in E. injection E as <- <-.
    rewrite assignedTo_embedAll in En.
    apply newCentroid_exact in En as (rn & -> & Hrn & Hle);
      [|apply assignedTo_incl|exact Hc].
    apply IH in Ens as (rns & -> & Hrns & Hlen & Hall); [|exact H].
    exists (rn :: rns). split; [reflexivity|].
    split; [constructor; assumption|]. split; [simpl; lia|].
    intros [|j] Hj; cbn [nth].
    + rewrite Nat.add_0_r. exact Hle.
    + replace (a + S j) with (S a + j) by lia. apply Hall. simpl in Hj. lia.
Qed.

(** One pass of the loop on real points. *)
Lemma pass_exact (tol : xreal) (st : @LoopState xreal) s st1 s1
  (rcs : list (list R)) :
  centroids st = embedAll rcs -> rcs <> [] ->
  Forall (fun c => length c = d) rcs ->
  loopBody rnd fuel (embedAll rdata) tol st s = Ret (st1, s1) ->
  exists js rns,
    Forall2 (fun p j => j < length rcs /\
                        forall i, i < length rcs ->
                          (rsq p (nth j rcs []) <= rsq p (nth i rcs []))%R)
            rdata js /\
    centroids st1 = embedAll rns /\ rns <> [] /\
    Forall (fun c => length c = d) rns /\ length rns = length rcs /\
    (forall j, j < length rcs ->
       (rcost (nth j rns []) (assignedTo j rdata js)
        <= rcost (nth j rcs []) (assignedTo j rdata js))%R) /\
    calculateInertia (clusters st1) = Ret (Fin (rinertia rcs (combine rdata js))).
Proof.
  intros Hc Hne Hu E.
  apply loopBody_Ret_inv in E as (cl & ns & conv & Ea & En & _ & ->).
  rewrite Hc in Ea.
  destruct (assign_exact Hne rdata_uniform Hu) as (js & Ea' & Hnear).
  rewrite Ea' in Ea. injection Ea as <-.
  apply update_exact in En as (rns & -> & Hrns & Hlen & Hle); [|exact Hu].
  exists js, rns. cbn [centroids clusters].
  split; [exact Hnear|]. split; [reflexivity|].
  split; [intros ->; destruct rcs; [congruence|discriminate]|].
  split; [exact Hrns|]. split; [exact Hlen|]. split; [exact Hle|].
  apply calculateInertia_assignment with (d := d); auto.
  apply Forall2_combine in Hnear.
  eapply Forall_impl; [|exact Hnear]. intros pj [H _]. exact H.
Qed.

(** Two passes in a row: the second inertia is at most the first. *)
Lemma lloyd_two_passes (tol : xreal) (st : @LoopState xreal) s st1 s1 st2 s2
  (rcs : list (list R)) :
  centroids st = embedAll rcs -> rcs <> [] ->
  Forall (fun c => length c = d) rcs ->
  loopBody rnd fuel (embedAll rdata) tol st s = Ret (st1, s1) ->
  loopBody rnd fuel (embedAll rdata) tol st1 s1 = Ret (st2, s2) ->
  exists i1 i2 : R,
    calculateInertia (clusters st1) = Ret (Fin i1) /\
    calculateInertia (clusters st2) = Ret (Fin i2) /\
    (i2 <= i1)%R.
Proof.
  intros Hc Hne Hu E1 E2.
  destruct (@pass_exact tol st s st1 s1 rcs Hc Hne Hu E1)
    as (js1 & rns & Hn1 & Hc1 & Hne1 & Hu1 & Hl1 & Hle & Ei1).
  destruct (@pass_exact tol st1 s1 st2 s2 rns Hc1 Hne1 Hu1 E2)
    as (js2 & rns2 & Hn2 & _ & _ & _ & _ & _ & Ei2).
  exists (rinertia rcs (combine rdata js1)), (rinertia rns (combine rdata js2)).
  split; [exact Ei1|]. split; [exact Ei2|].
  assert (Hin1 : Forall2 (fun (p : list R) j => j < length rns) rdata js1).
  { eapply Forall2_impl; [|exact Hn1]. intros p j [H _]. lia. }
  apply Rle_trans with (rinertia rns (combine rdata js1)).
  { apply rinertia_nearest_le; assumption. }
  destruct (@calculateInertia_assignment d rdata rns js1 rdata_uniform Hu1)
    as [_ ->].
  { apply Forall2_combine in Hin1. exact Hin1. }
  destruct (@calculateInertia_assignment d rdata rcs js1 rdata_uniform Hu)
    as [_ ->].
  { apply Forall2_combine in Hn1.
    eapply Forall_impl; [|exact Hn1]. intros pj [H _]. exact H. }
  rewrite Hl1. apply rsum_map_le. intros j Hj. apply in_seq in Hj.
  apply Hle. lia.
Qed.

Lemma iterates_exact (maxIterations : Z) (tol : xreal)
  (st : @LoopState xreal) s st' s' :
  iterates rnd fuel (embedAll rdata) maxIterations tol st s st' s' ->
  forall rcs, centroids st = embedAll rcs -> rcs <> [] ->
    Forall (fun c => length c = d) rcs ->
    exists rcs', centroids st' = embedAll rcs' /\ rcs' <> [] /\
                 Forall (fun c => length c = d) rcs'.
Proof.
  induction 1 as [st s|st s st1 s1 st2 s2 _ Hb _ IH]; intros rcs Hc Hne Hu.
  - exists rcs. auto.
  - destruct (@pass_exact tol st s st1 s1 rcs Hc Hne Hu Hb)
      as (js & rns & _ & Hc1 & Hne1 & Hu1 & _).
    apply (IH rns); assumption.
Qed.

End Update.

Lemma dataAt_In {num : Type} (data : list (list num)) i p :
  dataAt data i = Ret p -> In p data.
Proof.
  unfold dataAt. destruct i as [i|]; [|discriminate].
  destruct (nth_error data i) as [q|] eqn:E; [|discriminate].
  intros H; inversion H; subst. eapply nth_error_In. exact E.
Qed.

Lemma seedLoop_incl {num : Type} {NUM : Number num} (rnd : nat -> num)
  (data : list (list num)) (k : Z) :
  forall fuel cs s cs' s',
    seedLoop rnd fuel data k cs s = Ret (cs', s') ->
    incl cs data -> cs <> [] -> incl cs' data /\ cs' <> [].
Proof.
  induction fuel as [|fuel IH]; intros cs s cs' s'; cbn [seedLoop];
    destruct (Z.of_nat (length cs) <? k)%Z; try discriminate;
    try (intros E; inversion E; subst; auto).
  apply bindR_Ret_inv in E as (ds & s1 & _ & E).
  apply bindR_Ret_inv in E as (r & s2 & _ & E).
  destruct (pickIndex _ _ _ _) as [i|]; [|eauto].
  apply bindR_Ret_inv in E as (p & s3 & Ep & E).
  apply lift_Ret_inv in Ep as [Ep ->]. apply dataAt_In in Ep.
  intros Hin Hne. apply IH in E; auto.
  - apply incl_app; [exact Hin|]. intros x [<-|[]]. exact Ep.
  - destruct cs; discriminate.
Qed.

Lemma initializeCentroids_incl {num : Type} {NUM : Number num} (rnd : nat -> num)
  (fuel : nat) (data : list (list num)) (k : Z) s cs s' :
  initializeCentroidsWithKMeansPlusPlus rnd fuel data k s = Ret (cs, s') ->
  incl cs data /\ cs <> [].
Proof.
  unfold initializeCentroidsWithKMeansPlusPlus. intros E.
  apply bindR_Ret_inv in E as (r & s1 & _ & E).
  apply bindR_Ret_inv in E as (p & s2 & Ep & E).
  apply lift_Ret_inv in Ep as [Ep ->]. apply dataAt_In in Ep.
  apply seedLoop_incl in E; [exact E| |discriminate].
  intros x [<-|[]]. exact Ep.
Qed.

(** C9 (as amended).  In exact arithmetic, on a dataset of points with
    real coordinates of one dimensionality: in a run of [kMeans], whenever
    two passes of the loop complete one after the other, the inertia of the
    clusters of the second is at most the inertia of the clusters of the
    first. *)
Theorem inertia_non_increasing_exact
  (rnd : nat -> xreal) (fuel : nat) (d : nat) (rdata : list (list R))
  (k maxIterations : Z) (tol : xreal) (s : nat)
  (cs : list (list xreal)) (s0 : nat)
  (stp : @LoopState xreal) (sp : nat)
  (st1 : @LoopState xreal) (s1 : nat) (st2 : @LoopState xreal) (s2 : nat) :
  Forall (fun p => length p = d) rdata ->
  initializeCentroidsWithKMeansPlusPlus rnd fuel (embedAll rdata) k s
  = Ret (cs, s0) ->
  iterates rnd fuel (embedAll rdata) maxIterations tol
           (initialState cs) s0 stp sp ->
  loopBody rnd fuel (embedAll rdata) tol stp sp = Ret (st1, s1) ->
  loopBody rnd fuel (embedAll rdata) tol st1 s1 = Ret (st2, s2) ->
  exists i1 i2 : R,
    calculateInertia (clusters st1) = Ret (Fin i1) /\
    calculateInertia (clusters st2) = Ret (Fin i2) /\
    (i2 <= i1)%R.
Proof.
  intros Hu Es Hit E1 E2.
  apply initializeCentroids_incl in Es as [Hin Hne].
  apply incl_embedAll in Hin as (rcs & -> & Hin).
  assert (Hrcs : rcs <> []) by (intros ->; apply Hne; reflexivity).
  assert (Hd : Forall (fun c => length c = d) rcs).
  { rewrite Forall_forall in *. auto. }
  destruct (@iterates_exact rnd fuel d rdata Hu maxIterations tol _ _ _ _ Hit
              rcs eq_refl Hrcs Hd) as (rcs' & Hc & Hne' & Hd').
  exact (@lloyd_two_passes rnd fuel d rdata Hu tol stp sp st1 s1 st2 s2 rcs'
           Hc Hne' Hd' E1 E2).
Qed.

Lemma inertia_non_increasing_exact_witness :
  exists cs s0 st1 s1 st2 s2 (i1 i2 : R),
    initializeCentroidsWithKMeansPlusPlus
      (fun _ => Fin (1 / 2)) 1 (embedAll [[0]; [1]; [5]]%R) 2 0 = Ret (cs, s0) /\
    loopBody (fun _ => Fin (1 / 2)) 1 (embedAll [[0]; [1]; [5]]%R)
             (Fin 0) (initialState cs) s0 = Ret (st1, s1) /\
    loopBody (fun _ => Fin (1 / 2)) 1 (embedAll [[0]; [1]; [5]]%R)
             (Fin 0) st1 s1 = Ret (st2, s2) /\
    calculateInertia (clusters st1) = Ret (Fin i1) /\
    calculateInertia (clusters st2) = Ret (Fin i2) /\
    (i2 <= i1)%R.
Proof.
  pose (rnd := fun _ : nat => Fin (1 / 2)).
  pose (rdata := [[0]; [1]; [5]]%R).
  assert (Hu : Forall (fun p : list R => length p = 1) rdata)
    by (repeat constructor).
  assert (Hne : embedAll rdata <> []) by discriminate.
  assert (Hidx : indexDrawsInRange rnd (embedAll rdata))
    by (apply exact_indices; [exact sample_unitSource|discriminate]).
  assert (Hth : thresholdsReached rnd (embedAll rdata))
    by (apply exact_thresholds; exact sample_unitSource).
  destruct (@initializeCentroids_returns _ _ rnd 1 (embedAll rdata) Hne
              (uniform_embedAll Hu) Hidx Hth 2 1 0)
    as (cs & s0 & Es & Hlen & Hin); [lia|lia|].
  assert (Hcs : cs <> []) by (intros ->; simpl in Hlen; lia).
  destruct (@loopBody_returns _ _ rnd 1 (embedAll rdata)
              (uniform_embedAll Hu) (le_n 1) (noNaN_embedAll rdata) Hidx
              1 (Fin 0) (initialState cs) s0 Hcs
              (uniform_incl (uniform_embedAll Hu) Hin))
    as (st1 & s1 & E1 & Hu1 & Hl1 & _).
  assert (Hc1 : centroids st1 <> []).
  { intros E. rewrite E in Hl1. simpl in Hl1.
    destruct cs; [congruence|discriminate]. }
  destruct (@loopBody_returns _ _ rnd 1 (embedAll rdata)
              (uniform_embedAll Hu) (le_n 1) (noNaN_embedAll rdata) Hidx
              1 (Fin 0) st1 s1 Hc1 Hu1)
    as (st2 & s2 & E2 & _).
  destruct (@inertia_non_increasing_exact rnd 1 1 rdata 2 100 (Fin 0) 0
              cs s0 (initialState cs) s0 st1 s1 st2 s2 Hu Es
              (iterates_done _ _ _ _ _ _ _) E1 E2)
    as (i1 & i2 & H1 & H2 & Hle).
  exists cs, s0, st1, s1, st2, s2, i1, i2. auto 7.
Defined.

Lemma assignment_nearest_exact_witness :
  exists cl js,
    assignPointsToCentroidClusters (embedAll [[0]; [1]; [5]]%R)
                                   (embedAll [[5]; [0]; [0]]%R) = Ret cl /\
    length cl = length [[5]; [0]; [0]]%R /\
    Forall2 (firstNearest [[5]; [0]; [0]]%R) [[0]; [1]; [5]]%R js /\
    (forall j c, nth_error [[5]; [0]; [0]]%R j = Some c ->
       nth_error cl j =
       Some {| centroid := embed c;
               points := embedAll (assignedTo j [[0]; [1]; [5]]%R js) |}).
Proof.
  apply (@assignment_nearest_exact 1 [[0]; [1]; [5]]%R [[5]; [0]; [0]]%R).
  - discriminate.
  - repeat constructor.
  - repeat constructor.
Defined.

End ExactFinite.

(** * Error and edge behaviour *)

(** ** Outcomes of the assignment *)

Section AssignmentOutcomes.

Context {num : Type} {NUM : Number num}.

Local Abbreviation point := (list num).
Local Abbreviation Cluster := (@Cluster num).

Lemma scan_mismatch (p : point) : forall (cs : list point) (a : nat) (st : nat * num),
  Exists (fun c => length p <> length c) cs ->
  foldM (scanStep p) (combine (seq a (length cs)) cs) st = Throw DistanceDimensions.
Proof.
  induction cs as [|c cs IH]; intros a st Hex; [inversion Hex|].
  cbn [length seq combine foldM]. unfold scanStep at 1. cbn [snd fst].
  unfold euclideanDistance.
  destruct (Nat.eqb_spec (length p) (length c)) as [E|E]; cbn [negb bind].
  - apply IH. inversion Hex; subst; [contradiction|assumption].
  - reflexivity.
Qed.

Lemma nearestIndex_mismatch (p : point) (cs : list point) :
  Exists (fun c => length p <> length c) cs ->
  nearestIndex p cs = Throw DistanceDimensions.
Proof.
  intros Hex. destruct cs as [|c0 cs]; [inversion Hex|].
  unfold nearestIndex, euclideanDistance at 1.
  destruct (Nat.eqb_spec (length p) (length c0)) as [E|E]; cbn [negb bind];
    [|reflexivity].
  unfold indexed. rewrite (@scan_mismatch p (c0 :: cs) 0 _ Hex). reflexivity.
Qed.

Lemma agree_or_mismatch (p : point) (cs : list point) :
  Forall (fun c => length p = length c) cs \/
  Exists (fun c => length p <> length c) cs.
Proof.
  induction cs as [|c cs [IH|IH]]; auto.
  destruct (Nat.eq_dec (length p) (length c)); auto.
Qed.

Lemma assign_fold_mismatch (cs : list point) : forall (data : list point) cl0,
  cs <> [] -> ~ dimensionsAgree data cs ->
  foldM (fun clusters p =>
           j <- nearestIndex p cs ;; Ret (pushPoint clusters j p))
        data cl0 = Throw DistanceDimensions.
Proof.
  induction data as [|p data IH]; intros cl0 Hne Hno.
  - exfalso. apply Hno. intros p c [].
  - cbn [foldM]. destruct (agree_or_mismatch p cs) as [Hall|Hex].
    + destruct (@nearestIndex_returns _ _ (length p) p cs Hne eq_refl) as [j Ej].
      { unfold uniform. eapply Forall_impl; [|exact Hall]. intros c E; auto. }
      rewrite Ej. cbn [bind]. apply IH; [exact Hne|].
      intros Hag. apply Hno. intros q c [<-|Hq] Hc.
      * rewrite Forall_forall in Hall. auto.
      * auto.
    + rewrite (@nearestIndex_mismatch p cs Hex). reflexivity.
Qed.

(** X1.  The outcomes of the assignment.  Without points it returns the
    clusters of the centroids, all empty, whatever the centroids are; with
    points and no centroid it fails on [centroids[0]]; with at least one
    centroid it returns exactly when every point has the dimensionality of
    every centroid, and throws the error of [euclideanDistance] otherwise. *)
Theorem assignment_outcomes (data cs : list point) :
  (data = [] -> assignPointsToCentroidClusters data cs = Ret (emptyClusters cs)) /\
  (data <> [] -> cs = [] ->
   assignPointsToCentroidClusters data cs = Throw TypeError) /\
  (cs <> [] -> dimensionsAgree data cs ->
   exists cl, assignPointsToCentroidClusters data cs = Ret cl) /\
  (cs <> [] -> ~ dimensionsAgree data cs ->
   assignPointsToCentroidClusters data cs = Throw DistanceDimensions).
Proof.
  repeat split.
  - intros ->. reflexivity.
  - intros Hd ->. destruct data as [|p data]; [congruence|]. reflexivity.
  - intros Hne Hag. unfold assignPointsToCentroidClusters.
    apply foldM_total. intros cl p Hp.
    destruct (@nearestIndex_returns _ _ (length p) p cs Hne eq_refl) as [j Ej].
    { unfold uniform. apply Forall_forall. intros c Hc. symmetry. auto. }
    rewrite Ej. cbn [bind]. eauto.
  - intros Hne Hno. apply assign_fold_mismatch; assumption.
Qed.

End AssignmentOutcomes.

(** ** Repeated centroids *)

Section RepeatedCentroids.

Context {num : Type} {NUM : Number num}.

Local Abbreviation point := (list num).
Local Abbreviation Cluster := (@Cluster num).

(** The scan moves to a centroid only on a strictly smaller distance, so
    the index it keeps is never that of a centroid seen before. *)
Lemma scan_skips_repeats (OL : OrderLaws) (p : point) :
  forall (cs pre : list point) (j : nat) (m : num) j' m',
    (forall c, In c pre ->
       exists d, euclideanDistance p c = Ret d /\ nltb d m = false) ->
    (forall i c, i < j -> nth_error (pre ++ cs) i = Some c ->
                 nth_error (pre ++ cs) j <> Some c) ->
    foldM (scanStep p) (combine (seq (length pre) (length cs)) cs) (j, m)
    = Ret (j', m') ->
    forall i c, i < j' -> nth_error (pre ++ cs) i = Some c ->
                nth_error (pre ++ cs) j' <> Some c.
Proof.
  induction cs as [|c0 cs IH]; intros pre j m j' m' Hpre Hj.
  - simpl. intros E; inversion E; subst. exact Hj.
  - cbn [length seq combine foldM]. intros E.
    apply bind_Ret_inv in E as (st & Est & E).
    unfold scanStep in Est at 1. cbn [fst snd] in Est.
    apply bind_Ret_inv in Est as (d & Ed & Est). inversion Est; subst st.
    clear Est.
    replace (pre ++ c0 :: cs) with ((pre ++ [c0]) ++ cs) in *
      by (rewrite <- app_assoc; reflexivity).
    replace (S (length pre)) with (length (pre ++ [c0])) in E
      by (rewrite length_app; simpl; lia).
    destruct (nltb d m) eqn:Edm.
    + apply (IH _ _ _ _ _) with (3 := E).
      * intros c Hc. apply in_app_or in Hc as [Hc|[Hc|[]]].
        -- destruct (Hpre c Hc) as (dc & Edc & Hdc). exists dc.
           split; [exact Edc|].
           destruct (nltb dc d) eqn:Ec; [|reflexivity].
           pose proof (lt_trans _ _ _ Ec Edm) as Hm.
           rewrite Hdc in Hm. discriminate.
        -- subst c. exists d. split; [exact Ed|apply lt_irrefl].
      * intros i c Hi Hc Hn.
        rewrite nth_error_app1 in Hc by (rewrite length_app; simpl; lia).
        rewrite nth_error_app1 in Hc by assumption.
        rewrite nth_error_app1 in Hn by (rewrite length_app; simpl; lia).
        rewrite nth_error_app2 in Hn by lia.
        rewrite Nat.sub_diag in Hn. simpl in Hn. inversion Hn; subst c.
        destruct (Hpre c0 (nth_error_In _ _ Hc)) as (dc & Edc & Hdc).
        rewrite Ed in Edc. inversion Edc; subst dc.
        rewrite Edm in Hdc. discriminate.
    + apply (IH _ _ _ _ _) with (3 := E).
      * intros c Hc. apply in_app_or in Hc as [Hc|[Hc|[]]].
        -- exact (Hpre c Hc).
        -- subst c. exists d. split; assumption.
      * exact Hj.
Qed.

Lemma nearestIndex_skips_repeats (OL : OrderLaws) (p : point)
  (cs : list point) (i j : nat) (c : point) :
  nearestIndex p cs = Ret j -> i < j -> nth_error cs i = Some c ->
  nth_error cs j <> Some c.
Proof.
  intros E. destruct cs as [|c0 cs]; [discriminate|].
  unfold nearestIndex in E.
  apply bind_Ret_inv in E as (d0 & E0 & E).
  apply bind_Ret_inv in E as ([j' m'] & Ef & E). inversion E; subst j'.
  unfold indexed in Ef.
  apply (@scan_skips_repeats OL p (c0 :: cs) [] 0 d0 j m'); auto.
  - intros ? [].
  - intros ? ? Hlt. lia.
Qed.

Lemma pushPoint_other (cl : list Cluster) (j j' : nat) (p : point) :
  j' <> j -> nth_error (pushPoint cl j' p) j = nth_error cl j.
Proof.
  revert j j'. induction cl as [|c cl IH]; intros j j' H; [destruct j'; reflexivity|].
  destruct j' as [|j'], j as [|j]; simpl; try reflexivity; try lia.
  apply IH. lia.
Qed.

Lemma emptyClusters_nth (cs : list point) (j : nat) (c : point) :
  nth_error cs j = Some c ->
  nth_error (emptyClusters cs) j = Some {| centroid := c; points := [] |}.
Proof.
  intros E. unfold emptyClusters. rewrite nth_error_map, E. reflexivity.
Qed.

(** X2.  A centroid that repeats an earlier one receives no point: a point
    moves to a centroid only when it is strictly nearer, so of several equal
    centroids the first takes the points and the cluster of each later one
    is returned empty. *)
Theorem repeated_centroid_gets_no_point (OL : OrderLaws)
  (data cs : list point) (clusters : list Cluster) (i j : nat) (c : point) :
  assignPointsToCentroidClusters data cs = Ret clusters ->
  i < j -> nth_error cs i = Some c -> nth_error cs j = Some c ->
  nth_error clusters j = Some {| centroid := c; points := [] |}.
Proof.
  intros E Hij Hi Hj. unfold assignPointsToCentroidClusters in E.
  pose proof (emptyClusters_nth cs j Hj) as H0.
  revert E H0. generalize (emptyClusters cs). 
  induction data as [|p data IH]; intros cl0; cbn [foldM].
  - intros E H0. inversion E; subst. exact H0.
  - intros E H0. apply bind_Ret_inv in E as (cl1 & E1 & E).
    apply bind_Ret_inv in E1 as (j' & Ej & E1). inversion E1; subst cl1.
    apply (IH _ E). rewrite pushPoint_other; [exact H0|].
    intros ->. exact (nearestIndex_skips_repeats OL p cs Ej Hij Hi Hj).
Qed.

End RepeatedCentroids.

(** ** The least computed distance *)

Section LeastComputed.

Context {num : Type} {NUM : Number num}.

Local Abbreviation point := (list num).
Local Abbreviation Cluster := (@Cluster num).

Lemma Forall2_impl_In {A B : Type} (P Q : A -> B -> Prop) (l : list A)
  (l' : list B) :
  Forall2 P l l' -> (forall a b, In a l -> P a b -> Q a b) -> Forall2 Q l l'.
Proof.
  induction 1 as [|a b l l' Hab _ IH]; intros H; constructor.
  - apply H; [left; reflexivity|exact Hab].
  - apply IH. intros a' b' Hin. apply H. right. exact Hin.
Qed.

Lemma distancesTo_nth (p : point) (cs : list point) (ds : list num) :
  distancesTo p cs ds ->
  forall i c, nth_error cs i = Some c ->
    nth_error ds i = Some (distanceSpec p c).
Proof.
  unfold distancesTo.
  induction 1 as [|c0 d0 cs ds E _ IH]; intros [|i] c Hc; simpl in Hc;
    try discriminate.
  - inversion Hc; subst. apply euclideanDistance_distanceSpec in E as [_ ->].
    reflexivity.
  - simpl. apply IH. exact Hc.
Qed.

Lemma isFirstMinimum_firstLeastComputed (cs : list point) (p : point) (j : nat) :
  isFirstMinimum cs p j -> firstLeastComputed cs p j.
Proof.
  intros (ds & dj & Hds & Hj & H1 & H2).
  assert (Hcj : exists cj, nth_error cs j = Some cj).
  { destruct (nth_error cs j) as [cj|] eqn:Ej; [eauto|].
    apply nth_error_None in Ej. unfold distancesTo in Hds.
    apply Forall2_length in Hds.
    assert (j < length ds) by (apply nth_error_Some; congruence). lia. }
  destruct Hcj as (cj & Ecj). exists cj. split; [exact Ecj|].
  pose proof (distancesTo_nth Hds _ Ecj) as Hdj.
  rewrite Hj in Hdj. inversion Hdj; subst dj. split.
  - intros i c Hc. exact (H1 i _ (distancesTo_nth Hds _ Hc)).
  - intros i c Hi Hc. exact (H2 i _ Hi (distancesTo_nth Hds _ Hc)).
Qed.

(** X30.  The assignment on computed distances, as for doubles.  With
    centroids and points of one dimensionality, at least one centroid, and
    no computed distance that is NaN: each point goes to the first centroid
    whose computed distance (the square root of the sum of the squared
    coordinate differences, in the program's arithmetic) is least; the
    clusters are those of the centroids, in their order, and each holds its
    points in the order of the dataset. *)
Theorem assignment_least_computed_distance (OL : OrderLaws)
  (d : nat) (data cs : list point) :
  cs <> [] -> uniform d data -> uniform d cs ->
  (forall p c, In p data -> In c cs -> nisNaN (distanceSpec p c) = false) ->
  exists cl js,
    assignPointsToCentroidClusters data cs = Ret cl /\
    length cl = length cs /\
    Forall2 (firstLeastComputed cs) data js /\
    (forall j c, nth_error cs j = Some c ->
       nth_error cl j =
       Some {| centroid := c; points := assignedTo j data js |}).
Proof.
  intros Hne Hdata Hcs Hnan.
  destruct (assign_clustersFrom OL Hne Hdata Hcs) as (js & Hjs & Ea).
  exists (clustersFrom 0 cs data js), js. split; [exact Ea|].
  split; [apply clustersFrom_length|]. split.
  - eapply Forall2_impl_In; [exact Hjs|]. cbv beta. intros p j Hp [_ Hn].
    apply isFirstMinimum_firstLeastComputed.
    apply (isNearest_isFirstMinimum OL Hn).
    intros c dc Hc Ec. apply euclideanDistance_distanceSpec in Ec as [_ ->].
    apply Hnan; assumption.
  - intros j c Hc. exact (@clustersFrom_nth _ cs 0 data js j c Hc).
Qed.

End LeastComputed.

(** ** Outcomes of the centroid computation *)

Section MeanOutcomes.

Context {num : Type} {NUM : Number num}.

Local Abbreviation point := (list num).

Lemma addCoordinates_firstNaN (p : point) : forall (mean : point) (i j : nat),
  firstNaN p i = Some j ->
  addCoordinates mean p i = Throw (InvalidCoordinate j).
Proof.
  induction p as [|v p IH]; intros mean i j; cbn [firstNaN addCoordinates];
    [discriminate|].
  destruct (nisNaN v); [intros E; inversion E; reflexivity|].
  intros E. rewrite (IH (tl mean) (S i) j E). reflexivity.
Qed.

Lemma addCoordinates_Ret_noNaN (p : point) : forall (mean : point) (i : nat) r,
  addCoordinates mean p i = Ret r -> Forall (fun x => nisNaN x = false) p.
Proof.
  induction p as [|v p IH]; intros mean i r; cbn [addCoordinates];
    [constructor|].
  destruct (nisNaN v) eqn:Ev; [discriminate|]. intros E.
  apply bind_Ret_inv in E as (t & Et & _). constructor; [exact Ev|eauto].
Qed.

(** The sums are returned only for points of the expected dimensionality
    without NaN. *)
Lemma sum_fold_Ret_inv (d : nat) : forall (pts : list point) (mean r : point),
  length mean = d ->
  foldM (fun mean p =>
           if negb (length p =? d)
           then Throw (PointDimension d (length p))
           else addCoordinates mean p 0)
        pts mean = Ret r ->
  uniform d pts /\ noNaN pts.
Proof.
  induction pts as [|p pts IH]; intros mean r Hm; cbn [foldM].
  - intros _. split; constructor.
  - destruct (Nat.eqb_spec (length p) d) as [Hp|Hp]; cbn [negb];
      [|discriminate].
    intros E. apply bind_Ret_inv in E as (mean' & Ea & E).
    assert (Hm' : length mean' = d).
    { rewrite <- Hp. eapply addCoordinates_length; [|exact Ea]. congruence. }
    destruct (IH mean' r Hm' E) as [Hu Hn].
    split; constructor; auto.
    eapply addCoordinates_Ret_noNaN. exact Ea.
Qed.

Lemma calculateCentroidPosition_unfold (pts : list point) :
  pts <> [] -> 1 <= length (hd [] pts) ->
  calculateCentroidPosition pts =
  (mean <- foldM (fun mean p =>
                    if negb (length p =? length (hd [] pts))
                    then Throw (PointDimension (length (hd [] pts)) (length p))
                    else addCoordinates mean p 0)
                 pts (repeat nzero (length (hd [] pts))) ;;
   Ret (map (fun value => ndiv value (nof_nat (length pts))) mean)).
Proof.
  intros Hne Hd. destruct pts as [|p0 pts]; [congruence|].
  unfold calculateCentroidPosition. cbn [hd] in *.
  replace (length p0 <? 1) with false by (symmetry; apply Nat.ltb_ge; lia).
  reflexivity.
Qed.

Lemma hd_app_cons {A : Type} (pre : list A) (p : A) (post : list A) (def : A) :
  hd def (pre ++ p :: post) = hd p pre.
Proof. destruct pre; reflexivity. Qed.

(** The sums up to the first point that is refused. *)
Lemma sum_fold_offender (d : nat) (pre : list point) (p : point)
  (post : list point) (e : error) :
  uniform d pre -> noNaN pre ->
  (forall mean, length mean = d ->
     (if negb (length p =? d)
      then Throw (PointDimension d (length p))
      else addCoordinates mean p 0) = Throw e) ->
  foldM (fun mean p =>
           if negb (length p =? d)
           then Throw (PointDimension d (length p))
           else addCoordinates mean p 0)
        (pre ++ p :: post) (repeat nzero d) = Throw e.
Proof.
  intros Hu Hn Hp. rewrite foldM_app.
  rewrite (@sum_fold_ok _ _ d pre (repeat nzero d) Hu Hn (repeat_length _ _)).
  cbn [bind foldM]. rewrite Hp; [reflexivity|].
  rewrite length_map, length_seq. reflexivity.
Qed.

Lemma calculateCentroidPosition_Ret_inv (pts : list point) (m : point) :
  calculateCentroidPosition pts = Ret m ->
  pts <> [] /\ 1 <= length m /\ uniform (length m) pts /\ noNaN pts /\
  m = meanOf pts.
Proof.
  intros E. assert (Hne : pts <> []) by (intros ->; discriminate).
  assert (Hd : 1 <= length (hd [] pts)).
  { destruct pts as [|p0 pts]; [congruence|].
    unfold calculateCentroidPosition in E. cbn [hd].
    destruct (Nat.ltb_spec (length p0) 1); [discriminate|assumption]. }
  pose proof E as E'. rewrite (calculateCentroidPosition_unfold Hne Hd) in E'.
  apply bind_Ret_inv in E' as (mean & Ef & _).
  apply sum_fold_Ret_inv in Ef as [Hu Hn]; [|apply repeat_length].
  rewrite (calculateCentroidPosition_ok Hne Hd Hu Hn) in E.
  inversion E; subst m. rewrite meanOf_length. auto.
Qed.

(** X3.  What the centroid computation returns.  It returns a value only
    for a non-empty array of points of one dimensionality, at least 1,
    without NaN coordinate; the value is then the coordinate-wise mean, of
    that dimensionality. *)
Theorem calculateCentroidPosition_returns_only_mean (pts : list point) (m : point) :
  calculateCentroidPosition pts = Ret m ->
  pts <> [] /\ 1 <= length m /\ uniform (length m) pts /\ noNaN pts /\
  m = meanOf pts.
Proof. apply calculateCentroidPosition_Ret_inv. Qed.

(** X4.  Which error the centroid computation throws.  An empty array is
    refused first, then a first point without coordinates.  After that the
    points are visited in order: the first point that differs in
    dimensionality from the first one, or holds a NaN, decides; the error
    names the two dimensionalities, or the index of the first NaN
    coordinate of that point. *)
Theorem calculateCentroidPosition_first_offender :
  calculateCentroidPosition (@nil point) = Throw EmptyCluster /\
  (forall rest : list point,
      calculateCentroidPosition ([] :: rest) = Throw NoDimension) /\
  (forall (pre : list point) (p : point) (post : list point),
      1 <= length (hd p pre) ->
      uniform (length (hd p pre)) pre -> noNaN pre ->
      length p <> length (hd p pre) ->
      calculateCentroidPosition (pre ++ p :: post) =
      Throw (PointDimension (length (hd p pre)) (length p))) /\
  (forall (pre : list point) (p : point) (post : list point) (i : nat),
      1 <= length (hd p pre) ->
      uniform (length (hd p pre)) pre -> noNaN pre ->
      length p = length (hd p pre) ->
      firstNaN p 0 = Some i ->
      calculateCentroidPosition (pre ++ p :: post) =
      Throw (InvalidCoordinate i)).
Proof.
  split; [reflexivity|]. split; [reflexivity|]. split.
  - intros pre p post Hd Hu Hn Hp.
    rewrite calculateCentroidPosition_unfold;
      rewrite ?hd_app_cons; [|destruct pre; discriminate|exact Hd].
    rewrite (@sum_fold_offender (length (hd p pre)) pre p post
               (PointDimension (length (hd p pre)) (length p)) Hu Hn);
      [reflexivity|].
    intros mean _. apply Nat.eqb_neq in Hp. rewrite Hp. reflexivity.
  - intros pre p post i Hd Hu Hn Hp Hi.
    rewrite calculateCentroidPosition_unfold;
      rewrite ?hd_app_cons; [|destruct pre; discriminate|exact Hd].
    rewrite (@sum_fold_offender (length (hd p pre)) pre p post
               (InvalidCoordinate i) Hu Hn); [reflexivity|].
    intros mean _. rewrite Hp, Nat.eqb_refl. cbn [negb].
    apply addCoordinates_firstNaN. exact Hi.
Qed.

End MeanOutcomes.

Lemma mapR_Forall {A B : Type} (Q : B -> Prop) (f : A -> rand B) (l : list A) :
  (forall a s b s', In a l -> f a s = Ret (b, s') -> Q b) ->
  forall s bs s', mapR f l s = Ret (bs, s') -> Forall Q bs.
Proof.
  induction l as [|a l IH]; intros Hf s bs s'; cbn [mapR].
  - intros E; inversion E; constructor.
  - intros E. apply bindR_Ret_inv in E as (b & s1 & Eb & E).
    apply bindR_Ret_inv in E as (bs' & s2 & Ebs & E).
    inversion E; subst. constructor.
    + eapply Hf; [left; reflexivity|exact Eb].
    + eapply IH; [|exact Ebs]. intros; eapply Hf; [right|]; eauto.
Qed.

(** ** Dimensions of the clusters, and the scoring *)

Section Dimensions.

Context {num : Type} {NUM : Number num}.
Variable rnd : nat -> num.

Local Abbreviation point := (list num).
Local Abbreviation Cluster := (@Cluster num).
Local Abbreviation LoopState := (@LoopState num).

Lemma clusterInertia_returns (c : Cluster) :
  Forall (fun p => length p = length (centroid c)) (points c) ->
  exists i, clusterInertia c = Ret i.
Proof.
  intros H. unfold clusterInertia. apply foldM_total. intros b p Hp.
  rewrite Forall_forall in H. rewrite euclideanDistance_Ret by auto.
  cbn [bind]. eauto.
Qed.

Lemma clusterInertia_mismatch (c : Cluster) :
  Exists (fun p => length p <> length (centroid c)) (points c) ->
  clusterInertia c = Throw DistanceDimensions.
Proof.
  unfold clusterInertia. generalize (@nzero num NUM).
  induction (points c) as [|p pts IH]; intros b Hex; [inversion Hex|].
  cbn [foldM]. unfold euclideanDistance at 1.
  destruct (Nat.eqb_spec (length p) (length (centroid c))) as [E|E];
    cbn [negb bind]; [|reflexivity].
  apply IH. inversion Hex; subst; [contradiction|assumption].
Qed.

Lemma cluster_agrees_or_not (c : Cluster) :
  Forall (fun p => length p = length (centroid c)) (points c) \/
  Exists (fun p => length p <> length (centroid c)) (points c).
Proof.
  induction (points c) as [|p pts [IH|IH]]; auto.
  destruct (Nat.eq_dec (length p) (length (centroid c))); auto.
Qed.

Lemma calculateInertia_returns (cl : list Cluster) :
  Forall (fun c => Forall (fun p => length p = length (centroid c)) (points c)) cl ->
  exists i, calculateInertia cl = Ret i.
Proof.
  intros H. unfold calculateInertia. apply foldM_total. intros b c Hc.
  rewrite Forall_forall in H.
  destruct (clusterInertia_returns c (H c Hc)) as (i & ->). cbn [bind]. eauto.
Qed.

Lemma calculateInertia_mismatch (cl : list Cluster) :
  Exists (fun c => Exists (fun p => length p <> length (centroid c)) (points c)) cl ->
  calculateInertia cl = Throw DistanceDimensions.
Proof.
  unfold calculateInertia. generalize (@nzero num NUM).
  induction cl as [|c cl IH]; intros b Hex; [inversion Hex|].
  cbn [foldM]. destruct (cluster_agrees_or_not c) as [Hc|Hc].
  - destruct (clusterInertia_returns c Hc) as (i & ->). cbn [bind].
    apply IH. inversion Hex as [? ? Hx|]; subst; [|assumption].
    exfalso. rewrite Forall_forall in Hc. apply Exists_exists in Hx as (p & Hp & Hn).
    auto.
  - rewrite (clusterInertia_mismatch c Hc). reflexivity.
Qed.

(** X5.  The scoring of clusters returns a number exactly when every point
    of every cluster has the dimensionality of the centroid of its cluster;
    otherwise it throws the error of [euclideanDistance].  Clusters without
    points, and no cluster at all, are scored. *)
Theorem calculateInertia_outcomes (cl : list Cluster) :
  ((exists i, calculateInertia cl = Ret i) <->
   Forall (fun c => Forall (fun p => length p = length (centroid c)) (points c)) cl) /\
  (calculateInertia cl = Throw DistanceDimensions <->
   Exists (fun c => Exists (fun p => length p <> length (centroid c)) (points c)) cl).
Proof.
  assert (Hdec :
    Forall (fun c => Forall (fun p => length p = length (centroid c)) (points c)) cl \/
    Exists (fun c => Exists (fun p => length p <> length (centroid c)) (points c)) cl).
  { induction cl as [|c cl [IH|IH]]; auto.
    destruct (cluster_agrees_or_not c); auto. }
  split; split.
  - intros (i & E). destruct Hdec as [H|H]; [exact H|].
    rewrite (calculateInertia_mismatch H) in E. discriminate.
  - apply calculateInertia_returns.
  - intros E. destruct Hdec as [H|H]; [|exact H].
    destruct (calculateInertia_returns H) as (i & E'). congruence.
  - apply calculateInertia_mismatch.
Qed.

Section OneDimension.

Variable d : nat.
Variable data : list point.
Hypothesis data_uniform : uniform d data.

Lemma newCentroid_dimension (fuel : nat) (c : Cluster) s n s' :
  uniform d (points c) ->
  newCentroid rnd fuel data c s = Ret (n, s') -> length n = d.
Proof.
  intros Hu. unfold newCentroid. destruct (points c) as [|p pts] eqn:Ep.
  - intros E. apply bindR_Ret_inv in E as (cs & s1 & Ei & E).
    apply reseed_inv in Ei as (q & -> & Hq). inversion E; subst.
    unfold uniform in data_uniform. rewrite Forall_forall in data_uniform. auto.
  - intros E. apply lift_Ret_inv in E as [E _].
    apply calculateCentroidPosition_Ret_inv in E as (_ & _ & Hum & _ & _).
    inversion Hu; subst. inversion Hum; subst. congruence.
Qed.

(** One pass keeps the centroids in dimension [d] and builds clusters of
    dimension [d]. *)
Lemma loopBody_dimension (fuel : nat) (tol : num) (st : LoopState) s st' s' :
  uniform d (centroids st) ->
  loopBody rnd fuel data tol st s = Ret (st', s') ->
  uniform d (centroids st') /\ Forall (clusterOfDimension d) (clusters st') /\
  length (centroids st') = length (centroids st).
Proof.
  intros Hu E. apply loopBody_Ret_inv in E as (cl & ns & conv & Ea & En & _ & ->).
  cbn [centroids clusters].
  pose proof (assign_partition _ _ Ea) as (Hl & Hc & Hp).
  assert (Hcl : Forall (clusterOfDimension d) cl).
  { apply Forall_forall. intros c Hc0. split.
    - unfold uniform in Hu. rewrite Forall_forall in Hu. apply Hu.
      rewrite <- Hc. apply in_map. exact Hc0.
    - eapply uniform_incl; [exact data_uniform|].
      eapply cluster_points_incl; eauto. }
  split; [|split; [exact Hcl|]].
  - eapply mapR_Forall; [|exact En]. intros c s0 n s1 Hc0 E0.
    eapply newCentroid_dimension; [|exact E0].
    rewrite Forall_forall in Hcl. apply Hcl. exact Hc0.
  - apply mapR_length in En. congruence.
Qed.

Lemma iterates_dimension (fuel : nat) (maxIterations : Z) (tol : num)
  (st : LoopState) s st' s' :
  iterates rnd fuel data maxIterations tol st s st' s' ->
  uniform d (centroids st) -> Forall (clusterOfDimension d) (clusters st) ->
  uniform d (centroids st') /\ Forall (clusterOfDimension d) (clusters st') /\
  length (centroids st') = length (centroids st).
Proof.
  induction 1 as [st s|st s st1 s1 st2 s2 _ E _ IH]; intros Hu Hc; [auto|].
  apply (loopBody_dimension _ _ _ _ Hu) in E as (Hu1 & Hc1 & Hl1).
  destruct (IH Hu1 Hc1) as (Hu2 & Hc2 & Hl2). repeat split; auto. congruence.
Qed.

Lemma kMeans_dimension (fuel : nat) (k maxIterations : Z) (tol : num) s cl sf :
  kMeans rnd fuel data k maxIterations tol s = Ret (cl, sf) ->
  Forall (clusterOfDimension d) cl.
Proof.
  intros E. apply kMeans_Ret_inv in E as (_ & cs & s0 & stf & Es & Ew & ->).
  apply initializeCentroids_incl in Es as [Hin _].
  apply whileLoop_iterates in Ew as [Hit _]; [|simpl; lia].
  apply iterates_dimension in Hit as (_ & H & _); [exact H| |constructor].
  simpl. eapply uniform_incl; eauto.
Qed.

End OneDimension.

Lemma kMeans_scored (fuel : nat) (data : list point) (k maxIterations : Z)
  (tol : num) s cl sf :
  kMeans rnd fuel data k maxIterations tol s = Ret (cl, sf) ->
  exists i, calculateInertia cl = Ret i.
Proof.
  intros E. pose proof E as E'.
  apply kMeans_Ret_inv in E' as ((_ & _ & d & Hu) & _).
  apply calculateInertia_returns.
  eapply Forall_impl; [|exact (kMeans_dimension Hu _ _ _ _ _ E)].
  intros c [Hc Hp]. eapply Forall_impl; [|exact Hp]. intros p Hl. congruence.
Qed.

(** X6.  Whatever [kMeans] returns on a dataset of dimensionality [d], every
    cluster has a centroid of [d] coordinates and points of [d]
    coordinates, so that the scoring of the clusters returns a number. *)
Theorem kMeans_clusters_dimension (d : nat) (fuel : nat) (data : list point)
  (k maxIterations : Z) (tol : num) (s : nat) (cl : list Cluster) (sf : nat) :
  uniform d data ->
  kMeans rnd fuel data k maxIterations tol s = Ret (cl, sf) ->
  Forall (clusterOfDimension d) cl /\ exists i, calculateInertia cl = Ret i.
Proof.
  intros Hu E. split.
  - exact (kMeans_dimension Hu _ _ _ _ _ E).
  - exact (kMeans_scored _ _ _ _ _ _ E).
Qed.

End Dimensions.

(** ** The best of several runs *)

Section BestOfRuns.

Context {num : Type} {NUM : Number num}.
Variable rnd : nat -> num.

Local Abbreviation point := (list num).
Local Abbreviation Cluster := (@Cluster num).

Variable fuel : nat.
Variable data : list point.
Variables k maxIterations : Z.
Variable tol : num.

(** X7.  The wrapper has no validation of its own.  Without a run
    ([numRuns <= 0]) it returns the empty array for every input, valid or
    not, and draws no random value; with at least one run, an input that
    the validation of [kMeans] refuses is refused by the first run, with
    the error of the validation. *)
Theorem runKMeans_validation (numRuns : Z) :
  ((numRuns <= 0)%Z ->
   forall s,
     runKMeansWithOptimalInertia rnd fuel data k maxIterations tol numRuns s
     = Ret ([], s)) /\
  ((1 <= numRuns)%Z ->
   forall e, validate data k = Throw e ->
   forall s,
     runKMeansWithOptimalInertia rnd fuel data k maxIterations tol numRuns s
     = Throw e).
Proof.
  split.
  - intros H s. apply runKMeans_no_runs. exact H.
  - intros H e Ev s. unfold runKMeansWithOptimalInertia.
    destruct (Z.to_nat numRuns) as [|n] eqn:En; [lia|].
    cbn [bestOfRuns]. unfold bindR at 1.
    rewrite (kMeans_validation_Throw rnd fuel data k maxIterations tol s Ev).
    reflexivity.
Qed.

(** The loop over completed runs: the retained clusters are the initial
    ones when no run is strictly below the initial inertia, and otherwise
    those of a run that no run is strictly below, and that every earlier
    run is not as low as. *)
Lemma bestOfRuns_completed (OL : OrderLaws) s rs s' :
  completedRuns rnd fuel data k maxIterations tol s rs s' ->
  forall (best0 : list Cluster) (bestI0 : num),
  exists best,
    bestOfRuns rnd (length rs) fuel data k maxIterations tol best0 bestI0 s
    = Ret (best, s') /\
    ((best = best0 /\ Forall (fun r => nltb (snd r) bestI0 = false) rs) \/
     exists j i,
       nth_error rs j = Some (best, i) /\
       nltb i bestI0 = true /\
       (forall j' r, nth_error rs j' = Some r -> nltb (snd r) i = false) /\
       (forall j' r, j' < j -> nth_error rs j' = Some r ->
                     ngeb i (snd r) = false)).
Proof.
  induction 1 as [s|s cl s1 inertia rs s' Ek Ei _ IH]; intros best0 bestI0.
  - exists best0. split; [reflexivity|]. left. split; [reflexivity|constructor].
  - cbn [length]. rewrite (bestOfRuns_step rnd _ _ _ _ _ _ _ _ _ Ek Ei).
    destruct (nltb inertia bestI0) eqn:Elt.
    + destruct (IH cl inertia) as (best & Eb & [[-> Hall]|(j & i & Hj & Hi & Hlow & Hearly)]).
      * exists cl. split; [exact Eb|]. right. exists 0, inertia.
        split; [reflexivity|]. split; [exact Elt|]. split.
        -- intros [|j'] r Hr; cbn [nth_error] in Hr.
           ++ inversion Hr; subst. apply lt_irrefl.
           ++ rewrite Forall_forall in Hall. apply Hall.
              eapply nth_error_In; eauto.
        -- intros j' r Hlt; lia.
      * exists best. split; [exact Eb|]. right. exists (S j), i.
        split; [exact Hj|]. split; [eapply lt_trans; eauto|]. split.
        -- intros [|j'] r Hr; cbn [nth_error] in Hr; [|eauto].
           inversion Hr; subst. cbn [snd].
           destruct (nltb inertia i) eqn:E; [|reflexivity].
           rewrite <- (lt_irrefl i). symmetry. eapply lt_trans; eauto.
        -- intros [|j'] r Hlt Hr; cbn [nth_error] in Hr;
             [|apply (Hearly j'); [lia|exact Hr]].
           inversion Hr; subst. cbn [snd].
           destruct (ngeb i inertia) eqn:E; [|reflexivity].
           rewrite <- (lt_irrefl inertia). symmetry.
           eapply le_lt_trans; eauto.
    + destruct (IH best0 bestI0) as (best & Eb & [[-> Hall]|(j & i & Hj & Hi & Hlow & Hearly)]).
      * exists best0. split; [exact Eb|]. left. split; [reflexivity|].
        constructor; [exact Elt|exact Hall].
      * exists best. split; [exact Eb|]. right. exists (S j), i.
        split; [exact Hj|]. split; [exact Hi|]. split.
        -- intros [|j'] r Hr; cbn [nth_error] in Hr; [|eauto].
           inversion Hr; subst. cbn [snd].
           destruct (nltb inertia i) eqn:E; [|reflexivity].
           rewrite <- Elt. symmetry. eapply lt_trans; eauto.
        -- intros [|j'] r Hlt Hr; cbn [nth_error] in Hr;
             [|apply (Hearly j'); [lia|exact Hr]].
           inversion Hr; subst. cbn [snd].
           destruct (ngeb i inertia) eqn:E; [|reflexivity].
           rewrite <- Elt. symmetry. eapply le_lt_trans; eauto.
Qed.

(** X8.  Which run is retained.  When the [numRuns] runs return, the
    wrapper returns the empty array if the inertia of no run is strictly
    below [Infinity]; otherwise it returns the clusters of a run whose
    inertia is strictly below [Infinity], that no run is strictly below,
    and that no earlier run is as low as: the first run of least inertia. *)
Theorem runKMeans_retains_first_lowest (OL : OrderLaws) (numRuns : Z)
  (s : nat) (rs : list (list Cluster * num)) (s' : nat) :
  completedRuns rnd fuel data k maxIterations tol s rs s' ->
  length rs = Z.to_nat numRuns ->
  exists best,
    runKMeansWithOptimalInertia rnd fuel data k maxIterations tol numRuns s
    = Ret (best, s') /\
    ((best = [] /\ Forall (fun r => nltb (snd r) ninfinity = false) rs) \/
     exists j i,
       nth_error rs j = Some (best, i) /\
       nltb i ninfinity = true /\
       (forall j' r, nth_error rs j' = Some r -> nltb (snd r) i = false) /\
       (forall j' r, j' < j -> nth_error rs j' = Some r ->
                     ngeb i (snd r) = false)).
Proof.
  intros Hruns Hlen. unfold runKMeansWithOptimalInertia. rewrite <- Hlen.
  apply bestOfRuns_completed; assumption.
Qed.

Lemma bestOfRuns_Throw_inv s e : forall n (best0 : list Cluster) (bestI0 : num),
  bestOfRuns rnd n fuel data k maxIterations tol best0 bestI0 s = Throw e ->
  exists rs s1,
    completedRuns rnd fuel data k maxIterations tol s rs s1 /\
    length rs < n /\
    kMeans rnd fuel data k maxIterations tol s1 = Throw e.
Proof.
  intros n. revert s. induction n as [|n IH]; intros s best0 bestI0;
    cbn [bestOfRuns]; [discriminate|].
  intros E. apply bindR_Throw_inv in E as [E|(cl & s1 & Ek & E)].
  - exists [], s. split; [constructor|]. split; [simpl; lia|exact E].
  - destruct (kMeans_scored _ _ _ _ _ _ _ Ek) as (i & Ei).
    unfold bindR, lift in E. rewrite Ei in E.
    assert (Hrest : exists b bi,
               bestOfRuns rnd n fuel data k maxIterations tol b bi s1 = Throw e).
    { destruct (nltb i bestI0); eauto. }
    destruct Hrest as (b & bi & Er).
    destruct (IH _ _ _ Er) as (rs & s2 & Hruns & Hlen & Et).
    exists ((cl, i) :: rs), s2. split; [econstructor; eauto|].
    split; [simpl; lia|exact Et].
Qed.

Lemma bestOfRuns_Throw s rs s1 e :
  completedRuns rnd fuel data k maxIterations tol s rs s1 ->
  kMeans rnd fuel data k maxIterations tol s1 = Throw e ->
  forall n (best0 : list Cluster) (bestI0 : num),
    length rs < n ->
    bestOfRuns rnd n fuel data k maxIterations tol best0 bestI0 s = Throw e.
Proof.
  induction 1 as [s|s cl s2 inertia rs s' Ek Ei _ IH]; intros Et n best0 bestI0 Hn.
  - destruct n as [|n]; [simpl in Hn; lia|]. cbn [bestOfRuns].
    unfold bindR. rewrite Et. reflexivity.
  - destruct n as [|n]; [simpl in Hn; lia|].
    rewrite (bestOfRuns_step rnd _ _ _ _ _ _ _ _ _ Ek Ei).
    simpl in Hn. destruct (nltb inertia bestI0); apply IH; auto; lia.
Qed.

(** X9.  When the wrapper throws.  It throws [e] exactly when one of the
    [numRuns] runs of [kMeans] throws [e], the runs before it having
    returned; the scoring of a run that returned never throws, and no run
    starts after the one that threw. *)
Theorem runKMeans_throws_what_a_run_throws (numRuns : Z) (s : nat) (e : error) :
  runKMeansWithOptimalInertia rnd fuel data k maxIterations tol numRuns s
  = Throw e <->
  exists rs s1,
    completedRuns rnd fuel data k maxIterations tol s rs s1 /\
    length rs < Z.to_nat numRuns /\
    kMeans rnd fuel data k maxIterations tol s1 = Throw e.
Proof.
  unfold runKMeansWithOptimalInertia. split.
  - apply bestOfRuns_Throw_inv.
  - intros (rs & s1 & Hruns & Hlen & Et). eapply bestOfRuns_Throw; eauto.
Qed.

End BestOfRuns.

Lemma nonempty_In {A : Type} (l : list A) : l <> [] -> exists x, In x l.
Proof. destruct l as [|x l]; [congruence|]. intros _. exists x. left. reflexivity. Qed.

(** ** Datasets that no run can cluster *)

Section Refused.

Context {num : Type} {NUM : Number num}.
Variable rnd : nat -> num.

Local Abbreviation point := (list num).
Local Abbreviation Cluster := (@Cluster num).
Local Abbreviation LoopState := (@LoopState num).

Variable d : nat.
Variable data : list point.
Hypothesis data_nonempty : data <> [].
Hypothesis data_uniform : uniform d data.
Hypothesis index_ok : indexDrawsInRange rnd data.

(** The update of the centroids throws [e] when the centroid computation
    throws [e] on some cluster, and returns or throws [e] on the others:
    the clusters without points are re-seeded, which returns. *)
Lemma update_throws (fuel : nat) (e : error) (bad : list point -> Prop) :
  (forall pts, pts <> [] -> incl pts data -> bad pts ->
     calculateCentroidPosition pts = Throw e) ->
  (forall pts, pts <> [] -> incl pts data -> ~ bad pts ->
     exists m, calculateCentroidPosition pts = Ret m) ->
  (forall pts, bad pts \/ ~ bad pts) ->
  forall (cl : list Cluster) s,
    Forall (fun c => incl (points c) data) cl ->
    Exists (fun c => points c <> [] /\ bad (points c)) cl ->
    mapR (newCentroid rnd fuel data) cl s = Throw e.
Proof.
  intros Hbad Hgood Hdec. induction cl as [|c cl IH]; intros s Hin Hex;
    [inversion Hex|].
  apply Forall_cons_iff in Hin as [Hc Hin]. cbn [mapR]. unfold bindR at 1.
  unfold newCentroid at 1. destruct (points c) as [|p pts] eqn:Ep.
  - destruct (reseed_Ret index_ok fuel s) as (q & E & _).
    unfold bindR at 1. rewrite E. unfold ret at 1.
    inversion Hex as [? ? [Hne _]|? ? Hex']; subst; [congruence|].
    unfold bindR. rewrite (IH (S s) Hin Hex'). reflexivity.
  - destruct (Hdec (p :: pts)) as [Hb|Hb].
    + rewrite (Hbad (p :: pts)); [reflexivity|discriminate|exact Hc|exact Hb].
    + destruct (Hgood (p :: pts)) as (m & ->); [discriminate|exact Hc|exact Hb|].
      unfold lift.
      inversion Hex as [? ? [_ Hb']|? ? Hex']; subst.
      * rewrite Ep in Hb'. contradiction.
      * unfold bindR. rewrite (IH s Hin Hex'). reflexivity.
Qed.

(** The first pass of a run whose update throws. *)
Lemma kMeans_first_pass_throws (fuel : nat) (k maxIterations : Z) (tol : num)
  (s : nat) (cs : list point) (s0 : nat) (e : error) :
  validInput data k -> (1 <= maxIterations)%Z ->
  initializeCentroidsWithKMeansPlusPlus rnd fuel data k s = Ret (cs, s0) ->
  (forall cl, assignPointsToCentroidClusters data cs = Ret cl ->
     mapR (newCentroid rnd fuel data) cl s0 = Throw e) ->
  kMeans rnd fuel data k maxIterations tol s = Throw e.
Proof.
  intros Hv Hm Es Hup.
  rewrite kMeans_after_validation by (apply validate_valid; exact Hv).
  unfold bindR at 1. rewrite Es.
  destruct (Z.to_nat maxIterations) as [|n] eqn:En; [lia|].
  unfold bindR at 1. cbn [whileLoop].
  replace (loopCond maxIterations (initialState cs)) with true
    by (symmetry; unfold loopCond, initialState; simpl; apply Z.ltb_lt; lia).
  pose proof (initializeCentroids_incl _ _ _ _ _ Es) as [Hin Hne].
  destruct (assign_returns Hne data_uniform (uniform_incl data_uniform Hin))
    as (cl & Ea).
  unfold bindR at 1. unfold loopBody. unfold bindR at 1. unfold lift at 1.
  cbn [centroids initialState]. rewrite Ea.
  unfold bindR at 1. rewrite (Hup cl Ea). reflexivity.
Qed.

Lemma partition_Exists (P : point -> Prop) (cl : list Cluster) :
  Permutation (concat (map points cl)) data ->
  Exists P data ->
  Exists (fun c => Exists P (points c)) cl.
Proof.
  intros Hp Hex. apply Exists_exists in Hex as (p & Hp0 & HP).
  apply Permutation_sym in Hp. apply (Permutation_in _ Hp) in Hp0.
  apply in_concat in Hp0 as (pts & Hpts & Hin).
  apply in_map_iff in Hpts as (c & <- & Hc).
  apply Exists_exists. exists c. split; [exact Hc|].
  apply Exists_exists. eauto.
Qed.

Lemma clusters_incl (cl : list Cluster) :
  Permutation (concat (map points cl)) data ->
  Forall (fun c => incl (points c) data) cl.
Proof.
  intros Hp. apply Forall_forall. intros c Hc.
  eapply cluster_points_incl; eauto.
Qed.

Lemma kMeans_nan_first_pass (fuel : nat) (k maxIterations : Z) (tol : num)
  (s : nat) (cs : list point) (s0 : nat) :
  validInput data k -> 1 <= d -> someNaN data -> (1 <= maxIterations)%Z ->
  initializeCentroidsWithKMeansPlusPlus rnd fuel data k s = Ret (cs, s0) ->
  exists i,
    kMeans rnd fuel data k maxIterations tol s = Throw (InvalidCoordinate i).
Proof.
  intros Hv Hd Hnan Hm Es.
  pose proof (initializeCentroids_incl _ _ _ _ _ Es) as [Hin Hne].
  destruct (assign_returns Hne data_uniform (uniform_incl data_uniform Hin))
    as (cl & Ea).
  pose proof (assign_partition _ _ Ea) as (_ & _ & Hp).
  assert (Hex : Exists (fun c => someNaN (points c)) cl)
    by (apply partition_Exists; assumption).
  (* the first cluster that holds a NaN decides the index *)
  assert (Hfirst : exists i, forall s1,
             mapR (newCentroid rnd fuel data) cl s1 = Throw (InvalidCoordinate i)).
  { pose proof (clusters_incl _ Hp) as Hincl. clear Ea Hp.
    induction cl as [|c cl IH]; [inversion Hex|].
    apply Forall_cons_iff in Hincl as [Hc Hincl].
    destruct (noNaN_or_someNaN (points c)) as [Hn|Hn].
    - destruct IH as (i & Hi); [|exact Hincl|].
      { inversion Hex; subst; [|assumption].
        exfalso. eapply noNaN_not_someNaN; eauto. }
      exists i. intros s1. cbn [mapR]. unfold bindR at 1.
      unfold newCentroid at 1. destruct (points c) as [|p pts] eqn:Ep.
      + destruct (reseed_Ret index_ok fuel s1) as (q & E & _).
        unfold bindR at 1. rewrite E. unfold ret at 1.
        unfold bindR. rewrite Hi. reflexivity.
      + rewrite (@calculateCentroidPosition_ok _ _ d (p :: pts));
          [|discriminate|exact Hd|exact (uniform_incl data_uniform Hc)|exact Hn].
        unfold lift, bindR. rewrite Hi. reflexivity.
    - assert (Hpts : points c <> []) by (intros E; rewrite E in Hn; inversion Hn).
      destruct (@calculateCentroidPosition_throws_on_nan _ _ d (points c) Hpts Hd
                  (uniform_incl data_uniform Hc) Hn) as (i & Ei).
      exists i. intros s1. cbn [mapR]. unfold bindR at 1.
      unfold newCentroid at 1. destruct (points c) as [|p pts] eqn:Ep;
        [congruence|].
      rewrite Ei. reflexivity. }
  destruct Hfirst as (i & Hi). exists i.
  apply kMeans_first_pass_throws with (cs := cs) (s0 := s0); auto.
  intros cl' Ea'. rewrite Ea in Ea'. inversion Ea'; subst cl'. apply Hi.
Qed.

Lemma kMeans_no_dimension_first_pass (fuel : nat) (k maxIterations : Z)
  (tol : num) (s : nat) (cs : list point) (s0 : nat) :
  validInput data k -> d = 0 -> (1 <= maxIterations)%Z ->
  initializeCentroidsWithKMeansPlusPlus rnd fuel data k s = Ret (cs, s0) ->
  kMeans rnd fuel data k maxIterations tol s = Throw NoDimension.
Proof.
  intros Hv Hd Hm Es.
  apply kMeans_first_pass_throws with (cs := cs) (s0 := s0); auto.
  intros cl Ea. pose proof (assign_partition _ _ Ea) as (_ & _ & Hp).
  apply update_throws with (bad := fun _ => True).
  - intros pts Hne Hin _. destruct pts as [|p pts]; [congruence|].
    assert (Hl : length p = 0).
    { unfold uniform in data_uniform. rewrite Forall_forall in data_uniform.
      rewrite <- Hd. apply data_uniform, Hin. left. reflexivity. }
    unfold calculateCentroidPosition. rewrite Hl. reflexivity.
  - intros pts _ _ H. exfalso. apply H. exact I.
  - intros pts. left. exact I.
  - apply clusters_incl. exact Hp.
  - assert (Hex : Exists (fun c => Exists (fun _ => True) (points c)) cl).
    { apply partition_Exists; [exact Hp|].
      destruct (nonempty_In data_nonempty) as (p0 & Hp0).
      apply Exists_exists. exists p0. auto. }
    eapply Exists_impl; [|exact Hex]. cbv beta. intros c Hc. split; [|exact I].
    intros E. rewrite E in Hc. inversion Hc.
Qed.

End Refused.

(** X10.  A dataset with a NaN coordinate is never clustered.  On valid
    input of dimensionality at least 1 with some NaN coordinate, when the
    seeding returns and [maxIterations >= 1], [kMeans] throws "Invalid
    coordinate value" in its first pass: the validation does not look at
    the coordinates. *)
Theorem kMeans_throws_on_nan
  {num : Type} {NUM : Number num} (rnd : nat -> num)
  (d : nat) (data : list (list num)) (fuel : nat) (k maxIterations : Z)
  (tol : num) (s : nat) (cs : list (list num)) (s0 : nat) :
  validInput data k -> uniform d data -> 1 <= d -> someNaN data ->
  (1 <= maxIterations)%Z ->
  indexDrawsInRange rnd data ->
  initializeCentroidsWithKMeansPlusPlus rnd fuel data k s = Ret (cs, s0) ->
  exists i,
    kMeans rnd fuel data k maxIterations tol s = Throw (InvalidCoordinate i).
Proof.
  intros Hv Hu Hd Hn Hm Hidx Es.
  eapply kMeans_nan_first_pass; eassumption.
Qed.

(** X11.  Points without coordinates are never clustered.  On valid input
    whose points have no coordinate, when the seeding returns and
    [maxIterations >= 1], [kMeans] throws "Points must have at least one
    dimension." in its first pass. *)
Theorem kMeans_throws_without_coordinates
  {num : Type} {NUM : Number num} (rnd : nat -> num)
  (data : list (list num)) (fuel : nat) (k maxIterations : Z)
  (tol : num) (s : nat) (cs : list (list num)) (s0 : nat) :
  validInput data k -> uniform 0 data -> (1 <= maxIterations)%Z ->
  indexDrawsInRange rnd data ->
  initializeCentroidsWithKMeansPlusPlus rnd fuel data k s = Ret (cs, s0) ->
  kMeans rnd fuel data k maxIterations tol s = Throw NoDimension.
Proof.
  intros Hv Hu Hm Hidx Es.
  eapply kMeans_no_dimension_first_pass with (d := 0);
    try eassumption; [exact (proj1 Hv)|reflexivity].
Qed.

(** ** The convergence test *)

Section Convergence.

Context {num : Type} {NUM : Number num}.
Variable rnd : nat -> num.

Local Abbreviation point := (list num).
Local Abbreviation Cluster := (@Cluster num).
Local Abbreviation LoopState := (@LoopState num).

Lemma allWithin_not_positive (SL : SqrtLaws) (tol : num) (cs ns : list point) b :
  nltb nzero tol = false -> cs <> [] ->
  allWithin tol cs ns = Ret b -> b = false.
Proof.
  intros Ht Hne. destruct cs as [|c cs]; [congruence|].
  cbn [allWithin]. destruct ns as [|n ns]; [discriminate|].
  intros E. apply bind_Ret_inv in E as (dist & Ed & E).
  apply euclideanDistance_Ret_inv in Ed as [_ ->].
  destruct (nltb (nsqrt (sqDiffSum c n)) tol) eqn:El.
  - apply sqrt_lt_positive in El. congruence.
  - inversion E. reflexivity.
Qed.

Lemma loopBody_centroids_length (fuel : nat) (data : list point) (tol : num)
  (st : LoopState) s st' s' :
  loopBody rnd fuel data tol st s = Ret (st', s') ->
  length (centroids st') = length (centroids st).
Proof.
  intros E. apply loopBody_Ret_inv in E as (cl & ns & conv & Ea & En & _ & ->).
  cbn [centroids]. apply mapR_length in En.
  apply assign_partition in Ea as (Hl & _). congruence.
Qed.

Lemma iterates_not_positive (SL : SqrtLaws) (fuel : nat) (data : list point)
  (maxIterations : Z) (tol : num) (st : LoopState) s st' s' :
  nltb nzero tol = false ->
  iterates rnd fuel data maxIterations tol st s st' s' ->
  hasConverged st = false -> centroids st <> [] ->
  (iteration st <= maxIterations)%Z ->
  hasConverged st' = false /\ centroids st' <> [] /\
  (iteration st' <= maxIterations)%Z.
Proof.
  intros Ht. induction 1 as [st s|st s st1 s1 st2 s2 Hc E _ IH];
    intros Hconv Hne Hit; [auto|].
  pose proof (loopBody_centroids_length _ _ _ _ _ E) as Hl.
  pose proof E as E'.
  apply loopBody_Ret_inv in E' as (cl & ns & conv & _ & _ & Ew & ->).
  cbn [centroids] in Hl. apply IH; cbn [hasConverged centroids iteration].
  - eapply allWithin_not_positive; eauto.
  - intros ->. destruct (centroids st); [congruence|discriminate].
  - unfold loopCond in Hc. apply andb_prop in Hc as [_ Hc].
    apply Z.ltb_lt in Hc. lia.
Qed.

(** X12.  A tolerance that is not positive switches the convergence test
    off.  When [0 < tolerance] is false (zero, negative or NaN), no pass
    ever sets [hasConverged]: a run of [kMeans] that returns has made
    exactly [maxIterations] passes, and its clusters are those of the last
    of them. *)
Theorem kMeans_never_converges_without_tolerance (SL : SqrtLaws)
  (fuel : nat) (data : list point) (k maxIterations : Z) (tol : num)
  (s : nat) (cl : list Cluster) (sf : nat) :
  nltb nzero tol = false -> (0 <= maxIterations)%Z ->
  kMeans rnd fuel data k maxIterations tol s = Ret (cl, sf) ->
  exists cs s0 stf,
    initializeCentroidsWithKMeansPlusPlus rnd fuel data k s = Ret (cs, s0) /\
    iterates rnd fuel data maxIterations tol (initialState cs) s0 stf sf /\
    hasConverged stf = false /\ iteration stf = maxIterations /\
    cl = clusters stf.
Proof.
  intros Ht Hm E. apply kMeans_Ret_inv in E as (_ & cs & s0 & stf & Es & Ew & ->).
  exists cs, s0, stf. split; [exact Es|].
  apply whileLoop_iterates in Ew as [Hit Hstop]; [|simpl; lia].
  split; [exact Hit|].
  apply initializeCentroids_incl in Es as [_ Hne].
  destruct (iterates_not_positive SL Ht Hit) as (Hc & _ & Hle);
    [reflexivity|exact Hne|simpl; lia|].
  split; [exact Hc|]. split; [|reflexivity].
  apply loopCond_stopped in Hstop as [Hs|Hs]; [congruence|lia].
Qed.

Lemma sqDiffSum_self (ZL : ZeroLaws) (p : point) :
  Forall finite p -> sqDiffSum p p = nzero.
Proof.
  unfold sqDiffSum. induction 1 as [|x p Hx _ IH]; [reflexivity|].
  cbn [combine fold_left fst snd].
  rewrite (sub_finite Hx), mul_zero, add_zero. exact IH.
Qed.

Lemma euclideanDistance_self (ZL : ZeroLaws) (p : point) :
  Forall finite p -> euclideanDistance p p = Ret nzero.
Proof.
  intros H. rewrite euclideanDistance_Ret by reflexivity.
  rewrite (sqDiffSum_self ZL H), sqrt_zero. reflexivity.
Qed.

Lemma allWithin_self (ZL : ZeroLaws) (tol : num) (cs : list point) :
  nltb nzero tol = true -> Forall (Forall finite) cs ->
  allWithin tol cs cs = Ret true.
Proof.
  intros Ht. induction 1 as [|c cs Hc _ IH]; [reflexivity|].
  cbn [allWithin]. rewrite (euclideanDistance_self ZL Hc). cbn [bind].
  rewrite Ht. exact IH.
Qed.

(** X13.  Centroids that do not move end the run.  With a positive
    tolerance, a pass whose new centroids are the old ones, all of finite
    coordinates, sets [hasConverged]: the distance of a finite point to
    itself is zero.  The loop stops after that pass. *)
Theorem unchanged_centroids_converge (ZL : ZeroLaws)
  (fuel : nat) (data : list point) (maxIterations : Z) (tol : num)
  (st : LoopState) (s : nat) (st' : LoopState) (s' : nat) :
  nltb nzero tol = true ->
  Forall (Forall finite) (centroids st) ->
  loopBody rnd fuel data tol st s = Ret (st', s') ->
  centroids st' = centroids st ->
  hasConverged st' = true /\ stopped maxIterations st' /\
  forall n, whileLoop rnd n fuel data maxIterations tol st' s' = Ret (st', s').
Proof.
  intros Ht Hfin E Hsame.
  apply loopBody_Ret_inv in E as (cl & ns & conv & _ & _ & Ew & ->).
  cbn [centroids] in Hsame. subst ns.
  rewrite (@allWithin_self ZL tol _ Ht Hfin) in Ew. inversion Ew; subst conv.
  split; [reflexivity|]. split; [left; reflexivity|].
  intros [|n]; reflexivity.
Qed.

End Convergence.

(** ** The laws of the square root and of zero, for doubles *)

Lemma binary_round_aux_sign (prec emax : Z) (sx : bool) (mx ex : Z) (lx : location) :
  match binary_round_aux prec emax sx mx ex lx with
  | S754_zero s | S754_infinity s | S754_finite s _ _ => s = sx
  | S754_nan => True
  end.
Proof.
  unfold binary_round_aux.
  destruct (shr_fexp prec emax mx ex lx) as [mrs' e'].
  destruct (shr_fexp prec emax _ e' loc_Exact) as [mrs'' e''].
  destruct (shr_m mrs''); [reflexivity| |exact I].
  destruct (Z.leb e'' (emax - prec)); reflexivity.
Qed.

Lemma SFsqrt_lt_positive (prec emax : Z) (x t : spec_float) :
  SFltb (SFsqrt prec emax x) t = true -> SFltb (S754_zero false) t = true.
Proof.
  destruct x as [s|[|]| |[|] m e]; cbn [SFsqrt];
    try (destruct t as [|[|]| |[|]]; discriminate).
  - destruct t as [|[|]| |[|]]; intros H; try discriminate; reflexivity.
  - destruct (SFsqrt_core_binary prec emax (Z.pos m) e) as [[mz ez] lz].
    pose proof (binary_round_aux_sign prec emax false mz ez lz) as Hs.
    destruct (binary_round_aux prec emax false mz ez lz) as [s|s| |s m' e'];
      try subst s;
      destruct t as [|[|]| |[|]]; intros H; try discriminate; reflexivity.
Qed.

Lemma binary64_sqrt : @SqrtLaws float Binary64.number.
Proof.
  constructor. intros x t. cbn [nltb nsqrt nzero Binary64.number].
  rewrite !ltb_spec, sqrt_spec. apply SFsqrt_lt_positive.
Qed.

Lemma binary64_nan (x : float) :
  Prim2SF x = S754_nan -> PrimFloat.is_nan x = true.
Proof.
  intros E. unfold PrimFloat.is_nan. rewrite FloatAxioms.eqb_spec, E. reflexivity.
Qed.

Lemma binary64_sub_finite (x : float) :
  PrimFloat.is_nan (x - x) = false -> (x - x)%float = 0%float.
Proof.
  intros H. apply Prim2SF_inj.
  assert (Hn : Prim2SF (x - x) <> S754_nan).
  { intros E. apply binary64_nan in E. congruence. }
  rewrite sub_spec in *. unfold SF64sub in *.
  destruct (Prim2SF x) as [[|]|[|]| |s m e]; cbn [SFsub] in *;
    try congruence; try reflexivity.
  rewrite Z.sub_diag. reflexivity.
Qed.

Lemma binary64_zero : @ZeroLaws float Binary64.number.
Proof.
  constructor; try reflexivity.
  intros x. unfold finite. cbn [nisNaN nsub nzero Binary64.number].
  apply binary64_sub_finite.
Qed.

(** ** The distance, in any arithmetic *)

(** X14.  What [euclideanDistance] returns.  It throws exactly when the two
    points differ in dimensionality; otherwise it returns a number that is
    not below zero; and the distance of a point of finite coordinates to
    itself is zero. *)
Theorem euclideanDistance_properties
  {num : Type} {NUM : Number num} (OL : OrderLaws) (SL : SqrtLaws)
  (ZL : ZeroLaws) (p q : list num) :
  (length p <> length q ->
   euclideanDistance p q = Throw DistanceDimensions) /\
  (length p = length q ->
   exists dist, euclideanDistance p q = Ret dist /\ nltb dist nzero = false) /\
  (Forall finite p -> euclideanDistance p p = Ret nzero).
Proof.
  split; [|split].
  - intros H. unfold euclideanDistance. apply Nat.eqb_neq in H. rewrite H.
    reflexivity.
  - intros H. rewrite (euclideanDistance_Ret _ _ H). eexists.
    split; [reflexivity|].
    destruct (nltb (nsqrt (sqDiffSum p q)) nzero) eqn:E; [|reflexivity].
    apply sqrt_lt_positive in E. rewrite lt_irrefl in E. discriminate.
  - apply euclideanDistance_self. exact ZL.
Qed.

(** ** The sign of the inertia *)

Section InertiaSign.

Context {num : Type} {NUM : Number num}.

Local Abbreviation point := (list num).
Local Abbreviation Cluster := (@Cluster num).

Lemma clusterInertia_not_negative (OL : OrderLaws) (AL : SumLaws)
  (c : point) :
  forall (ps : list point) (sum0 sum : num),
    nltb sum0 nzero = false ->
    foldM (fun sum p => d <- euclideanDistance p c ;; Ret (nadd sum (nmul d d)))
          ps sum0 = Ret sum ->
    nltb sum nzero = false.
Proof.
  induction ps as [|p ps IH]; intros sum0 sum H0; cbn [foldM].
  - intros E; inversion E; subst. exact H0.
  - intros E. apply bind_Ret_inv in E as (s1 & E1 & E).
    apply bind_Ret_inv in E1 as (d & _ & E1). inversion E1; subst s1.
    apply (IH _ _) with (2 := E).
    apply add_not_negative; [exact H0|apply square_not_negative].
Qed.

(** X15.  The inertia that [calculateInertia] returns is never below zero:
    it is a sum, from zero, of squares.  (It can be Infinity or NaN.) *)
Theorem calculateInertia_not_negative (OL : OrderLaws) (AL : SumLaws)
  (clusters : list Cluster) (inertia : num) :
  calculateInertia clusters = Ret inertia -> nltb inertia nzero = false.
Proof.
  unfold calculateInertia.
  assert (H0 : nltb (@nzero num NUM) nzero = false) by apply lt_irrefl.
  revert H0. generalize (@nzero num NUM) at 1 3 as inertia0.
  induction clusters as [|cluster clusters IH]; intros inertia0 H0; cbn [foldM].
  - intros E; inversion E; subst. exact H0.
  - intros E. apply bind_Ret_inv in E as (i1 & E1 & E).
    apply bind_Ret_inv in E1 as (s & Es & E1). inversion E1; subst i1.
    apply (IH _) with (2 := E).
    apply add_not_negative; [exact H0|].
    unfold clusterInertia in Es.
    eapply clusterInertia_not_negative with (4 := Es); try assumption.
    apply lt_irrefl.
Qed.

End InertiaSign.

(** *** The laws of sums, in the two arithmetics *)

Lemma binary_round_sign (prec emax : Z) (sx : bool) (mx : positive) (ex : Z) :
  match binary_round prec emax sx mx ex with
  | S754_zero s | S754_infinity s | S754_finite s _ _ => s = sx
  | S754_nan => True
  end.
Proof.
  unfold binary_round.
  destruct (shl_align mx ex (fexp prec emax (Z.pos (digits2_pos mx) + ex)))
    as [mz ez].
  apply binary_round_aux_sign.
Qed.

Lemma SFltb_zero_sign (x : spec_float) :
  match x with
  | S754_zero _ | S754_nan => True
  | S754_infinity s | S754_finite s _ _ => s = false
  end ->
  SFltb x (S754_zero false) = false.
Proof. destruct x as [s|[|]| |[|] m e]; intros H; try discriminate; reflexivity. Qed.

Lemma SFltb_zero_sign_inv (x : spec_float) :
  SFltb x (S754_zero false) = false ->
  match x with
  | S754_zero _ | S754_nan => True
  | S754_infinity s | S754_finite s _ _ => s = false
  end.
Proof. destruct x as [s|[|]| |[|] m e]; intros H; try discriminate; auto. Qed.

Lemma SFmul_square_sign (prec emax : Z) (x : spec_float) :
  SFltb (SFmul prec emax x x) (S754_zero false) = false.
Proof.
  apply SFltb_zero_sign.
  destruct x as [s|s| |s m e]; cbn [SFmul]; try exact I.
  - destruct s; reflexivity.
  - replace (xorb s s) with false by (destruct s; reflexivity).
    pose proof (binary_round_aux_sign prec emax false
                  (Z.pos (m * m)) (e + e) loc_Exact) as H.
    destruct (binary_round_aux prec emax false (Z.pos (m * m)) (e + e)
                loc_Exact); auto.
Qed.

Lemma SFadd_sign (prec emax : Z) (x y : spec_float) :
  SFltb x (S754_zero false) = false -> SFltb y (S754_zero false) = false ->
  SFltb (SFadd prec emax x y) (S754_zero false) = false.
Proof.
  intros Hx Hy. apply SFltb_zero_sign_inv in Hx, Hy. apply SFltb_zero_sign.
  destruct x as [sx|sx| |sx mx ex], y as [sy|sy| |sy my ey]; cbn [SFadd];
    try exact I; try assumption;
    try (destruct sx, sy; solve [exact I | discriminate | reflexivity]).
  subst sx sy. cbn [cond_Zopp].
  match goal with |- context [binary_normalize _ _ ?z ?e ?s] =>
    destruct z as [|m|m] eqn:Em; cbn [binary_normalize] end.
  - exact I.
  - match goal with |- context [binary_round _ _ _ _ ?e] =>
      pose proof (binary_round_sign prec emax false m e) as H;
      destruct (binary_round prec emax false m e); auto end.
  - exfalso. lia.
Qed.

Lemma binary64_sum : @SumLaws float Binary64.number.
Proof.
  constructor; cbn [nltb nmul nadd nzero Binary64.number].
  - intros x. rewrite ltb_spec, mul_spec. apply SFmul_square_sign.
  - intros x y. rewrite !ltb_spec, add_spec. apply SFadd_sign.
Qed.

Lemma exact_sum : @SumLaws Exact.xreal Exact.number.
Proof.
  constructor; cbn [nltb nmul nadd nzero Exact.number].
  - intros [a| | |]; cbn [Exact.mul Exact.ltb]; try reflexivity.
    apply Rltb_false. nra.
  - intros [a| | |] [b| | |]; cbn [Exact.add Exact.ltb]; try discriminate;
      try reflexivity.
    intros Ha Hb. apply Rltb_false. apply Rltb_false in Ha, Hb. lra.
Qed.

(** ** The seeding, for every [k] *)

Section SeedingOutcomes.

Context {num : Type} {NUM : Number num}.
Variable rnd : nat -> num.

Local Abbreviation point := (list num).

Lemma seedLoop_post (data : list point) (k : Z) :
  forall fuel (cs : list point) s cs' s',
    seedLoop rnd fuel data k cs s = Ret (cs', s') ->
    Z.of_nat (length cs') = Z.max k (Z.of_nat (length cs)) /\
    s + length cs' <= s' + length cs /\
    ((k <= Z.of_nat (length cs))%Z -> cs' = cs /\ s' = s).
Proof.
  induction fuel as [|fuel IH]; intros cs s cs' s'; cbn [seedLoop];
    destruct (Z.ltb_spec (Z.of_nat (length cs)) k) as [Hlt|Hge];
    try discriminate;
    try (intros E; inversion E; subst; repeat split; auto; lia).
  intros E. apply bindR_Ret_inv in E as (ds & s1 & Ed & E).
  apply lift_Ret_inv in Ed as [_ ->].
  apply bindR_Ret_inv in E as (r & s2 & Er & E).
  inversion Er; subst r s2.
  destruct (pickIndex _ _ _ _) as [i|].
  - apply bindR_Ret_inv in E as (p & s3 & Ep & E).
    apply lift_Ret_inv in Ep as [_ ->].
    apply IH in E as (Hl & Hs & _). rewrite length_app in *. simpl in *.
    repeat split; lia.
  - apply IH in E as (Hl & Hs & _). repeat split; lia.
Qed.

(** X16.  What the seeding returns, for every [k], on a non-empty dataset
    and with a random source that gives array indices.  The first centroid
    is chosen before [k] is looked at: for [k <= 1] (zero and negative [k]
    included) the seeding returns the single point
    [data[floor(random * n)]] after exactly one random value; and for every
    [k], a seeding that returns gives [max(k, 1)] centroids, all of them
    points of the dataset, and has drawn at least one random value for
    each. *)
Theorem seeding_returns_at_least_one (fuel : nat) (data : list point) (k : Z)
  (s : nat) :
  data <> [] -> indexDrawsInRange rnd data ->
  ((k <= 1)%Z ->
   exists i p,
     nfloor_index (nmul (rnd s) (nof_nat (length data))) = Some i /\
     nth_error data i = Some p /\
     initializeCentroidsWithKMeansPlusPlus rnd fuel data k s = Ret ([p], S s)) /\
  (forall cs s',
     initializeCentroidsWithKMeansPlusPlus rnd fuel data k s = Ret (cs, s') ->
     Z.of_nat (length cs) = Z.max k 1 /\ incl cs data /\ s + length cs <= s').
Proof.
  intros Hne Hidx. split.
  - intros Hk. destruct (Hidx s) as (i & Ei & Hi).
    destruct (nth_error data i) as [p|] eqn:Ep;
      [|apply nth_error_None in Ep; lia].
    exists i, p. split; [exact Ei|]. split; [exact Ep|].
    unfold initializeCentroidsWithKMeansPlusPlus, bindR, random, lift.
    rewrite Ei. cbn [dataAt]. rewrite Ep.
    destruct fuel; cbn [seedLoop length];
      replace (Z.of_nat 1 <? k)%Z with false
        by (symmetry; apply Z.ltb_ge; lia);
      reflexivity.
  - intros cs s' E.
    pose proof (initializeCentroids_incl _ _ _ _ _ E) as [Hin _].
    unfold initializeCentroidsWithKMeansPlusPlus in E.
    apply bindR_Ret_inv in E as (r & s1 & Er & E). inversion Er; subst r s1.
    apply bindR_Ret_inv in E as (p & s2 & Ep & E).
    apply lift_Ret_inv in Ep as [Ep ->].
    apply seedLoop_post in E as (Hl & Hs & _). simpl in Hl, Hs.
    split; [exact Hl|]. split; [exact Hin|]. lia.
Qed.

(** The selection loop from index [a] and cumulative sum [cum]. *)
Lemma pickIndex_Some_iff (rv : num) : forall (ds : list num) (a : nat) (cum : num) j,
  pickIndex ds a cum rv = Some j <->
  exists i, j = a + i /\ i < length ds /\
            ngeb (fold_left nadd (firstn (S i) ds) cum) rv = true /\
            forall i', i' < i ->
              ngeb (fold_left nadd (firstn (S i') ds) cum) rv = false.
Proof.
  induction ds as [|d ds IH]; intros a cum j; cbn [pickIndex].
  - split; [discriminate|]. intros (i & _ & Hi & _). simpl in Hi. lia.
  - destruct (ngeb (nadd cum d) rv) eqn:Eg.
    + split.
      * intros E; inversion E; subst j. exists 0.
        split; [lia|]. split; [simpl; lia|]. split; [exact Eg|].
        intros i' Hi'. lia.
      * intros (i & -> & _ & _ & Hmin). destruct i as [|i]; [f_equal; lia|].
        specialize (Hmin 0 ltac:(lia)). simpl in Hmin. congruence.
    + rewrite IH. split.
      * intros (i & -> & Hi & Hr & Hmin). exists (S i).
        split; [lia|]. split; [simpl; lia|]. split; [exact Hr|].
        intros [|i'] Hi'; [exact Eg|]. apply Hmin. lia.
      * intros (i & -> & Hi & Hr & Hmin). destruct i as [|i].
        -- simpl in Hr. congruence.
        -- exists i. split; [lia|]. split; [simpl in Hi; lia|].
           split; [exact Hr|]. intros i' Hi'.
           apply (Hmin (S i')). lia.
Qed.

Lemma pickIndex_None_iff (rv : num) : forall (ds : list num) (a : nat) (cum : num),
  pickIndex ds a cum rv = None <->
  forall i, i < length ds ->
    ngeb (fold_left nadd (firstn (S i) ds) cum) rv = false.
Proof.
  induction ds as [|d ds IH]; intros a cum; cbn [pickIndex].
  - split; [|reflexivity]. intros _ i Hi. simpl in Hi. lia.
  - destruct (ngeb (nadd cum d) rv) eqn:Eg.
    + split; [discriminate|]. intros H. specialize (H 0 ltac:(simpl; lia)).
      simpl in H. congruence.
    + rewrite IH. split.
      * intros H [|i] Hi; [exact Eg|]. apply H. simpl in Hi. lia.
      * intros H i Hi. apply (H (S i)). simpl. lia.
Qed.

(** X17.  The selection loop of a seeding pass.  It selects the first
    index whose cumulative sum reaches the random threshold ([>=]), and
    selects nothing exactly when no cumulative sum reaches it; an index
    selected is an index of the dataset. *)
Theorem pickIndex_first_reaching (distances : list num) (randomValue : num) :
  (forall i,
      pickIndex distances 0 nzero randomValue = Some i <->
      i < length distances /\
      ngeb (cumulativeSum distances i) randomValue = true /\
      forall j, j < i -> ngeb (cumulativeSum distances j) randomValue = false) /\
  (pickIndex distances 0 nzero randomValue = None <->
   forall i, i < length distances ->
     ngeb (cumulativeSum distances i) randomValue = false).
Proof.
  split.
  - intros i. rewrite pickIndex_Some_iff. unfold cumulativeSum. split.
    + intros (i0 & -> & H). exact H.
    + intros H. exists i. split; [reflexivity|exact H].
  - apply pickIndex_None_iff.
Qed.

End SeedingOutcomes.

(** * Exact arithmetic: what the program computes on real points *)

Section ExactBehaviour.

Import Exact RealPoints.

Lemma exact_sqrt : @SqrtLaws xreal Exact.number.
Proof.
  constructor. intros x t. cbn [nltb nsqrt nzero Exact.number].
  destruct x as [a| | |]; cbn [Exact.sqrt]; try (destruct t; discriminate).
  destruct (Rltb a 0); [destruct t; discriminate|].
  destruct t as [b| | |]; cbn [ltb]; try discriminate; [|reflexivity].
  intros H. apply Rltb_true in H. apply Rltb_true.
  pose proof (sqrt_pos a). lra.
Qed.

Lemma exact_zero : @ZeroLaws xreal Exact.number.
Proof.
  constructor; cbn [nsub nmul nadd nsqrt nzero Exact.number].
  - intros x. unfold finite. cbn [nisNaN nsub Exact.number].
    destruct x as [a| | |]; cbn [sub neg add is_nan]; try discriminate.
    intros _. f_equal. lra.
  - cbn [mul]. f_equal. lra.
  - cbn [add]. f_equal. lra.
  - cbn [Exact.sqrt].
    replace (Rltb 0 0) with false by (symmetry; apply Rltb_false; lra).
    f_equal. apply sqrt_0.
Qed.

(** *** The distance is a metric *)

Lemma rsq_cons (x y : R) (p q : list R) :
  rsq (x :: p) (y :: q) = ((x - y) * (x - y) + rsq p q)%R.
Proof. reflexivity. Qed.

Lemma rsq_sym (p : list R) : forall q, rsq p q = rsq q p.
Proof.
  induction p as [|x p IH]; intros [|y q]; try reflexivity.
  rewrite !rsq_cons, IH. ring.
Qed.

Lemma rsq_zero_iff (p : list R) : forall q,
  length p = length q -> (rsq p q = 0%R <-> p = q).
Proof.
  induction p as [|x p IH]; intros [|y q] Hl; simpl in Hl; try discriminate.
  - split; reflexivity.
  - rewrite rsq_cons. pose proof (rsq_nonneg p q) as Hn.
    pose proof (Rle_0_sqr (x - y)) as Hs. unfold Rsqr in Hs. split.
    + intros E. assert (E1 : ((x - y) * (x - y) = 0)%R) by lra.
      assert (E2 : rsq p q = 0%R) by lra.
      apply Rmult_integral in E1. f_equal; [destruct E1; lra|].
      apply IH; [lia|exact E2].
    + intros E. inversion E; subst. 
      assert (E2 : rsq q q = 0%R) by (apply IH; [lia|reflexivity]).
      rewrite E2. ring.
Qed.

(** The inequality of Cauchy and Schwarz, for sums over a list. *)
Lemma quadratic_sum {A : Type} (f g : A -> R) (l : list A) (t : R) :
  rsum (map (fun i => ((f i * t + g i) * (f i * t + g i))%R) l) =
  (rsum (map (fun i => (f i * f i)%R) l) * t * t
   + 2 * rsum (map (fun i => (f i * g i)%R) l) * t
   + rsum (map (fun i => (g i * g i)%R) l))%R.
Proof.
  induction l as [|i l IH]; simpl; [ring|]. rewrite IH. ring.
Qed.

Lemma rsum_squares_nonneg {A : Type} (f : A -> R) (l : list A) :
  (0 <= rsum (map (fun i => (f i * f i)%R) l))%R.
Proof.
  apply rsum_nonneg, Forall_forall. intros x Hx.
  apply in_map_iff in Hx as (i & <- & _). exact (Rle_0_sqr (f i)).
Qed.

Lemma cauchy_schwarz {A : Type} (f g : A -> R) (l : list A) :
  (rsum (map (fun i => (f i * g i)%R) l) * rsum (map (fun i => (f i * g i)%R) l)
   <= rsum (map (fun i => (f i * f i)%R) l) * rsum (map (fun i => (g i * g i)%R) l))%R.
Proof.
  set (a := rsum (map (fun i => (f i * f i)%R) l)).
  set (b := rsum (map (fun i => (f i * g i)%R) l)).
  set (c := rsum (map (fun i => (g i * g i)%R) l)).
  assert (Hq : forall t, (0 <= a * t * t + 2 * b * t + c)%R).
  { intros t. unfold a, b, c. rewrite <- quadratic_sum.
    apply (rsum_squares_nonneg (fun i => (f i * t + g i)%R)). }
  assert (Ha : (0 <= a)%R) by apply rsum_squares_nonneg.
  destruct (Req_dec a 0) as [E|E].
  - assert (Hb : b = 0%R).
    { destruct (Req_dec b 0) as [Eb|Eb]; [exact Eb|exfalso].
      specialize (Hq (- (c + 1) / (2 * b))%R). rewrite E in Hq.
      replace (0 * (- (c + 1) / (2 * b)) * (- (c + 1) / (2 * b))
               + 2 * b * (- (c + 1) / (2 * b)) + c)%R with (-1)%R in Hq
        by (field; exact Eb).
      lra. }
    rewrite Hb, E. lra.
  - assert (Hpos : (0 < a)%R) by lra.
    specialize (Hq (- b / a)%R).
    replace (a * (- b / a) * (- b / a) + 2 * b * (- b / a) + c)%R
      with (c - b * b / a)%R in Hq by (field; exact E).
    replace (b * b)%R with (a * (b * b / a))%R by (field; exact E).
    apply Rmult_le_compat_l; lra.
Qed.

Lemma minkowski {A : Type} (f g : A -> R) (l : list A) :
  (R_sqrt.sqrt (rsum (map (fun i => ((f i + g i) * (f i + g i))%R) l))
   <= R_sqrt.sqrt (rsum (map (fun i => (f i * f i)%R) l))
      + R_sqrt.sqrt (rsum (map (fun i => (g i * g i)%R) l)))%R.
Proof.
  set (a := rsum (map (fun i => (f i * f i)%R) l)).
  set (b := rsum (map (fun i => (f i * g i)%R) l)).
  set (c := rsum (map (fun i => (g i * g i)%R) l)).
  assert (Ha : (0 <= a)%R) by apply rsum_squares_nonneg.
  assert (Hc : (0 <= c)%R) by apply rsum_squares_nonneg.
  assert (Hcs : (b * b <= a * c)%R) by apply cauchy_schwarz.
  assert (Hsum : rsum (map (fun i => ((f i + g i) * (f i + g i))%R) l)
                 = (a + 2 * b + c)%R).
  { pose proof (quadratic_sum f g l 1) as H.
    rewrite (map_ext (fun i => ((f i + g i) * (f i + g i))%R)
                     (fun i => ((f i * 1 + g i) * (f i * 1 + g i))%R))
      by (intros; ring).
    rewrite H. unfold a, b, c. ring. }
  rewrite Hsum.
  pose proof (sqrt_pos a) as Hsa. pose proof (sqrt_pos c) as Hsc.
  pose proof (sqrt_sqrt a Ha) as Ea. pose proof (sqrt_sqrt c Hc) as Ec.
  set (sa := R_sqrt.sqrt a) in *. set (sc := R_sqrt.sqrt c) in *.
  assert (Hb : (b <= sa * sc)%R).
  { destruct (Rle_dec b (sa * sc)) as [H|H]; [exact H|exfalso].
    assert (H0 : (0 <= sa * sc)%R) by (apply Rmult_le_pos; assumption).
    assert (H1 : ((sa * sc) * (sa * sc) < b * b)%R) by nra.
    assert (H2 : ((sa * sc) * (sa * sc) = a * c)%R)
      by (rewrite <- Ea, <- Ec; ring).
    lra. }
  rewrite <- (sqrt_square (sa + sc)) by lra.
  apply sqrt_le_1_alt. nra.
Qed.

Lemma rsq_triangle (d : nat) (p q r : list R) :
  length p = d -> length q = d -> length r = d ->
  (R_sqrt.sqrt (rsq p r) <= R_sqrt.sqrt (rsq p q) + R_sqrt.sqrt (rsq q r))%R.
Proof.
  intros Hp Hq Hr.
  rewrite (@rsq_by_index d p r Hp Hr), (@rsq_by_index d p q Hp Hq),
    (@rsq_by_index d q r Hq Hr).
  rewrite (map_ext
             (fun i => ((nth i p 0 - nth i r 0) * (nth i p 0 - nth i r 0))%R)
             (fun i => (((nth i p 0 - nth i q 0) + (nth i q 0 - nth i r 0))
                        * ((nth i p 0 - nth i q 0) + (nth i q 0 - nth i r 0)))%R))
    by (intros; ring).
  apply (minkowski (fun i => (nth i p 0 - nth i q 0)%R)
                   (fun i => (nth i q 0 - nth i r 0)%R)).
Qed.

(** X18.  In exact arithmetic the distance is a metric on the points of
    one dimensionality: it is a real number, not negative, zero exactly
    between equal points, the same in both directions, and it satisfies
    the triangle inequality. *)
Theorem euclideanDistance_metric_exact (d : nat) (p q r : list R) :
  length p = d -> length q = d -> length r = d ->
  exists dpq dqr dpr : R,
    euclideanDistance (embed p) (embed q) = Ret (Fin dpq) /\
    euclideanDistance (embed q) (embed p) = Ret (Fin dpq) /\
    euclideanDistance (embed q) (embed r) = Ret (Fin dqr) /\
    euclideanDistance (embed p) (embed r) = Ret (Fin dpr) /\
    (0 <= dpq)%R /\ (dpq = 0%R <-> p = q) /\ (dpr <= dpq + dqr)%R.
Proof.
  intros Hp Hq Hr.
  exists (R_sqrt.sqrt (rsq p q)), (R_sqrt.sqrt (rsq q r)), (R_sqrt.sqrt (rsq p r)).
  split; [apply euclideanDistance_embed_Ret; congruence|].
  split; [rewrite (rsq_sym p q); apply euclideanDistance_embed_Ret; congruence|].
  split; [apply euclideanDistance_embed_Ret; congruence|].
  split; [apply euclideanDistance_embed_Ret; congruence|].
  split; [apply sqrt_pos|]. split.
  - rewrite <- (rsq_zero_iff p q) by congruence. split.
    + intros E. apply sqrt_eq_0; [apply rsq_nonneg|exact E].
    + intros ->. apply sqrt_0.
  - apply rsq_triangle with (d := d); assumption.
Qed.

End ExactBehaviour.

Section ExactMean.

Import Exact RealPoints.

Lemma rcost_nonneg (c : list R) (ps : list (list R)) : (0 <= rcost c ps)%R.
Proof.
  unfold rcost. apply rsum_nonneg, Forall_forall. intros x Hx.
  apply in_map_iff in Hx as (p & <- & _). apply rsq_nonneg.
Qed.

(** X19.  In exact arithmetic the centroid computation returns the point
    that minimises the sum of the squared distances to the points of the
    cluster: the mean of each coordinate, and no point of the same
    dimensionality has a lower sum. *)
Theorem centroid_minimises_cost_exact (d : nat) (ps : list (list R)) :
  ps <> [] -> 1 <= d -> Forall (fun p => length p = d) ps ->
  exists m : list R,
    calculateCentroidPosition (embedAll ps) = Ret (embed m) /\
    length m = d /\
    (forall i, i < d ->
       nth i m 0%R = (rsum (map (fun p => nth i p 0%R) ps) / INR (length ps))%R) /\
    (forall c, length c = d -> (rcost m ps <= rcost c ps)%R).
Proof.
  intros Hne Hd Hu. exists (rmean ps).
  assert (Hhd : length (hd [] ps) = d).
  { destruct ps as [|p ps]; [congruence|]. inversion Hu; assumption. }
  split.
  - rewrite <- (meanOf_embed Hne).
    apply calculateCentroidPosition_ok with (d := d).
    + destruct ps; [congruence|discriminate].
    + exact Hd.
    + apply uniform_embedAll. exact Hu.
    + apply noNaN_embedAll.
  - split; [rewrite rmean_length; exact Hhd|]. split.
    + intros i Hi. apply rmean_nth. lia.
    + intros c Hc. apply rcost_mean_le with (d := d); assumption.
Qed.

Lemma calculateInertia_embed_from :
  forall (l : list (list R * list (list R))) (acc : R),
    Forall (fun cp => Forall (fun p => length p = length (fst cp)) (snd cp)) l ->
    foldM (fun inertia cluster =>
             s <- clusterInertia cluster ;; Ret (nadd inertia s))
          (map (fun cp => {| centroid := embed (fst cp);
                             points := embedAll (snd cp) |}) l)
          (Fin acc)
    = Ret (Fin (acc + rsum (map (fun cp => rcost (fst cp) (snd cp)) l))).
Proof.
  induction l as [|[c ps] l IH]; intros acc H.
  - simpl. do 2 f_equal. lra.
  - apply Forall_cons_iff in H as [Hc H]. cbn [map foldM fst snd] in *.
    rewrite (@clusterInertia_embed c ps Hc). cbn [bind nadd Exact.number add].
    rewrite (IH _ H). do 2 f_equal. simpl. lra.
Qed.

(** X20.  In exact arithmetic the scoring returns the inertia: the sum,
    over the clusters, of the squared distances of the points of the cluster
    to its centroid, a real number that is not negative. *)
Theorem calculateInertia_exact (l : list (list R * list (list R))) :
  Forall (fun cp => Forall (fun p => length p = length (fst cp)) (snd cp)) l ->
  calculateInertia
    (map (fun cp => {| centroid := embed (fst cp);
                       points := embedAll (snd cp) |}) l)
  = Ret (Fin (rsum (map (fun cp => rcost (fst cp) (snd cp)) l))) /\
  (0 <= rsum (map (fun cp => rcost (fst cp) (snd cp)) l))%R.
Proof.
  intros H. split.
  - unfold calculateInertia. cbn [nzero Exact.number].
    rewrite (@calculateInertia_embed_from l 0 H). do 2 f_equal. lra.
  - apply rsum_nonneg, Forall_forall. intros x Hx.
    apply in_map_iff in Hx as (cp & <- & _). apply rcost_nonneg.
Qed.

End ExactMean.

Lemma mapM_Forall2 {A B : Type} (f : A -> outcome B) (l : list A) : forall bs,
  mapM f l = Ret bs -> Forall2 (fun a b => f a = Ret b) l bs.
Proof.
  induction l as [|a l IH]; intros bs; cbn [mapM].
  - intros E; inversion E; constructor.
  - intros E. apply bind_Ret_inv in E as (b & Eb & E).
    apply bind_Ret_inv in E as (bs' & Ebs & E). inversion E; subst.
    constructor; auto.
Qed.

Lemma Forall2_In_left {A B : Type} (P : A -> B -> Prop) (l : list A) (l' : list B) a :
  Forall2 P l l' -> In a l -> exists b, In b l' /\ P a b.
Proof.
  induction 1 as [|x y l l' Hxy _ IH]; intros Hin; [inversion Hin|].
  destruct Hin as [<-|Hin].
  - exists y. split; [left; reflexivity|exact Hxy].
  - destruct (IH Hin) as (b & Hb & HP). exists b. split; [right|]; assumption.
Qed.

Lemma Forall2_nth_right {A B : Type} (P : A -> B -> Prop) (l : list A) (l' : list B) :
  Forall2 P l l' ->
  forall i b, nth_error l' i = Some b -> exists a, nth_error l i = Some a /\ P a b.
Proof.
  induction 1 as [|x y l l' Hxy _ IH]; intros [|i] b E; simpl in E;
    try discriminate.
  - inversion E; subst. exists x. auto.
  - apply IH in E as (a & Ea & HP). exists a. auto.
Qed.

(** ** The seeding in exact arithmetic *)

Section ExactSeeding.

Import Exact RealPoints RealSources.

Lemma positive_unitSource (rnd : nat -> xreal) :
  positiveSource rnd -> unitSource rnd.
Proof.
  intros H s. destruct (H s) as (r & E & Hr). exists r. split; [exact E|lra].
Qed.

(** The minimum scan over real centroids: the result is the initial value
    or one of the distances, and it is at most each of them. *)
Lemma minDistance_fold_exact (p : list R) :
  forall (rcs : list (list R)) (acc : xreal),
    Forall (fun c => length c = length p) rcs ->
    (acc = PInf \/ exists a, acc = Fin a) ->
    exists acc',
      foldM (fun minD c =>
               distance <- euclideanDistance (embed p) c ;;
               Ret (if nltb distance minD then distance else minD))
            (embedAll rcs) acc = Ret acc' /\
      (acc' = acc \/
       exists c, In c rcs /\ acc' = Fin (R_sqrt.sqrt (rsq p c))) /\
      (forall c, In c rcs ->
         exists m, acc' = Fin m /\ (m <= R_sqrt.sqrt (rsq p c))%R) /\
      (forall a, acc = Fin a -> exists m, acc' = Fin m /\ (m <= a)%R).
Proof.
  induction rcs as [|c rcs IH]; intros acc Hl Hacc.
  - exists acc. split; [reflexivity|]. split; [left; reflexivity|].
    split; [intros c []|]. intros a ->. exists a. split; [reflexivity|lra].
  - apply Forall_cons_iff in Hl as [Hc Hl]. cbn [embedAll map foldM].
    rewrite (euclideanDistance_embed_Ret p c) by congruence. cbn [bind].
    set (dc := R_sqrt.sqrt (rsq p c)).
    assert (Hstep : exists a1,
               (if nltb (Fin dc) acc then Fin dc else acc) = Fin a1 /\
               (a1 <= dc)%R /\
               (forall a, acc = Fin a -> (a1 <= a)%R) /\
               (Fin a1 = acc \/ a1 = dc)).
    { cbn [nltb Exact.number]. destruct Hacc as [->|(a & ->)]; cbn [ltb].
      - exists dc. repeat split; auto; try lra. intros a E; discriminate.
      - destruct (Rltb dc a) eqn:E.
        + apply Rltb_true in E. exists dc. repeat split; auto; try lra.
          intros a0 E0; inversion E0; lra.
        + apply Rltb_false in E. exists a. repeat split; auto; try lra.
          intros a0 E0; inversion E0; lra. }
    destruct Hstep as (a1 & -> & H1 & H2 & H3).
    destruct (IH (Fin a1) Hl) as (acc' & E & Hwhich & Hle & Hacc');
      [right; eauto|].
    exists acc'. split; [exact E|]. split; [|split].
    + destruct Hwhich as [->|(c' & Hc' & ->)].
      * destruct H3 as [H3| ->]; [left; exact H3|].
        right. exists c. split; [left; reflexivity|reflexivity].
      * right. exists c'. split; [right; exact Hc'|reflexivity].
    + intros c' [<-|Hc'].
      * destruct (Hacc' a1 eq_refl) as (m & -> & Hm). exists m.
        split; [reflexivity|]. fold dc. lra.
      * apply Hle. exact Hc'.
    + intros a Ea. destruct (Hacc' a1 eq_refl) as (m & -> & Hm). exists m.
      split; [reflexivity|]. specialize (H2 a Ea). lra.
Qed.

(** The weight of a point in a seeding pass: zero for a point that is
    already a centroid, positive for any other point. *)
Lemma weight_exact (rcs : list (list R)) (p : list R) (x : xreal) :
  rcs <> [] -> Forall (fun c => length c = length p) rcs ->
  (m <- minDistance (embed p) (embedAll rcs) ;; Ret (nmul m m)) = Ret x ->
  exists w, x = Fin w /\ (0 <= w)%R /\
            (In p rcs -> w = 0%R) /\ (~ In p rcs -> (0 < w)%R).
Proof.
  intros Hne Hl. unfold minDistance. cbn [ninfinity Exact.number].
  destruct (@minDistance_fold_exact p rcs PInf Hl (or_introl eq_refl))
    as (acc' & -> & Hwhich & Hle & _).
  cbn [bind]. destruct rcs as [|c0 rcs]; [congruence|].
  destruct (Hle c0 (or_introl eq_refl)) as (m & -> & _).
  destruct Hwhich as [Hw|(c & Hc & Ec)]; [discriminate|].
  assert (Em : m = R_sqrt.sqrt (rsq p c)) by congruence. clear Ec.
  cbn [nmul Exact.number mul].
  intros E; inversion E; subst x. exists (m * m)%R.
  pose proof (sqrt_pos (rsq p c)) as Hpos.
  split; [reflexivity|]. split; [nra|]. split.
  - intros Hin. destruct (Hle p Hin) as (m' & Em' & Hm').
    inversion Em'; subst m'.
    assert (E0 : rsq p p = 0%R) by (apply rsq_zero_iff; reflexivity).
    rewrite E0, sqrt_0 in Hm'. nra.
  - intros Hnot. assert (Hpc : p <> c) by (intros ->; contradiction).
    assert (Hlen : length p = length c).
    { rewrite Forall_forall in Hl. symmetry. apply Hl. exact Hc. }
    assert (Hsq : (0 < rsq p c)%R).
    { pose proof (rsq_nonneg p c). destruct (Req_dec (rsq p c) 0) as [E0|E0];
        [|lra]. apply (rsq_zero_iff p c Hlen) in E0. contradiction. }
    apply sqrt_lt_R0 in Hsq. rewrite Em. nra.
Qed.

Lemma weights_exact (d : nat) (rdata rcs : list (list R)) (ds : list xreal) :
  rcs <> [] ->
  Forall (fun p => length p = d) rdata -> Forall (fun c => length c = d) rcs ->
  sqMinDistances (embedAll rdata) (embedAll rcs) = Ret ds ->
  Forall2 (fun p x => exists w, x = Fin w /\ (0 <= w)%R /\
                                (In p rcs -> w = 0%R) /\
                                (~ In p rcs -> (0 < w)%R))
          rdata ds.
Proof.
  intros Hne Hd Hc E. unfold sqMinDistances in E. apply mapM_Forall2 in E.
  unfold embedAll in E at 1. apply Forall2_map_left in E.
  rewrite Forall_forall in Hd.
  clear - Hne Hd Hc E. induction E as [|p x rdata ds Hpx _ IH]; constructor.
  - apply (@weight_exact rcs p x Hne); [|exact Hpx].
    eapply Forall_impl; [|exact Hc]. intros c Hlc. cbv beta in *.
    rewrite (Hd p); [exact Hlc|left; reflexivity].
  - apply IH. intros q Hq. apply Hd. right. exact Hq.
Qed.

(** The selection of a pass with a positive threshold: the weight of the
    index selected is positive. *)
Lemma pickIndex_positive : forall (ds : list xreal) (a : nat) (cum rv : R) j,
  Forall (fun x => exists w, x = Fin w /\ (0 <= w)%R) ds ->
  pickIndex ds a (Fin cum) (Fin rv) = Some j ->
  (cum < rv)%R ->
  a <= j /\ exists w, nth_error ds (j - a) = Some (Fin w) /\ (0 < w)%R.
Proof.
  induction ds as [|x ds IH]; intros a cum rv j H; cbn [pickIndex];
    [discriminate|].
  apply Forall_cons_iff in H as [(w & -> & Hw) H].
  cbn [nadd ngeb Exact.number add leb].
  destruct (Rleb rv (cum + w)) eqn:E.
  - apply Rleb_true in E. intros Ej Hlt. inversion Ej; subst j.
    split; [lia|]. exists w. rewrite Nat.sub_diag. split; [reflexivity|lra].
  - apply Rleb_false in E. intros Ej _.
    destruct (IH (S a) (cum + w)%R rv j H Ej E) as (Hj & w' & Hn & Hw').
    split; [lia|]. exists w'. split; [|exact Hw'].
    replace (j - a) with (S (j - S a)) by lia. exact Hn.
Qed.

Lemma totalDistance_ge (ds : list xreal) : forall a : R,
  Forall (fun x => exists m, x = Fin m /\ (0 <= m)%R) ds ->
  exists t, fold_left add ds (Fin a) = Fin t /\ (a <= t)%R.
Proof.
  induction ds as [|x ds IH]; intros a H.
  - exists a. split; [reflexivity|lra].
  - apply Forall_cons_iff in H as [(m & -> & Hm) H]. cbn [fold_left add].
    destruct (IH (a + m)%R H) as (t & E & Ht). exists t. split; [exact E|lra].
Qed.

Lemma totalDistance_positive (ds : list xreal) : forall a : R,
  Forall (fun x => exists m, x = Fin m /\ (0 <= m)%R) ds ->
  Exists (fun x => exists m, x = Fin m /\ (0 < m)%R) ds ->
  exists t, fold_left add ds (Fin a) = Fin t /\ (a < t)%R.
Proof.
  induction ds as [|x ds IH]; intros a H Hex; [inversion Hex|].
  apply Forall_cons_iff in H as [(m & -> & Hm) H]. cbn [fold_left add].
  inversion Hex as [? ? (m' & Em' & Hm')|? ? Hex']; subst.
  - inversion Em'; subst m'.
    destruct (totalDistance_ge (a + m)%R H) as (t & E & Ht).
    exists t. split; [exact E|lra].
  - destruct (IH (a + m)%R H Hex') as (t & E & Ht).
    exists t. split; [exact E|lra].
Qed.

(** A list without repetition that is included in a longer one misses one
    of its elements. *)
Lemma missing_point (rcs rdata : list (list R)) :
  NoDup rdata -> length rcs < length rdata ->
  exists p, In p rdata /\ ~ In p rcs.
Proof.
  intros Hnd Hlen.
  destruct (Forall_Exists_dec (fun p => In p rcs)
              (fun p => in_dec (list_eq_dec Req_dec_T) p rcs) rdata) as [H|H].
  - exfalso. assert (Hin : incl rdata rcs).
    { intros p Hp. rewrite Forall_forall in H. auto. }
    apply (NoDup_incl_length Hnd) in Hin. lia.
  - apply Exists_exists in H. exact H.
Qed.

Section Distinct.

Variable rnd : nat -> xreal.
Hypothesis rnd_positive : positiveSource rnd.
Variable d : nat.
Variable rdata : list (list R).
Hypothesis rdata_uniform : Forall (fun p => length p = d) rdata.
Hypothesis rdata_distinct : NoDup rdata.

Lemma seedLoop_distinct (k : Z) : forall fuel (rcs : list (list R)) s,
  rcs <> [] -> NoDup rcs -> incl rcs rdata ->
  (Z.of_nat (length rcs) <= k <= Z.of_nat (length rdata))%Z ->
  (k - Z.of_nat (length rcs) <= Z.of_nat fuel)%Z ->
  exists rcs',
    seedLoop rnd fuel (embedAll rdata) k (embedAll rcs) s
    = Ret (embedAll rcs', s + Z.to_nat (k - Z.of_nat (length rcs))) /\
    Z.of_nat (length rcs') = k /\ NoDup rcs' /\ incl rcs' rdata.
Proof.
  induction fuel as [|fuel IH]; intros rcs s Hne Hnd Hin Hk Hfuel;
    cbn [seedLoop]; unfold embedAll at 1; rewrite length_map;
    destruct (Z.ltb_spec (Z.of_nat (length rcs)) k) as [Hlt|Hge];
    try lia;
    try (exists rcs; replace (Z.to_nat (k - Z.of_nat (length rcs))) with 0 by lia;
         rewrite Nat.add_0_r; repeat split; auto; lia).
  assert (Hurcs : Forall (fun c => length c = d) rcs).
  { rewrite Forall_forall in *. auto. }
  destruct (sqMinDistances_Ret (uniform_embedAll rdata_uniform)
              (uniform_embedAll Hurcs)) as (ds & Eds & Hlen).
  pose proof (weights_exact Hne rdata_uniform Hurcs Eds) as Hw.
  assert (Hnn : Forall (fun x => exists m, x = Fin m /\ (0 <= m)%R) ds).
  { eapply sqMinDistances_embed; eauto. }
  destruct (@missing_point rcs rdata rdata_distinct ltac:(lia)) as (q & Hq & Hnq).
  destruct (@Forall2_In_left _ _ _ _ _ q Hw Hq) as (xq & Hxq & wq & -> & _ & _ & Hpos).
  destruct (@totalDistance_positive ds 0%R Hnn) as (t & Et & Ht).
  { apply Exists_exists. exists (Fin wq). split; [exact Hxq|]. eauto. }
  destruct (rnd_positive s) as (r & Er & Hr).
  assert (Hds : ds <> []) by (intros ->; inversion Hxq).
  assert (Hrv : nmul (rnd s) (totalDistance ds) = Fin (r * t)).
  { rewrite Er. unfold totalDistance. cbn [nadd nzero nmul Exact.number].
    rewrite Et. reflexivity. }
  assert (Hth : ngeb (totalDistance ds) (nmul (rnd s) (totalDistance ds)) = true).
  { apply (@exact_thresholds rnd rdata (positive_unitSource rnd_positive) s
             (embedAll rcs) ds); [|apply incl_map; exact Hin|exact Eds].
    destruct rcs; [congruence|discriminate]. }
  destruct (@pickIndex_reached _ _ ds 0 nzero _ Hds Hth) as (j & Ej).
  pose proof Ej as Ej'. rewrite Hrv in Ej'. cbn [nzero Exact.number] in Ej'.
  destruct (pickIndex_positive 0 Hnn Ej') as (_ & w & Hnth & Hwpos); [nra|].
  rewrite Nat.sub_0_r in Hnth.
  destruct (@Forall2_nth_right _ _ _ _ _ Hw j (Fin w) Hnth) as (rp & Hrp & w' & Ew & _ & Hzero & _).
  inversion Ew; subst w'.
  assert (Hnew : ~ In rp rcs) by (intros Hc; apply Hzero in Hc; lra).
  assert (Hrpin : In rp rdata) by (eapply nth_error_In; exact Hrp).
  destruct (IH (rcs ++ [rp]) (S s)) as (rcs' & E & Hl' & Hnd' & Hin').
  - destruct rcs; discriminate.
  - apply NoDup_app; [exact Hnd|constructor; [intros []|constructor]|].
    intros x Hx [<-|[]]. contradiction.
  - apply incl_app; [exact Hin|]. intros x [<-|[]]. exact Hrpin.
  - rewrite length_app. simpl. lia.
  - rewrite length_app. simpl. lia.
  - exists rcs'. split; [|auto].
    unfold bindR at 1. unfold lift at 1. rewrite Eds.
    unfold bindR at 1. unfold random at 1. rewrite Ej.
    unfold bindR at 1. unfold lift at 1. unfold dataAt, embedAll at 1.
    rewrite nth_error_map, Hrp. cbn [option_map].
    unfold embedAll in E. rewrite map_app in E. cbn [map] in E.
    unfold embedAll. rewrite E. do 2 f_equal.
    rewrite length_app. simpl. lia.
Qed.

End Distinct.

(** X21.  In exact arithmetic, on a dataset of distinct points and with
    random values strictly between 0 and 1, the seeding never selects a
    point twice: a point that is already a centroid has weight zero, and
    the point selected has a positive weight.  It returns [k] distinct
    points of the dataset after exactly [k] random values. *)
Theorem seeding_selects_distinct_points_exact
  (rnd : nat -> xreal) (d : nat) (rdata : list (list R)) (k : Z)
  (fuel : nat) (s : nat) :
  positiveSource rnd -> NoDup rdata -> Forall (fun p => length p = d) rdata ->
  (1 <= k <= Z.of_nat (length rdata))%Z -> (k <= Z.of_nat fuel + 1)%Z ->
  exists rcs,
    initializeCentroidsWithKMeansPlusPlus rnd fuel (embedAll rdata) k s
    = Ret (embedAll rcs, s + Z.to_nat k) /\
    Z.of_nat (length rcs) = k /\ NoDup rcs /\ incl rcs rdata.
Proof.
  intros Hrnd Hnd Hu Hk Hfuel.
  assert (Hne : rdata <> []) by (intros ->; simpl in Hk; lia).
  destruct (exact_indices (positive_unitSource Hrnd) Hne s) as (i & Ei & Hi).
  unfold embedAll in Hi. rewrite length_map in Hi.
  destruct (nth_error rdata i) as [rp|] eqn:Erp;
    [|apply nth_error_None in Erp; lia].
  destruct (@seedLoop_distinct rnd Hrnd d rdata Hu Hnd k fuel [rp] (S s))
    as (rcs & E & Hl & Hnd' & Hin).
  - discriminate.
  - constructor; [intros []|constructor].
  - intros x [<-|[]]. eapply nth_error_In; exact Erp.
  - simpl. lia.
  - simpl. lia.
  - exists rcs. split; [|auto].
    unfold initializeCentroidsWithKMeansPlusPlus, bindR, random, lift.
    rewrite Ei. unfold dataAt, embedAll at 1. rewrite nth_error_map, Erp.
    cbn [option_map]. change [embed rp] with (embedAll [rp]).
    rewrite E. do 2 f_equal. simpl. lia.
Qed.

End ExactSeeding.

Section ExactRuns.

Import Exact RealPoints RealSources.

Lemma seedLoop_zero_random (d : nat) (p0 : list R) (rest : list (list R)) (k : Z) :
  Forall (fun p => length p = d) (p0 :: rest) ->
  forall fuel n s,
    1 <= n -> (Z.of_nat n <= k)%Z -> (k - Z.of_nat n <= Z.of_nat fuel)%Z ->
    seedLoop (fun _ => Fin 0) fuel (embedAll (p0 :: rest)) k
             (repeat (embed p0) n) s
    = Ret (repeat (embed p0) (Z.to_nat k), s + (Z.to_nat k - n)).
Proof.
  intros Hu. induction fuel as [|fuel IH]; intros n s Hn Hk Hfuel;
    cbn [seedLoop]; rewrite repeat_length;
    destruct (Z.ltb_spec (Z.of_nat n) k) as [Hlt|Hge]; try lia;
    try (replace (Z.to_nat k) with n by lia; rewrite Nat.sub_diag, Nat.add_0_r;
         reflexivity).
  assert (Hrep : repeat (embed p0) n = embedAll (repeat p0 n)).
  { unfold embedAll. rewrite map_repeat. reflexivity. }
  assert (Hucs : Forall (fun c => length c = d) (repeat p0 n)).
  { apply Forall_forall. intros c Hc. apply repeat_spec in Hc. subst c.
    inversion Hu; assumption. }
  destruct (sqMinDistances_Ret (uniform_embedAll Hu) (uniform_embedAll Hucs))
    as (ds & Eds & Hlen).
  assert (Hnn : Forall (fun x => exists m, x = Fin m /\ (0 <= m)%R) ds).
  { eapply sqMinDistances_embed; [|exact Eds]. destruct n; [lia|discriminate]. }
  destruct (@totalDistance_embed ds 0%R Hnn (Rle_refl 0)) as (t & Et & Ht).
  destruct ds as [|x0 ds]; [discriminate|].
  pose proof Hnn as Hnn'. apply Forall_cons_iff in Hnn' as [(w0 & -> & Hw0) _].
  rewrite Hrep. unfold bindR at 1. unfold lift at 1. rewrite Eds.
  unfold bindR at 1. unfold random at 1. unfold totalDistance.
  cbn [nadd nzero nmul Exact.number]. rewrite Et.
  cbn [mul pickIndex nadd ngeb Exact.number add leb].
  replace (Rleb (0 * t) (0 + w0)) with true by (symmetry; apply Rleb_true; lra).
  unfold bindR at 1. unfold lift at 1.
  replace (dataAt (embedAll (p0 :: rest)) (Some 0))
    with (@Ret (list xreal) (embed p0)) by reflexivity.
  rewrite <- Hrep.
  replace (repeat (embed p0) n ++ [embed p0]) with (repeat (embed p0) (S n))
    by (rewrite <- repeat_cons; reflexivity).
  rewrite IH by lia. do 2 f_equal. lia.
Qed.

(** X22.  The random value 0.  In exact arithmetic, when [Math.random()]
    returns 0 at every call, the threshold of every pass is 0 and the first
    index is selected whatever its weight is: the seeding returns [k]
    copies of the first point of the dataset, for every [k >= 1] (the
    seeding itself does not compare [k] with the size of the dataset). *)
Theorem seeding_with_zero_random_exact
  (d : nat) (p0 : list R) (rest : list (list R)) (k : Z) (fuel s : nat) :
  Forall (fun p => length p = d) (p0 :: rest) ->
  (1 <= k)%Z -> (k <= Z.of_nat fuel + 1)%Z ->
  initializeCentroidsWithKMeansPlusPlus
    (fun _ => Fin 0) fuel (embedAll (p0 :: rest)) k s
  = Ret (repeat (embed p0) (Z.to_nat k), s + Z.to_nat k).
Proof.
  intros Hu Hk Hfuel.
  unfold initializeCentroidsWithKMeansPlusPlus, bindR, random, lift.
  cbn [nfloor_index nmul nof_nat Exact.number mul floor_index].
  rewrite Rmult_0_l.
  replace (Rltb 0 0) with false by (symmetry; apply Rltb_false; lra).
  assert (E0 : Z.to_nat (Int_part 0) = 0).
  { assert (H : Z.to_nat (Int_part 0) < 1)
      by (apply Int_part_range; simpl; lra).
    lia. }
  rewrite E0.
  replace (dataAt (embedAll (p0 :: rest)) (Some 0))
    with (@Ret (list xreal) (embed p0)) by reflexivity.
  change [embed p0] with (repeat (embed p0) 1).
  rewrite (@seedLoop_zero_random d p0 rest k Hu fuel 1 (S s)) by (simpl; lia).
  do 2 f_equal. lia.
Qed.

(** X23.  In exact arithmetic [kMeans] returns.  For real points of one
    dimensionality, at least 1, a valid [k], [maxIterations >= 1] and any
    random source with values from 0 (included) to 1 (excluded), every
    seeding pass selects a point and [kMeans] returns exactly [k] clusters
    whose points are the dataset, each point once. *)
Theorem kMeans_returns_exact
  (rnd : nat -> xreal) (d : nat) (rdata : list (list R))
  (k maxIterations : Z) (tol : xreal) (fuel s : nat) :
  unitSource rnd -> Forall (fun p => length p = d) rdata -> 1 <= d ->
  (1 <= k <= Z.of_nat (length rdata))%Z -> (1 <= maxIterations)%Z ->
  (k <= Z.of_nat fuel + 1)%Z ->
  exists cl sf,
    kMeans rnd fuel (embedAll rdata) k maxIterations tol s = Ret (cl, sf) /\
    Z.of_nat (length cl) = k /\
    Permutation (concat (map points cl)) (embedAll rdata).
Proof.
  intros Hrnd Hu Hd Hk Hm Hfuel.
  destruct (@exact_kMeans_total rnd d rdata k maxIterations tol fuel s
              Hrnd Hu Hd Hk Hm Hfuel) as (cl & sf & E & Hl).
  exists cl, sf. split; [exact E|]. split; [exact Hl|].
  destruct (kMeans_last_pass _ _ _ _ _ _ _ E) as [[H _]|(stp & sp & stf & _ & Eb & _ & ->)];
    [lia|].
  apply loopBody_spec in Eb as (Ea & _). apply assign_partition in Ea as (_ & _ & Hp).
  exact Hp.
Qed.

End ExactRuns.

(** ** The best of several runs, in exact arithmetic *)

Section ExactBestOf.

Import Exact RealPoints.

Variable rnd : nat -> xreal.
Variable fuel : nat.
Variable d : nat.
Variable rdata : list (list R).
Hypothesis rdata_uniform : Forall (fun p => length p = d) rdata.

Lemma iterates_prefix (maxIterations : Z) (tol : xreal)
  (st : @LoopState xreal) s stf sf :
  iterates rnd fuel (embedAll rdata) maxIterations tol st s stf sf ->
  (stf = st /\ sf = s) \/
  exists stp sp,
    iterates rnd fuel (embedAll rdata) maxIterations tol st s stp sp /\
    loopBody rnd fuel (embedAll rdata) tol stp sp = Ret (stf, sf).
Proof.
  induction 1 as [st s|st s st1 s1 st2 s2 Hc E Hit IH]; [left; auto|].
  right. destruct IH as [[-> ->]|(stp & sp & Hp & Eb)].
  - exists st, s. split; [constructor|exact E].
  - exists stp, sp. split; [econstructor; eauto|exact Eb].
Qed.

(** The clusters of a run are a partition of the dataset, and their
    inertia is a real number. *)
Lemma kMeans_exact_result (k maxIterations : Z) (tol : xreal) s cl sf :
  (1 <= maxIterations)%Z ->
  kMeans rnd fuel (embedAll rdata) k maxIterations tol s = Ret (cl, sf) ->
  Permutation (concat (map points cl)) (embedAll rdata) /\
  exists i : R, calculateInertia cl = Ret (Fin i).
Proof.
  intros Hm E. apply kMeans_Ret_inv in E as (_ & cs & s0 & stf & Es & Ew & ->).
  apply whileLoop_iterates in Ew as [Hit Hstop]; [|simpl; lia].
  apply initializeCentroids_incl in Es as [Hin Hne].
  apply incl_embedAll in Hin as (rcs & -> & Hin).
  assert (Hrcs : rcs <> []) by (intros ->; apply Hne; reflexivity).
  assert (Hd : Forall (fun c => length c = d) rcs).
  { rewrite Forall_forall in *. auto. }
  destruct (iterates_prefix Hit) as [[-> _]|(stp & sp & Hp & Eb)].
  - exfalso. unfold loopCond, initialState in Hstop. simpl in Hstop.
    apply Z.ltb_ge in Hstop. lia.
  - destruct (@iterates_exact rnd fuel d rdata rdata_uniform maxIterations tol
                _ _ _ _ Hp rcs eq_refl Hrcs Hd) as (rcs' & Hc & Hne' & Hd').
    split.
    + pose proof Eb as Eb'. apply loopBody_spec in Eb' as (Ea & _).
      apply assign_partition in Ea as (_ & _ & Hperm). exact Hperm.
    + destruct (@pass_exact rnd fuel d rdata rdata_uniform tol stp sp stf sf
                  rcs' Hc Hne' Hd' Eb) as (js & rns & _ & _ & _ & _ & _ & _ & Ei).
      eauto.
Qed.

Hypothesis rnd_unit : unitSource rnd.
Hypothesis dimension_positive : 1 <= d.

Lemma exact_completedRuns (k maxIterations : Z) (tol : xreal) :
  (1 <= k <= Z.of_nat (length rdata))%Z -> (1 <= maxIterations)%Z ->
  (k <= Z.of_nat fuel + 1)%Z ->
  forall n s, exists rs s',
    completedRuns rnd fuel (embedAll rdata) k maxIterations tol s rs s' /\
    length rs = n /\
    Forall (fun r => Z.of_nat (length (fst r)) = k /\
                     Permutation (concat (map points (fst r))) (embedAll rdata) /\
                     exists i : R, snd r = Fin i) rs.
Proof.
  intros Hk Hm Hfuel. induction n as [|n IH]; intros s.
  - exists [], s. split; [constructor|]. split; [reflexivity|constructor].
  - destruct (@exact_kMeans_total rnd d rdata k maxIterations tol fuel s
                rnd_unit rdata_uniform dimension_positive Hk Hm Hfuel)
      as (cl & s1 & E & Hl).
    destruct (kMeans_exact_result _ _ _ Hm E) as (Hp & i & Ei).
    destruct (IH s1) as (rs & s' & Hruns & Hlen & Hall).
    exists ((cl, Fin i) :: rs), s'. split; [econstructor; eauto|].
    split; [simpl; congruence|]. constructor; [|exact Hall]. cbn [fst snd]. eauto.
Qed.

End ExactBestOf.

Section ExactBestOfRuns.

Import Exact RealPoints.

(** X24.  The best of several runs, in exact arithmetic.  For real points
    of one dimensionality, at least 1, a valid [k], [maxIterations >= 1],
    [numRuns >= 1] and a random source of the unit interval, every run
    returns and has a real inertia, and the wrapper returns the [k]
    clusters of one of the runs, a partition of the dataset, whose inertia
    is the least of the inertias of the runs. *)
Theorem runKMeans_returns_lowest_exact
  (rnd : nat -> xreal) (d : nat) (rdata : list (list R))
  (k maxIterations : Z) (tol : xreal) (numRuns : Z) (fuel s : nat) :
  unitSource rnd -> Forall (fun p => length p = d) rdata -> 1 <= d ->
  (1 <= k <= Z.of_nat (length rdata))%Z -> (1 <= maxIterations)%Z ->
  (k <= Z.of_nat fuel + 1)%Z -> (1 <= numRuns)%Z ->
  exists rs best sf (i : R),
    completedRuns rnd fuel (embedAll rdata) k maxIterations tol s rs sf /\
    length rs = Z.to_nat numRuns /\
    runKMeansWithOptimalInertia
      rnd fuel (embedAll rdata) k maxIterations tol numRuns s
    = Ret (best, sf) /\
    In (best, Fin i) rs /\
    Z.of_nat (length best) = k /\
    Permutation (concat (map points best)) (embedAll rdata) /\
    (forall r, In r rs -> exists i' : R, snd r = Fin i' /\ (i <= i')%R).
Proof.
  intros Hrnd Hu Hd Hk Hm Hfuel Hn.
  destruct (@exact_completedRuns rnd fuel d rdata Hu Hrnd Hd k maxIterations tol
              Hk Hm Hfuel (Z.to_nat numRuns) s) as (rs & sf & Hruns & Hlen & Hall).
  destruct (@bestOfRuns_completed _ _ rnd fuel (embedAll rdata)
              k maxIterations tol exact_order s rs sf Hruns [] ninfinity)
    as (best & Eb & [[_ Hnone]|(j & i0 & Hj & Hlt & Hlow & _)]).
  - exfalso. destruct rs as [|r rs]; [simpl in Hlen; lia|].
    apply Forall_cons_iff in Hall as [(_ & _ & i & Ei) _].
    apply Forall_cons_iff in Hnone as [Hr _]. rewrite Ei in Hr. discriminate.
  - pose proof (nth_error_In _ _ Hj) as Hin.
    rewrite Forall_forall in Hall.
    destruct (Hall _ Hin) as (Hl & Hp & i & Ei). cbn [fst snd] in *. subst i0.
    exists rs, best, sf, i. split; [exact Hruns|]. split; [exact Hlen|].
    split; [unfold runKMeansWithOptimalInertia; rewrite <- Hlen; exact Eb|].
    split; [exact Hin|]. split; [exact Hl|]. split; [exact Hp|].
    intros r Hr. destruct (Hall _ Hr) as (_ & _ & i' & Ei').
    exists i'. split; [exact Ei'|].
    destruct (In_nth_error _ _ Hr) as (j' & Hj').
    specialize (Hlow j' r Hj'). rewrite Ei' in Hlow.
    cbn [nltb Exact.number ltb] in Hlow. apply Rltb_false in Hlow. exact Hlow.
Qed.

End ExactBestOfRuns.

(** * kmeans.ts: the seeding by shuffling, and its [kMeans] *)

Section LegacySeeding.

Import Legacy.

Lemma setAt_length (l : list nat) : forall i v, length (setAt l i v) = length l.
Proof.
  induction l as [|x l IH]; intros [|i] v; simpl; auto.
Qed.

Lemma nth_error_setAt (l : list nat) : forall i v j,
  i < length l ->
  nth_error (setAt l i v) j = if j =? i then Some v else nth_error l j.
Proof.
  induction l as [|x l IH]; intros [|i] v [|j] Hi; simpl in *; try lia;
    try reflexivity.
  apply IH. lia.
Qed.

(** Writing [v] over [a] changes the number of occurrences of [x] by what
    [v] adds and [a] takes away. *)
Lemma count_setAt (x : nat) (l : list nat) : forall i v a,
  nth_error l i = Some a ->
  count_occ Nat.eq_dec (setAt l i v) x + (if Nat.eq_dec a x then 1 else 0) =
  count_occ Nat.eq_dec l x + (if Nat.eq_dec v x then 1 else 0).
Proof.
  induction l as [|y l IH]; intros [|i] v a E; simpl in E; try discriminate.
  - inversion E; subst y. simpl.
    destruct (Nat.eq_dec a x), (Nat.eq_dec v x); lia.
  - simpl. specialize (IH i v a E).
    destruct (Nat.eq_dec y x); lia.
Qed.

Lemma swap_Permutation (l : list nat) (i j : nat) (l' : list nat) :
  swap l i (Some j) = Ret l' -> Permutation l' l /\ length l' = length l.
Proof.
  unfold swap. destruct (nth_error l i) as [a|] eqn:Ea; [|discriminate].
  destruct (nth_error l j) as [b|] eqn:Eb; [|discriminate].
  intros E; inversion E; subst l'. clear E.
  assert (Hi : i < length l) by (apply nth_error_Some; congruence).
  split; [|rewrite !setAt_length; reflexivity].
  apply (Permutation_count_occ Nat.eq_dec). intros x.
  pose proof (count_setAt x l i b Ea) as H1.
  assert (Eb' : nth_error (setAt l i b) j = Some b).
  { rewrite nth_error_setAt by exact Hi.
    destruct (Nat.eqb_spec j i); [reflexivity|exact Eb]. }
  pose proof (count_setAt x (setAt l i b) j a Eb') as H2.
  lia.
Qed.

Lemma swap_Ret (l : list nat) (i j : nat) :
  i < length l -> j < length l -> exists l', swap l i (Some j) = Ret l'.
Proof.
  intros Hi Hj. unfold swap.
  destruct (nth_error l i) eqn:Ea; [|apply nth_error_None in Ea; lia].
  destruct (nth_error l j) eqn:Eb; [|apply nth_error_None in Eb; lia].
  eauto.
Qed.

Context {num : Type} {NUM : Number num}.
Variable rnd : nat -> num.

Local Abbreviation point := (list num).

Lemma shuffle_Permutation (n : nat) :
  shuffleDrawsInRange rnd n ->
  forall i (indices : list nat) s,
    i < length indices -> length indices <= n ->
    exists indices',
      shuffle rnd i indices s = Ret (indices', s + i) /\
      Permutation indices' indices.
Proof.
  intros Hdraw. induction i as [|i IH]; intros indices s Hi Hn.
  - exists indices. rewrite Nat.add_0_r. split; [reflexivity|apply Permutation_refl].
  - destruct (Hdraw s (S i) ltac:(lia)) as (j & Ej & Hj).
    destruct (@swap_Ret indices (S i) j Hi ltac:(lia)) as (l1 & E1).
    pose proof (swap_Permutation _ _ _ E1) as [Hp1 Hl1].
    destruct (IH l1 (S s)) as (l2 & E2 & Hp2); [lia|lia|].
    exists l2. split.
    + cbn [shuffle]. unfold bindR at 1. unfold random at 1.
      rewrite Ej. unfold bindR at 1. unfold lift at 1. rewrite E1.
      rewrite E2. do 2 f_equal. lia.
    + eapply Permutation_trans; eassumption.
Qed.

(** X25.  The shuffle of kmeans.ts.  When every draw
    [Math.floor(Math.random() * (i + 1))] is an index from 0 to [i], the
    shuffle returns a permutation of the indices, after one random value
    for each position from the last one down to the second. *)
Theorem shuffle_returns_permutation (n : nat) (s : nat) :
  shuffleDrawsInRange rnd n ->
  exists indices,
    shuffle rnd (n - 1) (seq 0 n) s = Ret (indices, s + (n - 1)) /\
    Permutation indices (seq 0 n).
Proof.
  intros Hdraw. destruct n as [|n].
  - exists []. simpl. rewrite Nat.add_0_r. split; [reflexivity|constructor].
  - apply shuffle_Permutation with (n := S n); [exact Hdraw| |];
      rewrite length_seq; lia.
Qed.

Lemma mapM_dataAt (data : list point) : forall idx : list nat,
  Forall (fun i => i < length data) idx ->
  exists cs,
    mapM (fun index => dataAt data (Some index)) idx = Ret cs /\
    Forall2 (fun i p => nth_error data i = Some p) idx cs.
Proof.
  induction idx as [|i idx IH]; intros H.
  - exists []. split; [reflexivity|constructor].
  - apply Forall_cons_iff in H as [Hi H]. destruct (IH H) as (cs & E & Hcs).
    destruct (nth_error data i) as [p|] eqn:Ep;
      [|apply nth_error_None in Ep; lia].
    exists (p :: cs). split; [|constructor; assumption].
    cbn [mapM]. unfold dataAt at 1. rewrite Ep. cbn [bind]. rewrite E.
    reflexivity.
Qed.

Lemma firstn_incl {A : Type} (n : nat) (l : list A) : incl (firstn n l) l.
Proof.
  intros x Hx. rewrite <- (firstn_skipn n l). apply in_or_app. left. exact Hx.
Qed.

Lemma Forall2_length_eq {A B : Type} (P : A -> B -> Prop) (l : list A) (l' : list B) :
  Forall2 P l l' -> length l = length l'.
Proof. induction 1; simpl; congruence. Qed.

Lemma positions_NoDup (data : list point) (idx : list nat) (cs : list point) :
  NoDup data -> NoDup idx ->
  Forall2 (fun i p => nth_error data i = Some p) idx cs -> NoDup cs.
Proof.
  intros Hd Hi H. induction H as [|i p idx cs Hip H IH]; [constructor|].
  inversion Hi as [|? ? Hnot Hi']; subst. constructor; [|apply IH; exact Hi'].
  intros Hin. apply Hnot.
  assert (Hex : exists i', In i' idx /\ nth_error data i' = Some p).
  { clear - H Hin. induction H as [|i' p' idx cs Hip' _ IH]; [inversion Hin|].
    destruct Hin as [->|Hin].
    - exists i'. split; [left; reflexivity|exact Hip'].
    - destruct (IH Hin) as (i0 & H0 & E0). exists i0. split; [right|]; assumption. }
  destruct Hex as (i' & Hi0 & Ei').
  assert (E : i = i').
  { apply (proj1 (NoDup_nth_error data) Hd).
    - apply nth_error_Some. congruence.
    - congruence. }
  subst i'. exact Hi0.
Qed.

(** The seeding on a dataset that is at least as long as [k]. *)
Lemma initialiseCentroids_Ret (data : list point) (k : Z) (s : nat) :
  (k <= Z.of_nat (length data))%Z ->
  shuffleDrawsInRange rnd (length data) ->
  exists idx cs,
    initialiseCentroids rnd data k s
    = Shared (Ret (cs, s + (length data - 1))) /\
    NoDup idx /\
    Forall2 (fun i p => nth_error data i = Some p) idx cs /\
    Z.of_nat (length cs) =
    (if (k <? 0)%Z then Z.max (Z.of_nat (length data) + k) 0 else k).
Proof.
  intros Hk Hdraw. unfold initialiseCentroids.
  destruct (Z.ltb_spec (Z.of_nat (length data)) k) as [H|_]; [lia|].
  destruct (shuffle_returns_permutation s Hdraw) as (indices & Es & Hp).
  assert (Hlen : length indices = length data).
  { rewrite (Permutation_length Hp), length_seq. reflexivity. }
  assert (Hnd : NoDup indices).
  { eapply Permutation_NoDup; [apply Permutation_sym; exact Hp|apply seq_NoDup]. }
  assert (Hrange : Forall (fun i => i < length data) indices).
  { apply Forall_forall. intros i Hi.
    apply (Permutation_in _ Hp) in Hi. apply in_seq in Hi. lia. }
  set (idx := slice0 indices k).
  assert (Hidx : Forall (fun i => i < length data) idx).
  { apply Forall_forall. intros i Hi. rewrite Forall_forall in Hrange.
    apply Hrange. unfold idx, slice0 in Hi. eapply firstn_incl; eauto. }
  destruct (mapM_dataAt data Hidx) as (cs & Ecs & Hcs).
  exists idx, cs. split; [|split; [|split]].
  - unfold liftL, bindR. rewrite Es. unfold lift. fold idx. rewrite Ecs.
    reflexivity.
  - unfold idx, slice0.
    rewrite <- (firstn_skipn
                  (Z.to_nat (if (k <? 0)%Z
                             then Z.max (Z.of_nat (length indices) + k) 0
                             else Z.min k (Z.of_nat (length indices)))) indices)
      in Hnd.
    apply NoDup_app_remove_r in Hnd. exact Hnd.
  - exact Hcs.
  - rewrite <- (Forall2_length_eq Hcs). unfold idx, slice0.
    rewrite length_firstn, Hlen. destruct (Z.ltb_spec k 0); lia.
Qed.

(** X26.  The seeding of kmeans.ts.  For [k] up to the size of the dataset
    and draws that are indices, [initialiseCentroids] returns the points at
    pairwise distinct positions of the dataset, [k] of them for [k >= 0]
    (for a negative [k], which it does not refuse, all but the last [-k]),
    after [n - 1] random values whatever [k] is; on a dataset of distinct
    points the centroids are distinct. *)
Theorem initialiseCentroids_distinct_positions (data : list point) (k : Z)
  (s : nat) :
  (k <= Z.of_nat (length data))%Z ->
  shuffleDrawsInRange rnd (length data) ->
  exists idx cs,
    initialiseCentroids rnd data k s
    = Shared (Ret (cs, s + (length data - 1))) /\
    NoDup idx /\
    Forall2 (fun i p => nth_error data i = Some p) idx cs /\
    Z.of_nat (length cs) =
    (if (k <? 0)%Z then Z.max (Z.of_nat (length data) + k) 0 else k) /\
    (NoDup data -> NoDup cs).
Proof.
  intros Hk Hdraw.
  destruct (initialiseCentroids_Ret data s Hk Hdraw) as (idx & cs & E & Hnd & H2 & Hl).
  exists idx, cs. repeat split; auto.
  intros Hd. eapply positions_NoDup; eauto.
Qed.

End LegacySeeding.

Section LegacyRun.

Import Legacy.

Context {num : Type} {NUM : Number num}.
Variable rnd : nat -> num.

Local Abbreviation point := (list num).
Local Abbreviation Cluster := (@Cluster num).
Local Abbreviation LoopState := (@LoopState num).

Lemma bindL_exceeds_inv {A B : Type} (m : randL A) (k : A -> randL B) s :
  bindL m k s = ClustersExceedPoints ->
  m s = ClustersExceedPoints \/
  exists a s1, m s = Shared (Ret (a, s1)) /\ k a s1 = ClustersExceedPoints.
Proof.
  unfold bindL. destruct (m s) as [[[a s1]| |]|]; intros E; try discriminate;
    eauto.
Qed.

Lemma initialiseCentroids_exceeds (data : list point) (k : Z) s :
  initialiseCentroids rnd data k s = ClustersExceedPoints <->
  (Z.of_nat (length data) < k)%Z.
Proof.
  unfold initialiseCentroids.
  destruct (Z.ltb_spec (Z.of_nat (length data)) k) as [H|H].
  - split; auto.
  - split; [discriminate|lia].
Qed.

Lemma mapL_exceeds_inv {A B : Type} (f : A -> randL B) (l : list A) : forall s,
  mapL f l s = ClustersExceedPoints ->
  exists a s1, In a l /\ f a s1 = ClustersExceedPoints.
Proof.
  induction l as [|a l IH]; intros s; cbn [mapL]; [discriminate|].
  intros E. apply bindL_exceeds_inv in E as [E|(b & s1 & _ & E)].
  - exists a, s. split; [left; reflexivity|exact E].
  - apply bindL_exceeds_inv in E as [E|(bs & s2 & _ & E)]; [|discriminate].
    destruct (IH _ E) as (a' & s' & Ha & Ea). exists a', s'.
    split; [right; exact Ha|exact Ea].
Qed.

Lemma loopBody_never_exceeds (data : list point) (tol : num) (st : LoopState) s :
  data <> [] -> loopBody rnd data tol st s <> ClustersExceedPoints.
Proof.
  intros Hne E. unfold loopBody in E.
  apply bindL_exceeds_inv in E as [E|(cl & s1 & _ & E)]; [discriminate|].
  apply bindL_exceeds_inv in E as [E|(ns & s2 & _ & E)].
  - apply mapL_exceeds_inv in E as (c & s' & _ & E). unfold newCentroid in E.
    destruct (points c).
    + apply bindL_exceeds_inv in E as [E|(cs & s3 & _ & E)].
      * apply initialiseCentroids_exceeds in E.
        destruct data; [congruence|simpl in E; lia].
      * destruct cs; discriminate.
    + discriminate.
  - apply bindL_exceeds_inv in E as [E|(conv & s3 & _ & E)]; discriminate.
Qed.

Lemma whileLoop_never_exceeds (data : list point) (maxIterations : Z) (tol : num) :
  data <> [] ->
  forall n (st : LoopState) s,
    whileLoop rnd n data maxIterations tol st s <> ClustersExceedPoints.
Proof.
  intros Hne. induction n as [|n IH]; intros st s; cbn [whileLoop];
    [discriminate|].
  destruct (loopCond maxIterations st); [|discriminate].
  intros E. apply bindL_exceeds_inv in E as [E|(st' & s1 & _ & E)].
  - exact (loopBody_never_exceeds _ _ _ Hne E).
  - exact (IH _ _ E).
Qed.

(** X27.  The guard of [initialiseCentroids].  Called with more clusters
    than points it throws before any random value is drawn, and in no other
    case; [kMeans] never lets this error out, for any input: its own
    validation has refused such a [k], and an empty cluster is re-seeded
    with one centroid from a dataset that is not empty. *)
Theorem initialiseCentroids_guard_unreachable
  (data : list point) (k maxIterations : Z) (tol : num) :
  (forall s, initialiseCentroids rnd data k s = ClustersExceedPoints <->
             (Z.of_nat (length data) < k)%Z) /\
  (forall s, Legacy.kMeans rnd data k maxIterations tol s
             <> ClustersExceedPoints).
Proof.
  split; [intros s; apply initialiseCentroids_exceeds|].
  intros s E. unfold Legacy.kMeans in E.
  apply bindL_exceeds_inv in E as [E|([] & s1 & Ev & E)]; [discriminate|].
  unfold liftL in Ev. inversion Ev as [Ev']. apply lift_Ret_inv in Ev' as [Ev' _].
  apply validate_Ret in Ev' as (Hne & Hk & _).
  apply bindL_exceeds_inv in E as [E|(cs & s2 & _ & E)].
  - apply initialiseCentroids_exceeds in E. lia.
  - apply bindL_exceeds_inv in E as [E|(st & s3 & _ & E)]; [|discriminate].
    exact (whileLoop_never_exceeds _ _ Hne _ _ _ E).
Qed.

Lemma mapL_total {A B : Type} (Q : B -> Prop) (f : A -> randL B) (l : list A) :
  (forall a s, In a l -> exists b s', f a s = Shared (Ret (b, s')) /\ Q b) ->
  forall s, exists bs s',
    mapL f l s = Shared (Ret (bs, s')) /\ Forall Q bs /\ length bs = length l.
Proof.
  induction l as [|a l IH]; intros Hf s.
  - exists [], s. repeat split; constructor.
  - destruct (Hf a s (or_introl eq_refl)) as (b & s1 & Eb & Hb).
    destruct (IH (fun a0 s0 H0 => Hf a0 s0 (or_intror H0)) s1)
      as (bs & s2 & Ebs & Hbs & Hl).
    exists (b :: bs), s2. cbn [mapL]. unfold bindL at 1. rewrite Eb.
    unfold bindL at 1. rewrite Ebs. split; [reflexivity|].
    split; [constructor; assumption|simpl; congruence].
Qed.

Section Returns.

Variable d : nat.
Variable data : list point.
Hypothesis data_nonempty : data <> [].
Hypothesis data_uniform : uniform d data.
Hypothesis dimension_positive : 1 <= d.
Hypothesis data_noNaN : noNaN data.
Hypothesis draws_ok : shuffleDrawsInRange rnd (length data).

Lemma legacy_reseed_Ret (s : nat) :
  exists p,
    initialiseCentroids rnd data 1 s
    = Shared (Ret ([p], s + (length data - 1))) /\ In p data.
Proof.
  destruct (@initialiseCentroids_Ret _ _ rnd data 1 s) as (idx & cs & E & _ & H2 & Hl);
    [destruct data; [congruence|simpl; lia]|exact draws_ok|].
  cbn [Z.ltb Z.compare] in Hl.
  destruct cs as [|p [|q cs]]; simpl in Hl; try lia.
  exists p. split; [exact E|].
  inversion H2; subst. eapply nth_error_In; eauto.
Qed.

Lemma legacy_newCentroid_returns (c : Cluster) s :
  incl (points c) data ->
  exists n s', newCentroid rnd data c s = Shared (Ret (n, s')) /\ length n = d.
Proof.
  intros Hin. unfold newCentroid. destruct (points c) as [|p pts] eqn:Ep.
  - destruct (legacy_reseed_Ret s) as (q & E & Hq).
    exists q, (s + (length data - 1)). unfold bindL. rewrite E.
    split; [reflexivity|].
    unfold uniform in data_uniform. rewrite Forall_forall in data_uniform.
    auto.
  - pose proof (uniform_incl data_uniform Hin) as Hu.
    rewrite (@calculateCentroidPosition_ok _ _ d (p :: pts)); auto.
    + exists (meanOf (p :: pts)), s. split; [reflexivity|].
      rewrite meanOf_length. cbn [hd].
      apply Forall_cons_iff in Hu as [Hp _]. exact Hp.
    + discriminate.
    + eapply noNaN_incl; eauto.
Qed.

Lemma legacy_loopBody_returns (tol : num) (st : LoopState) s :
  centroids st <> [] -> uniform d (centroids st) ->
  exists st' s',
    loopBody rnd data tol st s = Shared (Ret (st', s')) /\
    uniform d (centroids st') /\
    length (centroids st') = length (centroids st) /\
    length (clusters st') = length (centroids st) /\
    Permutation (concat (map points (clusters st'))) data.
Proof.
  intros Hne Hu. unfold loopBody.
  destruct (assign_returns Hne data_uniform Hu) as (cl & Ea).
  pose proof (assign_partition _ _ Ea) as (Hl & Hc & Hp).
  destruct (@mapL_total _ _ (fun n : point => length n = d)
              (newCentroid rnd data) cl) with (s := s)
    as (ns & s1 & En & Hns & Hln).
  { intros c s0 Hc0. apply legacy_newCentroid_returns.
    eapply cluster_points_incl; eauto. }
  destruct (@allWithin_returns _ _ d tol (centroids st) ns) as (b & Eb); auto.
  { congruence. }
  eexists _, s1. unfold bindL, liftL, lift. rewrite Ea, En, Eb. unfold retL.
  split; [reflexivity|]. cbn [centroids clusters].
  repeat split; auto; congruence.
Qed.

Lemma legacy_whileLoop_returns (maxIterations : Z) (tol : num) :
  forall n (st : LoopState) s,
    centroids st <> [] -> uniform d (centroids st) ->
    exists stf sf,
      whileLoop rnd n data maxIterations tol st s = Shared (Ret (stf, sf)) /\
      (stf = st \/
       (length (clusters stf) = length (centroids st) /\
        Permutation (concat (map points (clusters stf))) data)).
Proof.
  induction n as [|n IH]; intros st s Hne Hu; cbn [whileLoop].
  - exists st, s. auto.
  - destruct (loopCond maxIterations st).
    + destruct (@legacy_loopBody_returns tol st s Hne Hu)
        as (st1 & s1 & E1 & Hu1 & Hl1 & Hc1 & Hp1).
      destruct (IH st1 s1) as (stf & sf & E & H); auto.
      { intros E0. rewrite E0 in Hl1. destruct (centroids st);
          [congruence|discriminate]. }
      exists stf, sf. unfold bindL. rewrite E1. split; [exact E|].
      right. destruct H as [->|[H Hp]]; split; auto; congruence.
    + exists st, s. auto.
Qed.

Lemma legacy_kMeans_total (k maxIterations : Z) (tol : num) s :
  (1 <= k <= Z.of_nat (length data))%Z -> (1 <= maxIterations)%Z ->
  exists cl sf,
    Legacy.kMeans rnd data k maxIterations tol s = Shared (Ret (cl, sf)) /\
    Z.of_nat (length cl) = k /\
    Permutation (concat (map points cl)) data.
Proof.
  intros Hk Hm.
  assert (Hv : validInput data k).
  { split; [exact data_nonempty|]. split; [exact Hk|]. eauto. }
  destruct (@initialiseCentroids_Ret _ _ rnd data k s) as (idx & cs & Es & _ & H2 & Hlen);
    [lia|exact draws_ok|].
  replace (k <? 0)%Z with false in Hlen by (symmetry; apply Z.ltb_ge; lia).
  assert (Hcs : cs <> []) by (intros ->; simpl in Hlen; lia).
  assert (Hu : uniform d cs).
  { apply Forall_forall. intros p Hp.
    assert (Hin : In p data).
    { clear - H2 Hp. induction H2 as [|i q idx cs Hq _ IH]; [inversion Hp|].
      destruct Hp as [<-|Hp]; [eapply nth_error_In; eauto|auto]. }
    unfold uniform in data_uniform. rewrite Forall_forall in data_uniform. auto. }
  destruct (Z.to_nat maxIterations) as [|n] eqn:En; [lia|].
  destruct (@legacy_loopBody_returns tol (initialState cs)
              (s + (length data - 1)) Hcs Hu)
    as (st1 & s1 & E1 & Hu1 & Hl1 & Hc1 & Hp1).
  destruct (@legacy_whileLoop_returns maxIterations tol n st1 s1)
    as (stf & sf & E & H); auto.
  { intros E0. rewrite E0 in Hl1. simpl in Hl1. destruct cs;
      [congruence|discriminate]. }
  exists (clusters stf), sf. split.
  - unfold Legacy.kMeans. unfold bindL at 1. unfold liftL at 1.
    rewrite (validate_valid Hv). unfold lift at 1.
    unfold bindL at 1. rewrite Es. unfold bindL at 1. rewrite En.
    cbn [whileLoop].
    replace (loopCond maxIterations (initialState cs)) with true.
    + unfold bindL. rewrite E1, E. reflexivity.
    + symmetry. unfold loopCond, initialState. simpl.
      apply Z.ltb_lt. lia.
  - simpl in Hl1, Hc1. destruct H as [->|[H Hp]]; split; auto; lia.
Qed.

End Returns.

(** X28.  [kMeans] of kmeans.ts returns.  On valid input whose points have
    at least one coordinate and no NaN, with [maxIterations >= 1] and draws
    that are indices, it returns exactly [k] clusters whose points are the
    dataset, each point once: no loop of this file waits for a selection,
    so that no condition on the weights is needed. *)
Theorem legacy_kMeans_returns_k_clusters
  (d : nat) (data : list point) (k maxIterations : Z) (tol : num) (s : nat) :
  validInput data k -> uniform d data -> 1 <= d -> noNaN data ->
  (1 <= maxIterations)%Z ->
  shuffleDrawsInRange rnd (length data) ->
  exists cl sf,
    Legacy.kMeans rnd data k maxIterations tol s = Shared (Ret (cl, sf)) /\
    Z.of_nat (length cl) = k /\
    Permutation (concat (map points cl)) data.
Proof.
  intros (Hne & Hk & _) Hu Hd Hn Hm Hdraw.
  apply legacy_kMeans_total with (d := d); assumption.
Qed.

(** X29.  [kMeans] of kmeans.ts without iterations.  On valid input with
    [maxIterations <= 0] and draws that are indices, it shuffles (the
    seeding runs whatever [maxIterations] is), makes no pass, and returns
    the empty array without an error. *)
Theorem legacy_kMeans_zero_iterations
  (data : list point) (k maxIterations : Z) (tol : num) (s : nat) :
  validInput data k -> (maxIterations <= 0)%Z ->
  shuffleDrawsInRange rnd (length data) ->
  Legacy.kMeans rnd data k maxIterations tol s
  = Shared (Ret ([], s + (length data - 1))).
Proof.
  intros Hv Hm Hdraw. pose proof Hv as (Hne & Hk & _).
  destruct (@initialiseCentroids_Ret _ _ rnd data k s) as (idx & cs & Es & _);
    [lia|exact Hdraw|].
  unfold Legacy.kMeans. unfold bindL at 1. unfold liftL at 1.
  rewrite (validate_valid Hv). unfold lift at 1.
  unfold bindL at 1. rewrite Es.
  replace (Z.to_nat maxIterations) with 0 by lia. reflexivity.
Qed.

End LegacyRun.

Section LegacyExact.

Import Exact RealPoints RealSources.

(** A random source of the unit interval gives the draws of the shuffle. *)
Lemma exact_shuffle_draws (rnd : nat -> xreal) (n : nat) :
  unitSource rnd -> Legacy.shuffleDrawsInRange rnd n.
Proof.
  intros Hrnd s i _. destruct (Hrnd s) as (r & -> & Hr).
  cbn [nfloor_index nmul nof_nat Exact.number mul floor_index].
  assert (Hn : (0 < INR (i + 1))%R) by (apply lt_0_INR; lia).
  replace (Rltb (r * INR (i + 1)) 0) with false
    by (symmetry; apply Rltb_false; nra).
  eexists. split; [reflexivity|].
  assert (H : Z.to_nat (Int_part (r * INR (i + 1))) < i + 1)
    by (apply Int_part_range; nra).
  lia.
Qed.

End LegacyExact.

(** * The further theorems at concrete inputs *)

Section FurtherWitnesses.

Import Binary64 Samples.

Lemma calculateCentroidPosition_returns_only_mean_witness :
  [[1]; [3]]%float <> [] /\ 1 <= length [2]%float /\
  uniform (length [2]%float) [[1]; [3]]%float /\ noNaN [[1]; [3]]%float /\
  [2]%float = meanOf [[1]; [3]]%float.
Proof.
  apply (@calculateCentroidPosition_returns_only_mean _ _
           [[1]; [3]]%float [2]%float).
  vm_compute. reflexivity.
Defined.

Lemma kMeans_clusters_dimension_witness :
  exists cl sf,
    kMeans halves 10 line 2 100 tolerance 0 = Ret (cl, sf) /\
    Forall (clusterOfDimension 1) cl /\
    exists i, calculateInertia cl = Ret i.
Proof.
  eexists. eexists. split; [vm_compute; reflexivity|].
  apply (@kMeans_clusters_dimension _ _ halves 1 10 line 2 100 tolerance 0 _ 2).
  - repeat constructor.
  - vm_compute. reflexivity.
Defined.

Lemma runKMeans_retains_first_lowest_witness :
  exists rs best,
    completedRuns halves 10 line 2 100 tolerance 0 rs 4 /\
    runKMeansWithOptimalInertia halves 10 line 2 100 tolerance 2 0
    = Ret (best, 4) /\
    ((best = [] /\ Forall (fun r => nltb (snd r) ninfinity = false) rs) \/
     exists j i,
       nth_error rs j = Some (best, i) /\
       nltb i ninfinity = true /\
       (forall j' r, nth_error rs j' = Some r -> nltb (snd r) i = false) /\
       (forall j' r, j' < j -> nth_error rs j' = Some r ->
                     ngeb i (snd r) = false)).
Proof.
  assert (Hruns : exists rs,
             completedRuns halves 10 line 2 100 tolerance 0 rs 4 /\
             length rs = Z.to_nat 2).
  { eexists. split.
    - eapply completedRuns_cons; [vm_compute; reflexivity|vm_compute; reflexivity|].
      eapply completedRuns_cons; [vm_compute; reflexivity|vm_compute; reflexivity|].
      apply completedRuns_nil.
    - reflexivity. }
  destruct Hruns as (rs & Hruns & Hlen).
  destruct (@runKMeans_retains_first_lowest _ _ halves 10 line 2 100 tolerance
              binary64_order 2 0 rs 4 Hruns Hlen) as (best & E & H).
  exists rs, best. auto.
Defined.

Lemma withNaN_valid : validInput withNaN 2.
Proof.
  split; [discriminate|]. split; [simpl; lia|]. exists 1. repeat constructor.
Qed.

Lemma kMeans_throws_on_nan_witness :
  exists i,
    kMeans halves 1 withNaN 2 1 tolerance 0 = Throw (InvalidCoordinate i).
Proof.
  apply (@kMeans_throws_on_nan _ _ halves 1 withNaN 1 2 1 tolerance 0
           [[1]; [PrimFloat.nan]]%float 2 withNaN_valid).
  - repeat constructor.
  - lia.
  - left. left. reflexivity.
  - lia.
  - intros s. exists 1. split; [vm_compute; reflexivity|simpl; lia].
  - vm_compute. reflexivity.
Defined.

Lemma noCoordinates_valid : validInput noCoordinates 1.
Proof.
  split; [discriminate|]. split; [simpl; lia|]. exists 0. repeat constructor.
Qed.

Lemma kMeans_throws_without_coordinates_witness :
  kMeans halves 0 noCoordinates 1 1 tolerance 0 = Throw NoDimension.
Proof.
  apply (@kMeans_throws_without_coordinates _ _ halves noCoordinates 0 1 1
           tolerance 0 [[]] 1 noCoordinates_valid).
  - repeat constructor.
  - lia.
  - intros s. exists 0. split; [vm_compute; reflexivity|simpl; lia].
  - vm_compute. reflexivity.
Defined.

Lemma kMeans_never_converges_without_tolerance_witness :
  exists cl sf cs s0 stf,
    kMeans halves 10 line 2 3 0%float 0 = Ret (cl, sf) /\
    initializeCentroidsWithKMeansPlusPlus halves 10 line 2 0 = Ret (cs, s0) /\
    iterates halves 10 line 3 0%float (initialState cs) s0 stf sf /\
    hasConverged stf = false /\ iteration stf = 3%Z /\
    cl = clusters stf.
Proof.
  destruct (kMeans halves 10 line 2 3 0%float 0) as [[cl sf]| |] eqn:E;
    [|vm_compute in E; discriminate|vm_compute in E; discriminate].
  destruct (@kMeans_never_converges_without_tolerance _ _ halves binary64_sqrt
              10 line 2 3 0%float 0 cl sf) as (cs & s0 & stf & H);
    [reflexivity|lia|exact E|].
  exists cl, sf, cs, s0, stf. split; [reflexivity|exact H].
Defined.

Lemma unchanged_centroids_converge_witness :
  exists st' s',
    loopBody halves 0 [[1]; [3]]%float tolerance (initialState [[2]]%float) 0
    = Ret (st', s') /\
    hasConverged st' = true /\ stopped 100 st' /\
    forall n,
      whileLoop halves n 0 [[1]; [3]]%float 100 tolerance st' s' = Ret (st', s').
Proof.
  eexists. eexists. split; [vm_compute; reflexivity|].
  apply (@unchanged_centroids_converge _ _ halves binary64_zero 0
           [[1]; [3]]%float 100 tolerance (initialState [[2]]%float) 0).
  - reflexivity.
  - repeat constructor.
  - vm_compute. reflexivity.
  - reflexivity.
Defined.

Lemma seeding_returns_at_least_one_witness :  ((0 <= 1)%Z ->
   exists i p,
     nfloor_index (nmul (halves 0) (nof_nat (length three))) = Some i /\
     nth_error three i = Some p /\
     initializeCentroidsWithKMeansPlusPlus halves 0 three 0 0 = Ret ([p], 1)) /\
  (forall cs s',
     initializeCentroidsWithKMeansPlusPlus halves 0 three 0 0 = Ret (cs, s') ->
     Z.of_nat (length cs) = Z.max 0 1 /\ incl cs three /\ 0 + length cs <= s').
Proof.
  apply (@seeding_returns_at_least_one _ _ halves 0 three 0 0).
  - discriminate.
  - exact three_indices.
Defined.

Lemma euclideanDistance_properties_witness :
  (length [3; 4]%float <> length [0; 0]%float ->
   euclideanDistance [3; 4]%float [0; 0]%float = Throw DistanceDimensions) /\
  (length [3; 4]%float = length [0; 0]%float ->
   exists dist,
     euclideanDistance [3; 4]%float [0; 0]%float = Ret dist /\
     nltb dist nzero = false) /\
  (Forall finite [3; 4]%float ->
   euclideanDistance [3; 4]%float [3; 4]%float = Ret nzero).
Proof.
  apply (@euclideanDistance_properties _ _ binary64_order binary64_sqrt
           binary64_zero [3; 4]%float [0; 0]%float).
Defined.

(** The random source [halves] in the shuffle of four indices. *)
Lemma line_shuffle_draws : Legacy.shuffleDrawsInRange halves (length line).
Proof.
  intros s i Hi. simpl in Hi.
  destruct i as [|[|[|[|i]]]]; try lia; eexists;
    (split; [vm_compute; reflexivity|lia]).
Qed.

Lemma shuffle_returns_permutation_witness :
  exists indices,
    Legacy.shuffle halves (4 - 1) (seq 0 4) 0 = Ret (indices, 0 + (4 - 1)) /\
    Permutation indices (seq 0 4).
Proof.
  apply (@shuffle_returns_permutation _ _ halves 4 0). exact line_shuffle_draws.
Defined.

Lemma initialiseCentroids_distinct_positions_witness :
  exists idx cs,
    Legacy.initialiseCentroids halves line 2 0
    = Legacy.Shared (Ret (cs, 0 + (length line - 1))) /\
    NoDup idx /\
    Forall2 (fun i p => nth_error line i = Some p) idx cs /\
    Z.of_nat (length cs) =
    (if (2 <? 0)%Z then Z.max (Z.of_nat (length line) + 2) 0 else 2%Z) /\
    (NoDup line -> NoDup cs).
Proof.
  apply (@initialiseCentroids_distinct_positions _ _ halves line 2 0).
  - simpl. lia.
  - exact line_shuffle_draws.
Defined.

Lemma legacy_kMeans_returns_k_clusters_witness :
  exists cl sf,
    Legacy.kMeans halves line 2 100 tolerance 0 = Legacy.Shared (Ret (cl, sf)) /\
    Z.of_nat (length cl) = 2%Z /\
    Permutation (concat (map points cl)) line.
Proof.
  apply (@legacy_kMeans_returns_k_clusters _ _ halves 1 line 2 100 tolerance 0
           line_valid).
  - repeat constructor.
  - lia.
  - repeat constructor.
  - lia.
  - exact line_shuffle_draws.
Defined.

Lemma legacy_kMeans_zero_iterations_witness :
  Legacy.kMeans halves line 2 0 tolerance 0
  = Legacy.Shared (Ret ([], 0 + (length line - 1))).
Proof.
  apply (@legacy_kMeans_zero_iterations _ _ halves line 2 0 tolerance 0
           line_valid).
  - lia.
  - exact line_shuffle_draws.
Defined.

Lemma line_no_nan_distance :  forall p c, In p line -> In c [[10]; [1]; [1]]%float ->
    nisNaN (distanceSpec p c) = false.
Proof.
  intros p c Hp Hc. simpl in Hp, Hc.
  repeat match goal with
         | H : _ \/ _ |- _ => destruct H as [H|H]
         end;
  try contradiction; subst p c; vm_compute; reflexivity.
Qed.

Lemma assignment_least_computed_distance_witness :
  exists cl js,
    assignPointsToCentroidClusters line [[10]; [1]; [1]]%float = Ret cl /\
    length cl = length [[10]; [1]; [1]]%float /\
    Forall2 (firstLeastComputed [[10]; [1]; [1]]%float) line js /\
    (forall j c, nth_error [[10]; [1]; [1]]%float j = Some c ->
       nth_error cl j =
       Some {| centroid := c; points := assignedTo j line js |}).
Proof.
  apply (@assignment_least_computed_distance _ _ binary64_order 1 line
           [[10]; [1]; [1]]%float).
  - discriminate.
  - repeat constructor.
  - repeat constructor.
  - exact line_no_nan_distance.
Defined.

Lemma repeated_centroid_gets_no_point_witness :
  exists clusters,
    assignPointsToCentroidClusters line [[1]; [1]]%float = Ret clusters /\
    nth_error clusters 1 = Some {| centroid := [1]%float; points := [] |}.
Proof.
  eexists. split; [vm_compute; reflexivity|].
  apply (@repeated_centroid_gets_no_point _ _ binary64_order line
           [[1]; [1]]%float _ 0 1 [1]%float).
  - vm_compute. reflexivity.
  - lia.
  - reflexivity.
  - reflexivity.
Defined.

Lemma calculateInertia_not_negative_witness :
  exists inertia,
    calculateInertia [{| centroid := [1]%float; points := line |}]
    = Ret inertia /\
    nltb inertia nzero = false.
Proof.
  eexists. split; [vm_compute; reflexivity|].
  apply (@calculateInertia_not_negative _ _ binary64_order binary64_sum
           [{| centroid := [1]%float; points := line |}]).
  vm_compute. reflexivity.
Defined.

End FurtherWitnesses.

Section FurtherWitnessesExact.

Import Exact RealPoints RealSources.

Lemma euclideanDistance_metric_exact_witness :
  exists dpq dqr dpr : R,
    euclideanDistance (embed [0; 0]%R) (embed [3; 4]%R) = Ret (Fin dpq) /\
    euclideanDistance (embed [3; 4]%R) (embed [0; 0]%R) = Ret (Fin dpq) /\
    euclideanDistance (embed [3; 4]%R) (embed [6; 9]%R) = Ret (Fin dqr) /\
    euclideanDistance (embed [0; 0]%R) (embed [6; 9]%R) = Ret (Fin dpr) /\
    (0 <= dpq)%R /\ (dpq = 0%R <-> [0; 0]%R = [3; 4]%R) /\
    (dpr <= dpq + dqr)%R.
Proof.
  apply (@euclideanDistance_metric_exact 2 [0; 0]%R [3; 4]%R [6; 9]%R);
    reflexivity.
Defined.

Lemma centroid_minimises_cost_exact_witness :
  exists m : list R,
    calculateCentroidPosition (embedAll [[1]; [3]]%R) = Ret (embed m) /\
    length m = 1 /\
    (forall i, i < 1 ->
       nth i m 0%R =
       (rsum (map (fun p => nth i p 0%R) [[1]; [3]]%R)
        / INR (length [[1]; [3]]%R))%R) /\
    (forall c, length c = 1 -> (rcost m [[1]; [3]]%R <= rcost c [[1]; [3]]%R)%R).
Proof.
  apply (@centroid_minimises_cost_exact 1 [[1]; [3]]%R).
  - discriminate.
  - lia.
  - repeat constructor.
Defined.

Lemma calculateInertia_exact_witness :
  calculateInertia
    (map (fun cp => {| centroid := embed (fst cp);
                       points := embedAll (snd cp) |})
         [([2], [[1]; [3]])]%R)
  = Ret (Fin (rsum (map (fun cp => rcost (fst cp) (snd cp))
                        [([2], [[1]; [3]])]%R))) /\
  (0 <= rsum (map (fun cp => rcost (fst cp) (snd cp)) [([2], [[1]; [3]])]%R))%R.
Proof.
  apply (@calculateInertia_exact [([2], [[1]; [3]])]%R).
  repeat constructor.
Defined.

Lemma sample_positiveSource : positiveSource (fun _ => Fin (1 / 2)).
Proof. intros s. exists (1 / 2)%R. split; [reflexivity|lra]. Qed.

Lemma sample_distinct : NoDup [[0]; [1]; [5]]%R.
Proof.
  repeat constructor; simpl; intros H;
    repeat match goal with
           | H : _ \/ _ |- _ => destruct H as [H|H]
           end;
    try contradiction; inversion H; lra.
Qed.

Lemma seeding_selects_distinct_points_exact_witness :
  exists rcs,
    initializeCentroidsWithKMeansPlusPlus
      (fun _ => Fin (1 / 2)) 1 (embedAll [[0]; [1]; [5]]%R) 2 0
    = Ret (embedAll rcs, 0 + Z.to_nat 2) /\
    Z.of_nat (length rcs) = 2%Z /\ NoDup rcs /\ incl rcs [[0]; [1]; [5]]%R.
Proof.
  apply (@seeding_selects_distinct_points_exact
           (fun _ => Fin (1 / 2)) 1 [[0]; [1]; [5]]%R 2 1 0).
  - exact sample_positiveSource.
  - exact sample_distinct.
  - repeat constructor.
  - simpl. lia.
  - lia.
Defined.

Lemma seeding_with_zero_random_exact_witness :
  initializeCentroidsWithKMeansPlusPlus
    (fun _ => Fin 0) 2 (embedAll ([0] :: [[1]])%R) 3 0
  = Ret (repeat (embed [0]%R) (Z.to_nat 3), 0 + Z.to_nat 3).
Proof.
  apply (@seeding_with_zero_random_exact 1 [0]%R [[1]]%R 3 2 0).
  - repeat constructor.
  - lia.
  - lia.
Defined.

Lemma kMeans_returns_exact_witness :
  exists cl sf,
    kMeans (fun _ => Fin (1 / 2)) 1 (embedAll [[0]; [1]; [5]]%R) 2 100 (Fin 0) 0
    = Ret (cl, sf) /\
    Z.of_nat (length cl) = 2%Z /\
    Permutation (concat (map points cl)) (embedAll [[0]; [1]; [5]]%R).
Proof.
  apply (@kMeans_returns_exact (fun _ => Fin (1 / 2)) 1 [[0]; [1]; [5]]%R
           2 100 (Fin 0) 1 0).
  - exact sample_unitSource.
  - repeat constructor.
  - lia.
  - simpl. lia.
  - lia.
  - lia.
Defined.

Lemma runKMeans_returns_lowest_exact_witness :
  exists rs best sf (i : R),
    completedRuns (fun _ => Fin (1 / 2)) 1 (embedAll [[0]; [1]; [5]]%R)
                  2 100 (Fin 0) 0 rs sf /\
    length rs = Z.to_nat 10 /\
    runKMeansWithOptimalInertia
      (fun _ => Fin (1 / 2)) 1 (embedAll [[0]; [1]; [5]]%R) 2 100 (Fin 0) 10 0
    = Ret (best, sf) /\
    In (best, Fin i) rs /\
    Z.of_nat (length best) = 2%Z /\
    Permutation (concat (map points best)) (embedAll [[0]; [1]; [5]]%R) /\
    (forall r, In r rs -> exists i' : R, snd r = Fin i' /\ (i <= i')%R).
Proof.
  apply (@runKMeans_returns_lowest_exact (fun _ => Fin (1 / 2)) 1
           [[0]; [1]; [5]]%R 2 100 (Fin 0) 10 1 0).
  - exact sample_unitSource.
  - repeat constructor.
  - lia.
  - simpl. lia.
  - lia.
  - lia.
  - lia.
Defined.

End FurtherWitnessesExact.
